(** * CodeTestGuard: the change-coverage analysis pipeline

    A shallow embedding of the Python services
    [api/services/coverage_analyzer.py], [api/services/ast_parser.py],
    [api/services/scoring_model.py] and [api/services/diff_analyzer.py],
    of the part of [difflib] that the last one calls and of the steps of
    [api/index.py] that chain them, together with the properties stated
    about them.

    Conventions of the embedding
    - a Python [str] is the list of its Unicode code points ([list N]);
    - a Python [dict] with string keys is a [gmap str _], a [set] a [gset];
    - a Python [int] is a [Z]; a Python [float] is the rational number it
      denotes, every arithmetic operation being followed by the IEEE-754
      binary64 round-to-nearest-even step (module [F64]);
    - a [for] loop that appends to lists is a [fold_left] over a loop state. *)

From Stdlib Require Import ZArith NArith QArith Qround Qpower Lia Lqa List Bool String Ascii.
From Stdlib Require Import Permutation.
From stdpp Require Import base option list gmap.

Import ListNotations.
Local Open Scope Z_scope.

(* ===================================================================== *)
(** * Python strings *)
(* ===================================================================== *)

Module Py.

(** A code point. *)
Abbreviation char := N.

(** [str]: an immutable sequence of code points. *)
Abbreviation str := (list N).

(** ** Literals: UTF-8 decoding of a Rocq byte string *)

Fixpoint bytes_of (s : string) : list N :=
  match s with
  | EmptyString => []
  | String a s' => N_of_ascii a :: bytes_of s'
  end.

Fixpoint utf8_decode (bs : list N) : str :=
  match bs with
  | [] => []
  | b0 :: r0 =>
      if (b0 <? 128)%N then b0 :: utf8_decode r0
      else if (b0 <? 224)%N then
        match r0 with
        | b1 :: r1 => ((b0 - 192) * 64 + (b1 - 128))%N :: utf8_decode r1
        | _ => []
        end
      else if (b0 <? 240)%N then
        match r0 with
        | b1 :: b2 :: r2 =>
            ((b0 - 224) * 4096 + (b1 - 128) * 64 + (b2 - 128))%N :: utf8_decode r2
        | _ => []
        end
      else
        match r0 with
        | b1 :: b2 :: b3 :: r3 =>
            ((b0 - 240) * 262144 + (b1 - 128) * 4096 + (b2 - 128) * 64 + (b3 - 128))%N
              :: utf8_decode r3
        | _ => []
        end
  end.

(** [u "text"] is the Python literal ["text"]. *)
Definition u (s : string) : str := utf8_decode (bytes_of s).

(** ** Truthiness: [if s:] holds for a non-empty string *)

Definition truthy (s : str) : bool :=
  match s with [] => false | _ :: _ => true end.

(** ** Whitespace, [strip], [split] *)

(** [str.isspace] on one code point: the code points that Python's
    [strip()] and [split()] treat as white space. *)
Definition isspace (c : char) : bool :=
  ((9 <=? c) && (c <=? 13) || (28 <=? c) && (c <=? 32)
   || (c =? 133) || (c =? 160) || (c =? 5760)
   || (8192 <=? c) && (c <=? 8202)
   || (c =? 8232) || (c =? 8233) || (c =? 8239) || (c =? 8287)
   || (c =? 12288))%N.

Fixpoint lstrip (s : str) : str :=
  match s with
  | [] => []
  | c :: s' => if isspace c then lstrip s' else s
  end.

Definition rstrip (s : str) : str := rev (lstrip (rev s)).

Definition strip (s : str) : str := rstrip (lstrip s).

(** [split_on sep s]: the maximal non-empty runs of [s] containing no
    code point for which [sep] holds.  [cur] is the run being read, in
    reverse. *)
Fixpoint split_run (sep : char -> bool) (cur : str) (s : str) : list str :=
  match s with
  | [] => match cur with [] => [] | _ => [rev cur] end
  | c :: s' =>
      if sep c then
        match cur with
        | [] => split_run sep [] s'
        | _ => rev cur :: split_run sep [] s'
        end
      else split_run sep (c :: cur) s'
  end.

(** [s.split()] without argument. *)
Definition split (s : str) : list str := split_run isspace [] s.

(** [s.split(sep)] for a one-character [sep]: empty pieces are kept. *)
Fixpoint split_at (sep : char) (cur : str) (s : str) : list str :=
  match s with
  | [] => [rev cur]
  | c :: s' =>
      if (c =? sep)%N then rev cur :: split_at sep [] s'
      else split_at sep (c :: cur) s'
  end.

Definition split_on (sep : char) (s : str) : list str := split_at sep [] s.

(** The zero digits of the decimal-digit blocks of Unicode 14.0
    (category Nd, the [\d] of the [re] module in CPython 3.11); each
    block holds the ten digits 0 to 9 in order. *)
Definition decimal_zeros : list N :=
  [48; 1632; 1776; 1984; 2406; 2534; 2662; 2790; 2918; 3046; 3174; 3302;
   3430; 3558; 3664; 3792; 3872; 4160; 4240; 6112; 6160; 6470; 6608; 6784;
   6800; 6992; 7088; 7232; 7248; 42528; 43216; 43264; 43472; 43504; 43600;
   44016; 65296; 66720; 68912; 69734; 69872; 69942; 70096; 70384; 70736;
   70864; 71248; 71360; 71472; 71904; 72016; 72784; 73040; 73120; 92768;
   92864; 93008; 120782; 120792; 120802; 120812; 120822; 123200; 123632;
   125264; 130032]%N.

Definition isdecimal (c : char) : bool :=
  existsb (fun z => (z <=? c) && (c <? z + 10))%N decimal_zeros.

(** [s.replace(old, new)] for one-character [old] and [new]. *)
Definition replace (old new : char) (s : str) : str :=
  map (fun c => if (c =? old)%N then new else c) s.

(** [str.lower] restricted to the ASCII letters; the definitions below
    take the lower-casing function of the runtime as a parameter, and
    this one instantiates it in the examples. *)
Definition lower_ascii (s : str) : str :=
  map (fun c => if (65 <=? c)%N && (c <=? 90)%N then (c + 32)%N else c) s.

(** ** Substring search: [needle in hay] *)

Fixpoint startswith (s pre : str) : bool :=
  match pre, s with
  | [], _ => true
  | p :: pre', c :: s' => (c =? p)%N && startswith s' pre'
  | _ :: _, [] => false
  end.

Fixpoint contains (hay needle : str) : bool :=
  startswith hay needle
  || match hay with
     | [] => false
     | _ :: hay' => contains hay' needle
     end.

(** [sep.join(parts)] *)
Fixpoint join (sep : str) (parts : list str) : str :=
  match parts with
  | [] => []
  | [p] => p
  | p :: ps => p ++ sep ++ join sep ps
  end.

(** ** Decimal rendering of an integer: [str(n)], [f"{n}"] *)

Fixpoint digits_of_uint (d : Decimal.uint) : str :=
  match d with
  | Decimal.Nil => []
  | Decimal.D0 d' => 48%N :: digits_of_uint d'
  | Decimal.D1 d' => 49%N :: digits_of_uint d'
  | Decimal.D2 d' => 50%N :: digits_of_uint d'
  | Decimal.D3 d' => 51%N :: digits_of_uint d'
  | Decimal.D4 d' => 52%N :: digits_of_uint d'
  | Decimal.D5 d' => 53%N :: digits_of_uint d'
  | Decimal.D6 d' => 54%N :: digits_of_uint d'
  | Decimal.D7 d' => 55%N :: digits_of_uint d'
  | Decimal.D8 d' => 56%N :: digits_of_uint d'
  | Decimal.D9 d' => 57%N :: digits_of_uint d'
  end.

Definition str_of_int (n : Z) : str :=
  match n with
  | Z0 => [48%N]
  | Zpos p => digits_of_uint (Pos.to_uint p)
  | Zneg p => 45%N :: digits_of_uint (Pos.to_uint p)
  end.

(** ** Dictionaries with string keys *)

(** [d.get(key, default)] *)
Definition get {V : Type} (d : gmap str V) (key : str) (dflt : V) : V :=
  default dflt (d !! key).

End Py.

Import Py.

(* ===================================================================== *)
(** * Python floats: IEEE-754 binary64 with round-to-nearest-even *)
(* ===================================================================== *)

Module F64.
Local Open Scope Q_scope.

(** A float is modelled by the rational number it denotes; after every
    operation the exact result is rounded to the nearest binary64 number,
    ties to even, subnormal numbers included.  Overflow is not modelled
    ([rnd] has no largest exponent): the counts handled here are list
    lengths, far below the threshold of 1.8e308 beyond which CPython
    returns an infinity or raises [OverflowError]. *)
Abbreviation float := Q.

(** Precision and least exponent of binary64. *)
Definition prec : Z := 53.
Definition emin : Z := -1074.

(** [pow2 e] is 2^e for any integer [e]. *)
Definition pow2 (e : Z) : Q :=
  match e with
  | Z0 => 1
  | Zpos p => inject_Z (Z.pow_pos 2 p)
  | Zneg p => 1 # (Pos.pow 2 p)
  end.

(** [ilog2 x] is floor(log2 x) for x > 0. *)
Definition ilog2 (x : Q) : Z :=
  let d := (Z.log2 (Qnum x) - Z.log2 (Zpos (Qden x)))%Z in
  if Qle_bool (pow2 d) x then d else (d - 1)%Z.

(** Round to the nearest integer, ties to even. *)
Definition rne (x : Q) : Z :=
  let f := Qfloor x in
  match Qcompare (x - inject_Z f) (1 # 2) with
  | Lt => f
  | Gt => (f + 1)%Z
  | Eq => if Z.even f then f else (f + 1)%Z
  end.

(** The exponent of the unit in the last place of [x > 0]. *)
Definition ulp_exp (x : Q) : Z := Z.max (ilog2 x - (prec - 1)) emin.

Definition rnd_pos (x : Q) : Q :=
  let e := ulp_exp x in
  Qred (inject_Z (rne (x / pow2 e)) * pow2 e).

(** [rnd x]: the binary64 number nearest to [x], ties to even. *)
Definition rnd (x : Q) : float :=
  match Qnum x with
  | Z0 => 0
  | Zpos _ => rnd_pos x
  | Zneg _ => Qred (- rnd_pos (- x))
  end.

(** [float(n)] and the arithmetic operators. *)
Definition of_int (n : Z) : float := rnd (inject_Z n).
Definition add (x y : float) : float := rnd (x + y).
Definition mul (x y : float) : float := rnd (x * y).
Definition div (x y : float) : float := rnd (x / y).

(** [a / b] on two ints: the correctly rounded quotient. *)
Definition truediv (a b : Z) : float := rnd (inject_Z a / inject_Z b).

(** [round(x, ndigits)] for [ndigits >= 0]: the decimal with [ndigits]
    fractional digits nearest to [x] (ties to even), converted back to
    binary64. *)
Definition round (x : float) (ndigits : nat) : float :=
  let p := inject_Z (10 ^ Z.of_nat ndigits) in
  rnd (inject_Z (rne (x * p)) / p).

(** [min(a, b)] and [max(a, b)] as the built-ins compute them: the first
    argument unless the second is strictly better. *)
Definition min (a b : float) : float := if Qlt_le_dec b a then b else a.
Definition max (a b : float) : float := if Qlt_le_dec a b then b else a.

(** Comparison [x >= y]. *)
Definition geb (x y : float) : bool := Qle_bool y x.

End F64.

(* ===================================================================== *)
(** * The header names of the uploaded tables, in both vocabularies *)
(* ===================================================================== *)

Module Keys.

Definition K_pkg_cn : str := Eval vm_compute in u "包名".
Definition K_cls_cn : str := Eval vm_compute in u "类名".
Definition K_mtd_cn : str := Eval vm_compute in u "方法名".
Definition K_desc_cn : str := Eval vm_compute in u "功能描述".
Definition K_pkg : str := Eval vm_compute in u "package_name".
Definition K_cls : str := Eval vm_compute in u "class_name".
Definition K_mtd : str := Eval vm_compute in u "method_name".
Definition K_desc : str := Eval vm_compute in u "description".

Definition K_id_cn : str := Eval vm_compute in u "测试用例ID".
Definition K_func_cn : str := Eval vm_compute in u "测试功能".
Definition K_steps_cn : str := Eval vm_compute in u "测试步骤".
Definition K_exp_cn : str := Eval vm_compute in u "预期结果".
Definition K_id : str := Eval vm_compute in u "test_id".
Definition K_func : str := Eval vm_compute in u "test_function".
Definition K_steps : str := Eval vm_compute in u "test_steps".
Definition K_exp : str := Eval vm_compute in u "expected_result".

(** A row of a parsed CSV or Excel table: header name to cell text. *)
Abbreviation row := (gmap str str).

End Keys.

Import Keys.

(* ===================================================================== *)
(** * services/coverage_analyzer.py *)
(* ===================================================================== *)

Module CoverageAnalyzer.

Record MappingEntry : Type := mkMappingEntry {
  package_name : str;
  class_name : str;
  method_name : str;
  description : str
}.

(** [f"{package}.{class}.{method}"] *)
Definition qualified (pkg cls mtd : str) : str :=
  pkg ++ u "." ++ cls ++ u "." ++ mtd.

Definition full_qualified_name (e : MappingEntry) : str :=
  qualified (package_name e) (class_name e) (method_name e).

Record TestCase : Type := mkTestCase {
  test_id : str;
  test_function : str;
  test_steps : str;
  expected_result : str
}.

(** One element of [coverage_details]. *)
Record CoverageDetail : Type := mkCoverageDetail {
  detail_method : str;
  detail_description : str;
  detail_is_covered : bool;
  detail_matched_tests : list str
}.

Record CoverageResult : Type := mkCoverageResult {
  total_changed_methods : Z;
  covered_methods : list str;
  uncovered_methods : list str;
  coverage_rate : F64.float;
  coverage_details : list CoverageDetail;
  error : option str
}.

(** The dataclass defaults, with the given [error]. *)
Definition CoverageResult_error (msg : str) : CoverageResult :=
  {| total_changed_methods := 0;
     covered_methods := [];
     uncovered_methods := [];
     coverage_rate := 0%Q;
     coverage_details := [];
     error := Some msg |}.

(** [row.get(cn, row.get(en, "")).strip()]: the Chinese header is used
    whenever it is present, the English one otherwise. *)
Definition field (r : row) (cn en : str) : str :=
  strip (get r cn (get r en [])).

(** ** parse_mapping_data *)

Definition parse_mapping_row (entries : list MappingEntry) (r : row)
  : list MappingEntry :=
  let package := field r K_pkg_cn K_pkg in
  let class_name := field r K_cls_cn K_cls in
  let method := field r K_mtd_cn K_mtd in
  let desc := field r K_desc_cn K_desc in
  if truthy package && truthy class_name && truthy method
  then entries ++ [mkMappingEntry package class_name method desc]
  else entries.

Definition parse_mapping_data (rows : list row) : list MappingEntry :=
  fold_left parse_mapping_row rows [].

(** ** parse_test_cases *)

Definition parse_test_row (cases : list TestCase) (r : row) : list TestCase :=
  let test_id := field r K_id_cn K_id in
  let func := field r K_func_cn K_func in
  let steps := field r K_steps_cn K_steps in
  let expected := field r K_exp_cn K_exp in
  if truthy test_id && truthy func
  then cases ++ [mkTestCase test_id func steps expected]
  else cases.

Definition parse_test_cases (rows : list row) : list TestCase :=
  fold_left parse_test_row rows [].

(** ** _fuzzy_match *)

Definition COMMA : char := 44%N.
Definition FULLWIDTH_COMMA : char := 65292%N.
Definition SLASH : char := 47%N.
Definition SPACE : char := 32%N.

(** [desc.replace(",", " ").replace("，", " ").replace("/", " ").split()] *)
Definition keywords_of (desc : str) : list str :=
  split (replace SLASH SPACE (replace FULLWIDTH_COMMA SPACE (replace COMMA SPACE desc))).

(** [sum(1 for kw in keywords if kw in test_func)] *)
Definition match_count (keywords : list str) (test_func : str) : Z :=
  fold_left (fun n kw => if contains test_func kw then n + 1 else n) keywords 0.

Definition _fuzzy_match (desc test_func : str) : bool :=
  let keywords := keywords_of desc in
  match keywords with
  | [] => false
  | _ =>
      let n := match_count keywords test_func in
      Z.max 1 (Z.of_nat (length keywords) / 2) <=? n
  end.

(** ** analyze_coverage *)

Definition NO_CHANGES : str := Eval vm_compute in u "没有检测到代码改动".
Definition NO_DESCRIPTION : str := Eval vm_compute in u "无映射描述".

Section WithLower.

(** [str.lower], the Unicode lower-casing of the Python runtime. *)
Variable lower : str -> str.

(** The mapping index: qualified name to description; a later entry
    overwrites an earlier one with the same key.  (The source also
    collects a set [test_keywords] that it never reads; it is left
    out.) *)
Definition build_index (mapping_entries : list MappingEntry) : gmap str str :=
  fold_left (fun idx entry => <[full_qualified_name entry := description entry]> idx)
            mapping_entries ∅.

(** The test of the inner loop, in the order the source evaluates it. *)
Definition matches (desc_lower : str) (tc : TestCase) : bool :=
  let func_lower := lower (test_function tc) in
  contains func_lower desc_lower
  || contains desc_lower func_lower
  || _fuzzy_match desc_lower func_lower.

(** The inner loop over the test cases: [(is_covered, matched_tests)]. *)
Definition scan_tests (desc_lower : str) (test_cases : list TestCase)
  : bool * list str :=
  fold_left
    (fun st tc =>
       if matches desc_lower tc then (true, snd st ++ [test_id tc]) else st)
    test_cases (false, []).

(** The state of the outer loop. *)
Record acc : Type := mkAcc {
  covered : list str;
  uncovered : list str;
  details : list CoverageDetail
}.

Definition method_full_name (method : row) : str :=
  qualified (get method K_pkg []) (get method K_cls []) (get method K_mtd []).

Definition step (mapping_index : gmap str str) (test_cases : list TestCase)
                (st : acc) (method : row) : acc :=
  let full_name := method_full_name method in
  let description := get mapping_index full_name [] in
  let '(is_covered, matched_tests) :=
    if truthy description
    then scan_tests (lower description) test_cases
    else (false, []) in
  {| covered := if is_covered then covered st ++ [full_name] else covered st;
     uncovered := if is_covered then uncovered st else uncovered st ++ [full_name];
     details := details st ++
       [ {| detail_method := full_name;
            detail_description :=
              if truthy description then description else NO_DESCRIPTION;
            detail_is_covered := is_covered;
            detail_matched_tests := matched_tests |} ] |}.

Definition analyze_coverage (changed_methods : list row)
                            (mapping_entries : list MappingEntry)
                            (test_cases : list TestCase) : CoverageResult :=
  match changed_methods with
  | [] => CoverageResult_error NO_CHANGES
  | _ =>
      let mapping_index := build_index mapping_entries in
      let st := fold_left (step mapping_index test_cases) changed_methods
                          (mkAcc [] [] []) in
      let total := Z.of_nat (length changed_methods) in
      let rate :=
        if 0 <? total
        then F64.truediv (Z.of_nat (length (covered st))) total
        else 0%Q in
      {| total_changed_methods := total;
         covered_methods := covered st;
         uncovered_methods := uncovered st;
         coverage_rate := F64.round rate 4;
         coverage_details := details st;
         error := None |}
  end.

End WithLower.

End CoverageAnalyzer.

(* ===================================================================== *)
(** * services/ast_parser.py *)
(* ===================================================================== *)

Module AstParser.

Record MethodInfo : Type := mkMethodInfo {
  package_name : str;
  class_name : str;
  method_name : str;
  modifiers : list str;
  return_type : option str;
  parameters : list str
}.

Record ClassInfo : Type := mkClassInfo {
  class_package_name : str;
  class_class_name : str;
  methods : list MethodInfo
}.

Record ParseResult : Type := mkParseResult {
  classes : list ClassInfo;
  errors : list str
}.

(** ** The part of a [javalang] syntax tree that the module reads *)

Inductive Member : Type :=
| MethodDeclaration (name : str) (mods : list str)
                    (ret : option str) (params : list str)
| ConstructorDeclaration (name : str) (mods : list str) (params : list str)
| OtherMember.

(** The [body] of a type declaration.  For a class, an interface or an
    annotation type it is the list of the members.  For an enum it is an
    [EnumBody] node, which holds the members in its field
    [declarations]; iterating over the node itself, as the module does,
    walks the tree and yields pairs [(path, node)], none of which is a
    [MethodDeclaration] or a [ConstructorDeclaration]. *)
Inductive Body : Type :=
| MemberList (members : list Member)
| EnumBody (declarations : list Member).

Record TypeDeclaration : Type := mkTypeDeclaration {
  type_name : option str;
  body : Body
}.

Record CompilationUnit : Type := mkCompilationUnit {
  package : option str;
  types : list TypeDeclaration
}.

Inductive ParseOutcome : Type :=
| Parsed (tree : CompilationUnit)
| JavaSyntaxError (e : str)
| OtherException (e : str).

Definition NOT_INSTALLED : str := Eval vm_compute in u "javalang库未安装".
Definition EMPTY_SOURCE : str := Eval vm_compute in u "源代码为空".
Definition SYNTAX_ERROR : str := Eval vm_compute in u "Java语法错误: ".
Definition PARSE_EXCEPTION : str := Eval vm_compute in u "解析异常: ".

(** [f"{package}.{class}.{method}({','.join(parameters)})"] *)
Definition signature (m : MethodInfo) : str :=
  package_name m ++ u "." ++ class_name m ++ u "." ++ method_name m
    ++ u "(" ++ join (u ",") (parameters m) ++ u ")".

Section WithJavalang.

(** The module [javalang] as the import at the head of the file left
    it: [None] when the library is not installed, and otherwise
    [javalang.parse.parse], with the exceptions it may raise. *)
Variable javalang : option (str -> ParseOutcome).

Definition member_info (package_name class_name : str) (methods : list MethodInfo)
                       (member : Member) : list MethodInfo :=
  match member with
  | MethodDeclaration name mods ret params =>
      methods ++ [mkMethodInfo package_name class_name name mods ret params]
  | ConstructorDeclaration name mods params =>
      methods ++ [mkMethodInfo package_name class_name name mods None params]
  | OtherMember => methods
  end.

(** The loop [for member in type_decl.body]: over the members of a
    list, over the pairs of the tree walk of an [EnumBody]. *)
Definition methods_of_body (package_name class_name : str) (body : Body)
  : list MethodInfo :=
  match body with
  | MemberList members =>
      fold_left (member_info package_name class_name) members []
  | EnumBody _ => []
  end.

Definition class_info (package_name : str) (classes : list ClassInfo)
                      (type_decl : TypeDeclaration) : list ClassInfo :=
  match type_name type_decl with
  | None => classes
  | Some class_name =>
      classes ++
        [mkClassInfo package_name class_name
           (methods_of_body package_name class_name (body type_decl))]
  end.

Definition parse_java_code (source_code : str) : ParseResult :=
  match javalang with
  | None => mkParseResult [] [NOT_INSTALLED]
  | Some javalang_parse =>
      if negb (truthy source_code) || negb (truthy (strip source_code))
      then mkParseResult [] [EMPTY_SOURCE]
      else
        match javalang_parse source_code with
        | JavaSyntaxError e => mkParseResult [] [SYNTAX_ERROR ++ e]
        | OtherException e => mkParseResult [] [PARSE_EXCEPTION ++ e]
        | Parsed tree =>
            let package_name := default [] (package tree) in
            mkParseResult (fold_left (class_info package_name) (types tree) []) []
        end
  end.

Definition extract_methods_from_code (source_code : str) : list MethodInfo :=
  fold_left (fun methods cls => methods ++ AstParser.methods cls)
            (classes (parse_java_code source_code)) [].

(** The set of identity keys of the history methods. *)
Definition signatures_of (history_methods : list MethodInfo) : gset str :=
  fold_left (fun sigs m => sigs ∪ {[ signature m ]}) history_methods ∅.

(** The second loop, on the parsed method lists. *)
Definition changed_among (current_methods history_methods : list MethodInfo)
  : list MethodInfo :=
  let history_signatures := signatures_of history_methods in
  fold_left
    (fun changed m =>
       if decide (signature m ∈ history_signatures) then changed
       else changed ++ [m])
    current_methods [].

Definition extract_changed_methods (current_code history_code : str)
  : list MethodInfo :=
  changed_among (extract_methods_from_code current_code)
                (extract_methods_from_code history_code).

End WithJavalang.

End AstParser.

(* ===================================================================== *)
(** * services/scoring_model.py *)
(* ===================================================================== *)

Module ScoringModel.
Local Open Scope Q_scope.

(** ** Weights *)

Definition W_coverage : F64.float := Eval vm_compute in F64.rnd (40 # 100).
Definition W_completeness : F64.float := Eval vm_compute in F64.rnd (30 # 100).
Definition W_clarity : F64.float := Eval vm_compute in F64.rnd (20 # 100).
Definition W_boundary : F64.float := Eval vm_compute in F64.rnd (10 # 100).

(** [DimensionScore]; the free-text field [details] is left out, no
    score is computed from it. *)
Record DimensionScore : Type := mkDimensionScore {
  dimension : str;
  score : F64.float;
  weight : F64.float;
  weighted_score : F64.float
}.

Record ScoreResult : Type := mkScoreResult {
  total_score : F64.float;
  dimensions : list DimensionScore;
  grade : str;
  summary : str
}.

Definition DIM_COVERAGE : str := Eval vm_compute in u "覆盖范围".
Definition DIM_COMPLETENESS : str := Eval vm_compute in u "步骤完整性".
Definition DIM_CLARITY : str := Eval vm_compute in u "预期结果明确性".
Definition DIM_BOUNDARY : str := Eval vm_compute in u "边界用例".

(** ** score_coverage *)

Definition score_coverage (total_changed_methods covered_count : Z) : DimensionScore :=
  let raw_score :=
    if (total_changed_methods =? 0)%Z then 100
    else
      let rate := F64.truediv covered_count total_changed_methods in
      F64.min 100 (F64.mul rate 100) in
  let weighted := F64.mul raw_score W_coverage in
  {| dimension := DIM_COVERAGE;
     score := F64.round raw_score 1;
     weight := W_coverage;
     weighted_score := F64.round weighted 2 |}.

(** ** _count_steps *)

Definition FULL_STOP : char := 46%N.
Definition IDEOGRAPHIC_COMMA : char := 12289%N.
Definition RIGHT_PAREN : char := 41%N.
Definition SEMICOLON : char := 59%N.
Definition FULLWIDTH_SEMICOLON : char := 65307%N.
Definition NEWLINE : char := 10%N.
Definition BU : char := 27493%N.
Definition ZHOU : char := 39588%N.

Definition is_mark (c : char) : bool :=
  ((c =? FULL_STOP) || (c =? IDEOGRAPHIC_COMMA) || (c =? RIGHT_PAREN))%N.

(** [len(re.findall(r'\d+[\.\、\)]', s))]: the matches are found from
    left to right and do not overlap; each is a run of digits followed
    by one of the three marks, so the scan only remembers whether the
    previous code point was a digit. *)
Fixpoint count_numbered (after_digit : bool) (s : str) : Z :=
  match s with
  | [] => 0%Z
  | c :: s' =>
      if isdecimal c then count_numbered true s'
      else if after_digit && is_mark c then (1 + count_numbered false s')%Z
      else count_numbered false s'
  end.

(** [len(re.findall(r'步骤\d+', s))] *)
Fixpoint count_labelled (s : str) : Z :=
  match s with
  | [] => 0%Z
  | a :: s1 =>
      match s1 with
      | b :: c :: _ =>
          if (a =? BU)%N && (b =? ZHOU)%N && isdecimal c
          then (1 + count_labelled s1)%Z
          else count_labelled s1
      | _ => 0%Z
      end
  end.

Definition _count_steps (steps_text : str) : Z :=
  let count := Z.max (Z.max 0 (count_numbered false steps_text))
                     (count_labelled steps_text) in
  if (count =? 0)%Z then
    let parts :=
      map strip
        (List.filter (fun p => truthy (strip p))
           (split_on NEWLINE
              (replace FULLWIDTH_SEMICOLON NEWLINE
                 (replace SEMICOLON NEWLINE steps_text)))) in
    Z.of_nat (length parts)
  else count.

(** ** score_completeness *)

Definition action_words : list str := Eval vm_compute in
  map u ["输入"; "点击"; "选择"; "验证"; "检查"; "打开"; "提交"; "确认"; "修改"; "删除"]%string.

Definition completeness_case (tc : row) : F64.float :=
  let steps := get tc K_steps (get tc K_steps_cn []) in
  let case_score := 0 in
  if truthy steps then
    let case_score := F64.add case_score 30 in
    let step_count := _count_steps steps in
    let case_score :=
      if (3 <=? step_count)%Z then F64.add case_score 40
      else if (2 <=? step_count)%Z then F64.add case_score 25
      else if (1 <=? step_count)%Z then F64.add case_score 10
      else case_score in
    let has_action := existsb (fun w => contains steps w) action_words in
    if has_action then F64.add case_score 30 else case_score
  else case_score.

Definition score_completeness (test_cases : list row) : DimensionScore :=
  match test_cases with
  | [] =>
      {| dimension := DIM_COMPLETENESS; score := 0;
         weight := W_completeness; weighted_score := 0 |}
  | _ =>
      let total_score :=
        fold_left (fun total tc => F64.add total (completeness_case tc))
                  test_cases 0 in
      let avg_score :=
        F64.div total_score (F64.of_int (Z.of_nat (length test_cases))) in
      let weighted := F64.mul avg_score W_completeness in
      {| dimension := DIM_COMPLETENESS;
         score := F64.round avg_score 1;
         weight := W_completeness;
         weighted_score := F64.round weighted 2 |}
  end.

(** ** score_clarity *)

Definition verify_words : list str := Eval vm_compute in
  map u ["成功"; "失败"; "显示"; "包含"; "等于"; "不为空";
         "返回"; "跳转"; "提示"; "错误"; "正确"; "存在"]%string.

Definition clarity_case (tc : row) : F64.float :=
  let expected := get tc K_exp (get tc K_exp_cn []) in
  let case_score := 0 in
  if truthy expected then
    let case_score := F64.add case_score 40 in
    let matches :=
      fold_left (fun n w => if contains expected w then (n + 1)%Z else n)
                verify_words 0%Z in
    let case_score :=
      if (2 <=? matches)%Z then F64.add case_score 40
      else if (1 <=? matches)%Z then F64.add case_score 25
      else case_score in
    if (10 <=? length expected)%nat then F64.add case_score 20
    else if (5 <=? length expected)%nat then F64.add case_score 10
    else case_score
  else case_score.

Definition score_clarity (test_cases : list row) : DimensionScore :=
  match test_cases with
  | [] =>
      {| dimension := DIM_CLARITY; score := 0;
         weight := W_clarity; weighted_score := 0 |}
  | _ =>
      let total_score :=
        fold_left (fun total tc => F64.add total (clarity_case tc))
                  test_cases 0 in
      let avg_score :=
        F64.div total_score (F64.of_int (Z.of_nat (length test_cases))) in
      let weighted := F64.mul avg_score W_clarity in
      {| dimension := DIM_CLARITY;
         score := F64.round avg_score 1;
         weight := W_clarity;
         weighted_score := F64.round weighted 2 |}
  end.

(** ** score_boundary *)

Definition boundary_words : list str := Eval vm_compute in
  map u ["异常"; "边界"; "空"; "null"; "为空"; "不存在"; "超长";
         "超时"; "重复"; "并发"; "负数"; "最大"; "最小"; "特殊字符";
         "无效"; "非法"; "错误"; "失败"]%string.

Definition is_boundary_case (tc : row) : bool :=
  let func := get tc K_func (get tc K_func_cn []) in
  let steps := get tc K_steps (get tc K_steps_cn []) in
  let expected := get tc K_exp (get tc K_exp_cn []) in
  let combined := func ++ u " " ++ steps ++ u " " ++ expected in
  existsb (fun w => contains combined w) boundary_words.

Definition C_030 : F64.float := Eval vm_compute in F64.rnd (3 # 10).
Definition C_015 : F64.float := Eval vm_compute in F64.rnd (15 # 100).

Definition score_boundary (test_cases : list row) (total_changed_methods : Z)
  : DimensionScore :=
  match test_cases with
  | [] =>
      {| dimension := DIM_BOUNDARY; score := 0;
         weight := W_boundary; weighted_score := 0 |}
  | _ =>
      let n := Z.of_nat (length test_cases) in
      let boundary_count :=
        fold_left (fun k tc => if is_boundary_case tc then (k + 1)%Z else k)
                  test_cases 0%Z in
      let raw_score := 0 in
      let boundary_ratio := F64.truediv boundary_count n in
      let raw_score :=
        if F64.geb boundary_ratio C_030 then F64.add raw_score 50
        else if F64.geb boundary_ratio C_015 then F64.add raw_score 30
        else if (1 <=? boundary_count)%Z then F64.add raw_score 15
        else raw_score in
      let raw_score :=
        if (0 <? total_changed_methods)%Z then
          let ratio := F64.truediv n total_changed_methods in
          if F64.geb ratio 3 then F64.add raw_score 50
          else if F64.geb ratio 2 then F64.add raw_score 35
          else if F64.geb ratio 1 then F64.add raw_score 20
          else F64.add raw_score 10
        else F64.add raw_score 25 in
      let raw_score := F64.min 100 raw_score in
      let weighted := F64.mul raw_score W_boundary in
      {| dimension := DIM_BOUNDARY;
         score := F64.round raw_score 1;
         weight := W_boundary;
         weighted_score := F64.round weighted 2 |}
  end.

(** ** _get_grade, _get_summary *)

Definition GRADE_A : str := Eval vm_compute in u "A".
Definition GRADE_B : str := Eval vm_compute in u "B".
Definition GRADE_C : str := Eval vm_compute in u "C".
Definition GRADE_D : str := Eval vm_compute in u "D".
Definition GRADE_F : str := Eval vm_compute in u "F".

Definition _get_grade (score : F64.float) : str :=
  if F64.geb score 90 then GRADE_A
  else if F64.geb score 80 then GRADE_B
  else if F64.geb score 60 then GRADE_C
  else if F64.geb score 40 then GRADE_D
  else GRADE_F.

Definition summaries : gmap str str := Eval vm_compute in
  <[GRADE_A := u "测试用例质量优秀，覆盖全面且步骤清晰"]>
 (<[GRADE_B := u "测试用例质量良好，建议补充部分边界场景"]>
 (<[GRADE_C := u "测试用例基本合格，建议加强覆盖范围和步骤细节"]>
 (<[GRADE_D := u "测试用例不足，需要大幅补充改进"]>
 (<[GRADE_F := u "测试用例严重不足，建议全面重新编写"]> ∅)))).

Definition _get_summary (score : F64.float) (grade : str) : str :=
  get summaries grade [].

(** ** calculate_score *)

(** [sum(d.weighted_score for d in dimensions)]: the additions are
    carried out from left to right, starting from the integer 0. *)
Definition sum_weighted (dimensions : list DimensionScore) : F64.float :=
  fold_left (fun total d => F64.add total (weighted_score d)) dimensions 0.

Definition calculate_score (total_changed_methods covered_count : Z)
                           (test_cases : list row) : ScoreResult :=
  let dim_coverage := score_coverage total_changed_methods covered_count in
  let dim_completeness := score_completeness test_cases in
  let dim_clarity := score_clarity test_cases in
  let dim_boundary := score_boundary test_cases total_changed_methods in
  let dimensions := [dim_coverage; dim_completeness; dim_clarity; dim_boundary] in
  let total := sum_weighted dimensions in
  let total := F64.round (F64.min 100 (F64.max 0 total)) 1 in
  let grade := _get_grade total in
  let summary := _get_summary total grade in
  {| total_score := total;
     dimensions := dimensions;
     grade := grade;
     summary := summary |}.

End ScoringModel.

(* ===================================================================== *)
(** * difflib (the standard library of CPython 3.11)

    [diff_analyzer.compute_diff] is a thin layer over
    [difflib.unified_diff]; what it returns is decided by
    [difflib.SequenceMatcher].  The definitions below transcribe
    [Lib/difflib.py] for the way the service calls it: [isjunk=None],
    [autojunk=True], [n=3] lines of context. *)
(* ===================================================================== *)

Module Difflib.

(** A matching block [(i, j, size)] and a queue entry
    [(alo, ahi, blo, bhi)]. *)
Definition Match : Type := (nat * nat * nat)%type.
Definition Range : Type := (nat * nat * nat * nat)%type.

Inductive Tag : Type := Replace | Delete | Insert | Equal.

Definition Opcode : Type := (Tag * nat * nat * nat * nat)%type.

Definition is_equal (t : Tag) : bool :=
  match t with Equal => true | _ => false end.

Section SequenceMatcher.

(** The two sequences of lines. *)
Variables a b : list str.

(** *** __chain_b *)

(** For each line of [b], the positions at which it occurs, in
    increasing order. *)
Definition index_b : gmap str (list nat) :=
  fold_left
    (fun b2j '(i, elt) => <[elt := default [] (b2j !! elt) ++ [i]]> b2j)
    (combine (seq 0 (length b)) b) ∅.

(** With [autojunk], a line of a sequence of at least 200 lines that
    occurs more than [n // 100 + 1] times is "popular" and is deleted
    from the index.  ([isjunk] is [None]: the junk set stays empty.) *)
Definition b2j : gmap str (list nat) :=
  let n := length b in
  if (200 <=? n)%nat then
    let ntest := (n / 100 + 1)%nat in
    filter (fun kv => ¬ (ntest < length kv.2)%nat) index_b
  else index_b.

(** *** find_longest_match *)

(** The inner loop [for j in b2j.get(a[i], nothing)], with its
    [continue] and [break]. *)
Fixpoint scan_row (i blo bhi : nat) (j2len : gmap nat nat) (js : list nat)
                  (newj2len : gmap nat nat) (best : Match)
  : gmap nat nat * Match :=
  match js with
  | [] => (newj2len, best)
  | j :: js' =>
      if (j <? blo)%nat then scan_row i blo bhi j2len js' newj2len best
      else if (bhi <=? j)%nat then (newj2len, best)
      else
        let k := (match j with
                  | O => 0
                  | S j' => default 0 (j2len !! j')
                  end + 1)%nat in
        let newj2len := <[j := k]> newj2len in
        let best := if (best.2 <? k)%nat
                    then (S i - k, S j - k, k)%nat else best in
        scan_row i blo bhi j2len js' newj2len best
  end.

(** One turn of the outer loop [for i in range(alo, ahi)]. *)
Definition row_step (blo bhi : nat) (st : gmap nat nat * Match) (i : nat)
  : gmap nat nat * Match :=
  match a !! i with
  | Some x => scan_row i blo bhi st.1 (default [] (b2j !! x)) ∅ st.2
  | None => st
  end.

(** The first [while]: extend the match to the left. *)
Fixpoint extend_left (alo blo besti bestj bestsize : nat) : Match :=
  match besti, bestj with
  | S i', S j' =>
      if (alo <? besti)%nat && (blo <? bestj)%nat
         && bool_decide (a !! i' = b !! j')
      then extend_left alo blo i' j' (S bestsize)
      else (besti, bestj, bestsize)
  | _, _ => (besti, bestj, bestsize)
  end.

(** The second [while]: extend the match to the right; it runs at
    most [ahi - (besti + bestsize)] times. *)
Fixpoint extend_right (turns ahi bhi besti bestj bestsize : nat) : nat :=
  match turns with
  | O => bestsize
  | S turns' =>
      if (besti + bestsize <? ahi)%nat && (bestj + bestsize <? bhi)%nat
         && bool_decide (a !! (besti + bestsize)%nat = b !! (bestj + bestsize)%nat)
      then extend_right turns' ahi bhi besti bestj (S bestsize)
      else bestsize
  end.

(** The last two [while] loops extend over junk lines only; the junk
    set being empty, they do not run. *)
Definition find_longest_match (alo ahi blo bhi : nat) : Match :=
  let st := fold_left (row_step blo bhi) (seq alo (ahi - alo)) (∅, (alo, blo, 0%nat)) in
  let '(besti, bestj, bestsize) := st.2 in
  let '(besti, bestj, bestsize) := extend_left alo blo besti bestj bestsize in
  let bestsize :=
    extend_right (ahi - (besti + bestsize)) ahi bhi besti bestj bestsize in
  (besti, bestj, bestsize).

(** *** get_matching_blocks *)

(** The [while queue] loop; the queue is a stack, its top first.
    [None] when the given number of turns does not empty it. *)
Fixpoint blocks_loop (turns : nat) (queue : list Range) (blocks : list Match)
  : option (list Match) :=
  match queue with
  | [] => Some blocks
  | (alo, ahi, blo, bhi) :: queue' =>
      match turns with
      | O => None
      | S turns' =>
          let '(i, j, k) := find_longest_match alo ahi blo bhi in
          if (k =? 0)%nat then blocks_loop turns' queue' blocks
          else
            let blocks := blocks ++ [(i, j, k)] in
            let queue1 :=
              if (alo <? i)%nat && (blo <? j)%nat
              then (alo, i, blo, j) :: queue' else queue' in
            let queue2 :=
              if (i + k <? ahi)%nat && (j + k <? bhi)%nat
              then (i + k, ahi, j + k, bhi)%nat :: queue1 else queue1 in
            blocks_loop turns' queue2 blocks
      end
  end.

(** [matching_blocks.sort()]: tuples are ordered lexicographically. *)
Definition match_leb (x y : Match) : bool :=
  let '(i1, j1, k1) := x in
  let '(i2, j2, k2) := y in
  (i1 <? i2)%nat
  || (i1 =? i2)%nat && ((j1 <? j2)%nat || (j1 =? j2)%nat && (k1 <=? k2)%nat).

Fixpoint insert_block (x : Match) (l : list Match) : list Match :=
  match l with
  | [] => [x]
  | y :: l' => if match_leb x y then x :: l else y :: insert_block x l'
  end.

Definition sort_blocks (l : list Match) : list Match :=
  fold_right insert_block [] l.

(** The loop that merges adjacent blocks: [(i1, j1, k1, non_adjacent)]. *)
Definition merge_step (st : Match * list Match) (m : Match)
  : Match * list Match :=
  let '((i1, j1, k1), non_adjacent) := st in
  let '(i2, j2, k2) := m in
  if (i1 + k1 =? i2)%nat && (j1 + k1 =? j2)%nat
  then ((i1, j1, (k1 + k2)%nat), non_adjacent)
  else
    ((i2, j2, k2),
     if (k1 =? 0)%nat then non_adjacent else non_adjacent ++ [(i1, j1, k1)]).

(** Each turn of the [while queue] loop that finds a block removes at
    least one line of [a] from the ranges still to visit, so
    [2 * len(a) + 1] turns are enough. *)
Definition get_matching_blocks : option (list Match) :=
  let la := length a in
  let lb := length b in
  match blocks_loop (2 * la + 1) [(0, la, 0, lb)%nat] [] with
  | None => None
  | Some matching_blocks =>
      let '((i1, j1, k1), non_adjacent) :=
        fold_left merge_step (sort_blocks matching_blocks)
                  ((0, 0, 0)%nat, []) in
      let non_adjacent :=
        if (k1 =? 0)%nat then non_adjacent else non_adjacent ++ [(i1, j1, k1)] in
      Some (non_adjacent ++ [(la, lb, 0%nat)])
  end.

(** *** get_opcodes *)

Definition opcode_step (st : nat * nat * list Opcode) (m : Match)
  : nat * nat * list Opcode :=
  let '(i, j, answer) := st in
  let '(ai, bj, size) := m in
  let answer :=
    if (i <? ai)%nat && (j <? bj)%nat then answer ++ [(Replace, i, ai, j, bj)]
    else if (i <? ai)%nat then answer ++ [(Delete, i, ai, j, bj)]
    else if (j <? bj)%nat then answer ++ [(Insert, i, ai, j, bj)]
    else answer in
  let i := (ai + size)%nat in
  let j := (bj + size)%nat in
  let answer :=
    if (size =? 0)%nat then answer else answer ++ [(Equal, ai, i, bj, j)] in
  (i, j, answer).

Definition get_opcodes : option (list Opcode) :=
  match get_matching_blocks with
  | None => None
  | Some blocks => Some (fold_left opcode_step blocks (0%nat, 0%nat, [])).2
  end.

(** *** get_grouped_opcodes *)

(** [codes[0] = ...] when the first opcode is ['equal']. *)
Definition trim_first (n : nat) (codes : list Opcode) : list Opcode :=
  match codes with
  | (Equal, i1, i2, j1, j2) :: rest =>
      (Equal, Nat.max i1 (i2 - n), i2, Nat.max j1 (j2 - n), j2) :: rest
  | _ => codes
  end.

(** [codes[-1] = ...] when the last opcode is ['equal']. *)
Fixpoint trim_last (n : nat) (codes : list Opcode) : list Opcode :=
  match codes with
  | [] => []
  | [(Equal, i1, i2, j1, j2)] =>
      [(Equal, i1, Nat.min i2 (i1 + n), j1, Nat.min j2 (j1 + n))]
  | [c] => [c]
  | c :: rest => c :: trim_last n rest
  end.

(** The grouping loop: [(group, groups yielded so far)]. *)
Definition group_step (n : nat) (st : list Opcode * list (list Opcode))
                      (code : Opcode) : list Opcode * list (list Opcode) :=
  let '(group, yielded) := st in
  let '(tag, i1, i2, j1, j2) := code in
  if is_equal tag && (n + n <? i2 - i1)%nat then
    let group := group ++ [(tag, i1, Nat.min i2 (i1 + n), j1, Nat.min j2 (j1 + n))] in
    ([(tag, Nat.max i1 (i2 - n), i2, Nat.max j1 (j2 - n), j2)],
     yielded ++ [group])
  else (group ++ [code], yielded).

Definition get_grouped_opcodes (n : nat) : option (list (list Opcode)) :=
  match get_opcodes with
  | None => None
  | Some codes =>
      let codes := match codes with
                   | [] => [(Equal, 0, 1, 0, 1)%nat]
                   | _ => codes
                   end in
      let codes := trim_last n (trim_first n codes) in
      let '(group, yielded) := fold_left (group_step n) codes ([], []) in
      Some
        match group with
        | [] => yielded
        | [(Equal, _, _, _, _)] => yielded
        | _ => yielded ++ [group]
        end
  end.

(** *** unified_diff *)

(** [l[i1:i2]] *)
Definition slice {A : Type} (l : list A) (i1 i2 : nat) : list A :=
  firstn (i2 - i1) (skipn i1 l).

Definition _format_range_unified (start stop : nat) : str :=
  let beginning := (start + 1)%nat in
  let length := (stop - start)%nat in
  if (length =? 1)%nat then str_of_int (Z.of_nat beginning)
  else
    let beginning := if (length =? 0)%nat then (beginning - 1)%nat else beginning in
    str_of_int (Z.of_nat beginning) ++ u "," ++ str_of_int (Z.of_nat length).

Definition opcode_lines (code : Opcode) : list str :=
  let '(tag, i1, i2, j1, j2) := code in
  match tag with
  | Equal => map (fun line => u " " ++ line) (slice a i1 i2)
  | Replace =>
      map (fun line => u "-" ++ line) (slice a i1 i2)
        ++ map (fun line => u "+" ++ line) (slice b j1 j2)
  | Delete => map (fun line => u "-" ++ line) (slice a i1 i2)
  | Insert => map (fun line => u "+" ++ line) (slice b j1 j2)
  end.

Definition group_lines (group : list Opcode) : list str :=
  match group, List.last group (Equal, 0, 0, 0, 0)%nat with
  | (_, f1, _, f3, _) :: _, (_, _, l2, _, l4) =>
      (u "@@ -" ++ _format_range_unified f1 l2 ++ u " +"
         ++ _format_range_unified f3 l4 ++ u " @@")
        :: concat (map opcode_lines group)
  | [], _ => []
  end.

(** [unified_diff(a, b, fromfile=..., tofile=..., lineterm="")] *)
Definition unified_diff (fromfile tofile : str) : option (list str) :=
  match get_grouped_opcodes 3 with
  | None => None
  | Some [] => Some []
  | Some groups =>
      Some ((u "--- " ++ fromfile) :: (u "+++ " ++ tofile)
              :: concat (map group_lines groups))
  end.

End SequenceMatcher.

End Difflib.

(* ===================================================================== *)
(** * services/diff_analyzer.py *)
(* ===================================================================== *)

Module DiffAnalyzer.

Record DiffResult : Type := mkDiffResult {
  package_path : str;
  added_lines : list str;
  removed_lines : list str;
  changed_lines : list str
}.

Record AnalysisResult : Type := mkAnalysisResult {
  diffs : list DiffResult;
  total_added : Z;
  total_removed : Z;
  error : option str
}.

(** ** extract_package_path *)

Definition NEWLINE : char := 10%N.
Definition SEMICOLON : char := 59%N.
Definition PACKAGE_ : str := Eval vm_compute in u "package ".
Definition UNKNOWN : str := Eval vm_compute in u "unknown".

(** [s.rstrip(";")] *)
Fixpoint lstrip_char (c : char) (s : str) : str :=
  match s with
  | [] => []
  | x :: s' => if (x =? c)%N then lstrip_char c s' else s
  end.

Definition rstrip_char (c : char) (s : str) : str := rev (lstrip_char c (rev s)).

(** The loop over the lines, leaving at the first declaration found. *)
Fixpoint first_package (lines : list str) : str :=
  match lines with
  | [] => UNKNOWN
  | line :: lines' =>
      let stripped := strip line in
      if startswith stripped PACKAGE_ then
        let path := strip (rstrip_char SEMICOLON (skipn (length PACKAGE_) stripped)) in
        if truthy path then path else first_package lines'
      else first_package lines'
  end.

Definition extract_package_path (code : str) : str :=
  first_package (split_on NEWLINE code).

(** ** compute_diff *)

(** The line boundaries of [str.splitlines]. *)
Definition is_linebreak (c : char) : bool :=
  ((10 <=? c) && (c <=? 13) || (28 <=? c) && (c <=? 30)
   || (c =? 133) || (c =? 8232) || (c =? 8233))%N.

(** [s.splitlines(keepends=True)]; [cur] is the line being read, in
    reverse. *)
Fixpoint splitlines_run (cur : str) (s : str) : list str :=
  match s with
  | [] => match cur with [] => [] | _ => [rev cur] end
  | c :: s' =>
      if (c =? 13)%N then
        match s' with
        | d :: s'' =>
            if (d =? 10)%N then rev (d :: c :: cur) :: splitlines_run [] s''
            else rev (c :: cur) :: splitlines_run [] s'
        | [] => rev (c :: cur) :: splitlines_run [] s'
        end
      else if is_linebreak c then rev (c :: cur) :: splitlines_run [] s'
      else splitlines_run (c :: cur) s'
  end.

Definition splitlines (s : str) : list str := splitlines_run [] s.

Definition PLUS3 : str := Eval vm_compute in u "+++".
Definition MINUS3 : str := Eval vm_compute in u "---".
Definition AT2 : str := Eval vm_compute in u "@@".
Definition PLUS : str := Eval vm_compute in u "+".
Definition MINUS : str := Eval vm_compute in u "-".
Definition HISTORY : str := Eval vm_compute in u "history".
Definition CURRENT : str := Eval vm_compute in u "current".

(** The loop over the lines of the diff: [(added, removed, changed)]. *)
Definition classify (st : list str * list str * list str) (line : str)
  : list str * list str * list str :=
  let '(added, removed, changed) := st in
  if startswith line PLUS3 || startswith line MINUS3 || startswith line AT2
  then (added, removed, changed ++ [line])
  else if startswith line PLUS
  then (added ++ [skipn 1 line], removed, changed ++ [line])
  else if startswith line MINUS
  then (added, removed ++ [skipn 1 line], changed ++ [line])
  else st.

(** [None] only if [difflib] were not to come to an end within the
    number of turns it is given, which does not happen (see
    [DifflibTotal.compute_diff_ends]). *)
Definition compute_diff (current_code history_code : str) : option DiffResult :=
  let package_path := extract_package_path current_code in
  let current_lines := splitlines current_code in
  let history_lines := splitlines history_code in
  match Difflib.unified_diff history_lines current_lines HISTORY CURRENT with
  | None => None
  | Some diff =>
      let '(added, removed, changed) := fold_left classify diff ([], [], []) in
      Some {| package_path := package_path;
              added_lines := added;
              removed_lines := removed;
              changed_lines := changed |}
  end.

(** [parse_code_changes] and [analyze_code_changes] work on the values
    of a JSON document; they are embedded in the module [CodeChanges]
    below. *)

(** ** format_diff_summary *)

Definition ERROR_ : str := Eval vm_compute in u "分析错误: ".
Definition S_DETECTED : str := Eval vm_compute in u "共检测到 ".
Definition S_FILES : str := Eval vm_compute in u " 个代码文件变更".
Definition S_TOTAL_ADDED : str := Eval vm_compute in u "总新增 ".
Definition S_TOTAL_REMOVED : str := Eval vm_compute in u " 行，总删除 ".
Definition S_LINES : str := Eval vm_compute in u " 行".
Definition S_FILE : str := Eval vm_compute in u "### 文件 ".
Definition S_COLON : str := Eval vm_compute in u ": ".
Definition S_ADDED : str := Eval vm_compute in u "  新增 ".
Definition S_REMOVED : str := Eval vm_compute in u " 行, 删除 ".
Definition S_ADDED_CONTENT : str := Eval vm_compute in u "  新增内容:".
Definition S_REMOVED_CONTENT : str := Eval vm_compute in u "  删除内容:".
Definition S_PLUS : str := Eval vm_compute in u "    + ".
Definition S_MINUS : str := Eval vm_compute in u "    - ".
Definition S_MORE : str := Eval vm_compute in u "    ... 还有 ".

(** [f"    ... 还有 {k} 行"] *)
Definition more_line (k : Z) : str := S_MORE ++ str_of_int k ++ S_LINES.

(** One side of a file: the title, the loop over [side[:10]] and the
    line that counts what was cut. *)
Definition side (title mark : str) (side_lines : list str) (lines : list str)
  : list str :=
  match side_lines with
  | [] => lines
  | _ =>
      let lines := lines ++ [title] in
      let lines :=
        fold_left (fun lines line => lines ++ [mark ++ rstrip line])
                  (firstn 10 side_lines) lines in
      if (10 <? length side_lines)%nat
      then lines ++ [more_line (Z.of_nat (length side_lines) - 10)]
      else lines
  end.

(** The body of [for i, diff in enumerate(result.diffs, 1)]. *)
Definition file_step (st : Z * list str) (diff : DiffResult) : Z * list str :=
  let '(i, lines) := st in
  let lines := lines ++ [S_FILE ++ str_of_int i ++ S_COLON ++ package_path diff] in
  let lines :=
    lines ++ [S_ADDED ++ str_of_int (Z.of_nat (length (added_lines diff)))
                ++ S_REMOVED
                ++ str_of_int (Z.of_nat (length (removed_lines diff))) ++ S_LINES] in
  let lines := side S_ADDED_CONTENT S_PLUS (added_lines diff) lines in
  let lines := side S_REMOVED_CONTENT S_MINUS (removed_lines diff) lines in
  (i + 1, lines ++ [[]]).

(** The list [lines] at the end of the function. *)
Definition summary_lines (result : AnalysisResult) : list str :=
  let lines :=
    [ S_DETECTED ++ str_of_int (Z.of_nat (length (diffs result))) ++ S_FILES;
      S_TOTAL_ADDED ++ str_of_int (total_added result) ++ S_TOTAL_REMOVED
        ++ str_of_int (total_removed result) ++ S_LINES;
      [] ] in
  (fold_left file_step (diffs result) (1, lines)).2.

(** [if result.error:] holds for an error message that is not empty. *)
Definition has_error (result : AnalysisResult) : bool :=
  match error result with
  | Some e => truthy e
  | None => false
  end.

Definition format_diff_summary (result : AnalysisResult) : str :=
  if has_error result then ERROR_ ++ default [] (error result)
  else join [NEWLINE] (summary_lines result).

End DiffAnalyzer.

(* ===================================================================== *)
(** * The JSON document of the code changes
      (services/diff_analyzer.py, [parse_code_changes] and
      [analyze_code_changes], and the reader of api/index.py,
      [parse_code_changes_data]) *)
(* ===================================================================== *)

Module CodeChanges.

Local Set Warnings "-register-all".

(** A value as [json.loads] returns it: [None], a [bool], an [int], a
    [float], a [str], a [list] or a [dict] with string keys. *)
Inductive value : Type :=
| JNull
| JBool (b : bool)
| JInt (n : Z)
| JFloat (x : F64.float)
| JStr (s : str)
| JList (l : list value)
| JDict (d : gmap str value).

(** The exceptions that the functions below can raise. *)
Inductive exn : Type :=
| ValueError (msg : str)
| TypeError
| KeyError
| AttributeError.

Definition JSON_FAILED : str := Eval vm_compute in u "JSON解析失败: ".
Definition ROOT_NOT_OBJECT : str := Eval vm_compute in u "JSON根元素必须是对象".
Definition FIELDS_MISSING : str :=
  Eval vm_compute in u "JSON必须包含 'current' 和 'history' 字段".
Definition NOT_ARRAYS : str := Eval vm_compute in u "'current' 和 'history' 必须是数组".
Definition K_data : str := Eval vm_compute in u "data".
Definition K_current : str := Eval vm_compute in u "current".
Definition K_history : str := Eval vm_compute in u "history".

(** [v == key] for a string [key]: only an equal string is. *)
Definition equals_str (key : str) (v : value) : bool :=
  match v with
  | JStr s => bool_decide (s = key)
  | _ => false
  end.

(** [key in container] for a string [key]: a key of a dict, an element
    of a list, a substring of a string; [None] stands for the
    [TypeError] that the other values raise ("argument of type ... is
    not iterable"). *)
Definition contains_key (container : value) (key : str) : option bool :=
  match container with
  | JDict d => Some (bool_decide (is_Some (d !! key)))
  | JList l => Some (existsb (equals_str key) l)
  | JStr s => Some (contains s key)
  | JNull | JBool _ | JInt _ | JFloat _ => None
  end.

(** [container[key]] for a string [key]: the value of a dict; a
    [KeyError] for a missing key; a [TypeError] for every other
    container (a list and a string want integer indices, the other
    values are not subscriptable). *)
Definition subscript (container : value) (key : str) : value + exn :=
  match container with
  | JDict d =>
      match d !! key with
      | Some v => inl v
      | None => inr KeyError
      end
  | _ => inr TypeError
  end.

Section WithLoads.

(** [json.loads]: the value, or the text of the [JSONDecodeError]. *)
Variable json_loads : str -> value + str.

(** The pair stands for the dict [{"current": ..., "history": ...}]
    that the function returns. *)
Definition parse_code_changes (json_content : str)
  : (list value * list value) + exn :=
  match json_loads json_content with
  | inr e => inr (ValueError (JSON_FAILED ++ e))
  | inl data =>
      match data with
      | JDict d =>
          let inner :=
            match d !! K_data with
            | Some v => v
            | None => data
            end in
          match contains_key inner K_current with
          | None => inr TypeError
          | Some false => inr (ValueError FIELDS_MISSING)
          | Some true =>
              match contains_key inner K_history with
              | None => inr TypeError
              | Some false => inr (ValueError FIELDS_MISSING)
              | Some true =>
                  match subscript inner K_current with
                  | inr e => inr e
                  | inl current =>
                      match subscript inner K_history with
                      | inr e => inr e
                      | inl history =>
                          match current, history with
                          | JList c, JList h => inl (c, h)
                          | _, _ => inr (ValueError NOT_ARRAYS)
                          end
                      end
                  end
              end
          end
      | _ => inr (ValueError ROOT_NOT_OBJECT)
      end
  end.

(** [compute_diff] on two elements of the arrays.  It calls
    [split] and [splitlines] on its arguments, which only a string has:
    any other value raises an [AttributeError].  [None] stands for a
    diff that [difflib] does not finish, as in [DiffAnalyzer]. *)
Definition compute_diff (current_code history_code : value)
  : option (DiffAnalyzer.DiffResult + exn) :=
  match current_code, history_code with
  | JStr current_text, JStr history_text =>
      match DiffAnalyzer.compute_diff current_text history_text with
      | Some diff_result => Some (inl diff_result)
      | None => None
      end
  | _, _ => Some (inr AttributeError)
  end.

(** The loop [for i in range(max_len)]: the diffs and the two totals so
    far, or the exception that ended the loop. *)
Definition pair_step (current_list history_list : list value)
                     (st : option ((list DiffAnalyzer.DiffResult * Z * Z) + exn))
                     (i : nat)
  : option ((list DiffAnalyzer.DiffResult * Z * Z) + exn) :=
  match st with
  | Some (inl (diffs, total_added, total_removed)) =>
      let current_code := default (JStr []) (current_list !! i) in
      let history_code := default (JStr []) (history_list !! i) in
      match compute_diff current_code history_code with
      | None => None
      | Some (inr e) => Some (inr e)
      | Some (inl diff_result) =>
          Some (inl (diffs ++ [diff_result],
                     total_added
                       + Z.of_nat (length (DiffAnalyzer.added_lines diff_result)),
                     total_removed
                       + Z.of_nat (length (DiffAnalyzer.removed_lines diff_result))))
      end
  | _ => st
  end.

(** [analyze_code_changes]: [Some (inl r)] when it returns [r],
    [Some (inr e)] when it lets the exception [e] through; only a
    [ValueError] of [parse_code_changes] is caught. *)
Definition analyze_code_changes (json_content : str)
  : option (DiffAnalyzer.AnalysisResult + exn) :=
  match parse_code_changes json_content with
  | inr (ValueError msg) =>
      Some (inl (DiffAnalyzer.mkAnalysisResult [] 0 0 (Some msg)))
  | inr e => Some (inr e)
  | inl (current_list, history_list) =>
      let max_len := Nat.max (length current_list) (length history_list) in
      match fold_left (pair_step current_list history_list)
                      (seq 0 max_len) (Some (inl ([], 0, 0))) with
      | None => None
      | Some (inr e) => Some (inr e)
      | Some (inl (diffs, total_added, total_removed)) =>
          Some (inl (DiffAnalyzer.mkAnalysisResult diffs total_added total_removed
                                                   None))
      end
  end.

End WithLoads.

(** [parse_code_changes_data] of api/index.py, on the dict that
    [parse_json] returned. *)
Definition parse_code_changes_data (data : gmap str value) : value :=
  match data !! K_data with
  | Some v => v
  | None =>
      if bool_decide (is_Some (data !! K_current))
         && bool_decide (is_Some (data !! K_history))
      then JDict data
      else JDict (<[K_current := JList []]> (<[K_history := JList []]> ∅))
  end.

End CodeChanges.

(* ===================================================================== *)
(** * api/index.py: from the changed files to the score

    The steps of the endpoint [analyze] (and of
    [api_analyze_with_project], which repeats them) that lie between the
    parsing of the uploads and the optional call of the language model:
    the loop that collects the changed methods of every file, the
    coverage analysis and the scoring. *)
(* ===================================================================== *)

Module Index.

Section WithRuntime.

(** [str.lower] and the module [javalang], as in [AstParser]. *)
Variable lower : str -> str.
Variable javalang : option (str -> AstParser.ParseOutcome).

(** The dict appended to [changed_methods] for one changed method. *)
Definition method_dict (m : AstParser.MethodInfo) : row :=
  <[K_pkg := AstParser.package_name m]>
    (<[K_cls := AstParser.class_name m]>
       (<[K_mtd := AstParser.method_name m]> ∅)).

(** The loop [for i in range(len(code_json.get("current", [])))]: the
    index never leaves the current array; a history array that is
    shorter is continued with empty texts. *)
Definition collect_changed_methods (current history : list str) : list row :=
  fold_left
    (fun changed_methods i =>
       let current_code := default [] (current !! i) in
       let history_code := default [] (history !! i) in
       let methods :=
         AstParser.extract_changed_methods javalang current_code history_code in
       fold_left (fun changed_methods m => changed_methods ++ [method_dict m])
                 methods changed_methods)
    (seq 0 (length current)) [].

(** The coverage analysis and the scoring; the score is computed from
    the rows of the test-case table, the coverage from the test cases
    parsed out of them. *)
Definition coverage_and_score (current history : list str)
                              (mapping_entries : list CoverageAnalyzer.MappingEntry)
                              (test_rows : list row)
  : CoverageAnalyzer.CoverageResult * ScoringModel.ScoreResult :=
  let test_case_list := CoverageAnalyzer.parse_test_cases test_rows in
  let changed_methods := collect_changed_methods current history in
  let coverage_result :=
    CoverageAnalyzer.analyze_coverage lower changed_methods mapping_entries
                                      test_case_list in
  let score_result :=
    ScoringModel.calculate_score
      (CoverageAnalyzer.total_changed_methods coverage_result)
      (Z.of_nat (length (CoverageAnalyzer.covered_methods coverage_result)))
      test_rows in
  (coverage_result, score_result).

End WithRuntime.

End Index.

(* ===================================================================== *)
(** * Definitions used to state the properties *)
(* ===================================================================== *)

Module CoverageSpec.
Import CoverageAnalyzer.

(** The entry that [parse_mapping_data] builds from a row, and the test
    that decides whether the row is kept. *)
Definition mapping_entry_of (r : row) : MappingEntry :=
  mkMappingEntry (field r K_pkg_cn K_pkg) (field r K_cls_cn K_cls)
                 (field r K_mtd_cn K_mtd) (field r K_desc_cn K_desc).

Definition mapping_row_complete (r : row) : bool :=
  truthy (field r K_pkg_cn K_pkg) && truthy (field r K_cls_cn K_cls)
  && truthy (field r K_mtd_cn K_mtd).

(** The same for [parse_test_cases]. *)
Definition test_case_of (r : row) : TestCase :=
  mkTestCase (field r K_id_cn K_id) (field r K_func_cn K_func)
             (field r K_steps_cn K_steps) (field r K_exp_cn K_exp).

Definition test_row_complete (r : row) : bool :=
  truthy (field r K_id_cn K_id) && truthy (field r K_func_cn K_func).

(** *** The fuzzy match, as the specification words it *)

(** [needle] occurs in [hay]. *)
Definition is_substring (needle hay : str) : Prop :=
  exists pre post, hay = pre ++ needle ++ post.

(** The separators of the tokenizer: [,], [，], [/] and white space. *)
Definition is_separator (c : char) : bool :=
  ((c =? 44) || (c =? 65292) || (c =? 47))%N || isspace c.

(** The keywords of a description: its maximal runs without separator. *)
Definition tokenize (desc : str) : list str := split_run is_separator [] desc.

(** How many of the keywords occur in [text]. *)
Definition keyword_hits (keywords : list str) (text : str) : Z :=
  Z.of_nat (length (List.filter (fun kw => contains text kw) keywords)).

Section WithLower.
Variable lower : str -> str.

(** (a) the lower-cased description occurs in the lower-cased function
    text, or (b) the other way round, or (c) at least
    [max(1, floor(k/2))] of the [k] keywords of the lower-cased
    description occur in the lower-cased function text. *)
Definition fuzzy (description function_text : str) : Prop :=
  let d := lower description in
  let f := lower function_text in
  is_substring d f
  \/ is_substring f d
  \/ Z.max 1 (Z.of_nat (length (tokenize d)) / 2) <= keyword_hits (tokenize d) f.

(** The verdict of one turn of the outer loop of [analyze_coverage]:
    it depends on the method through its qualified name only. *)
Definition verdict (idx : gmap str str) (tcs : list TestCase) (name : str)
  : bool * list str :=
  let description := get idx name [] in
  if truthy description then scan_tests lower (lower description) tcs
  else (false, []).

Definition is_covered (idx : gmap str str) (tcs : list TestCase) (name : str) : bool :=
  (verdict idx tcs name).1.

Definition detail_of (idx : gmap str str) (tcs : list TestCase) (name : str)
  : CoverageDetail :=
  let description := get idx name [] in
  {| detail_method := name;
     detail_description := if truthy description then description else NO_DESCRIPTION;
     detail_is_covered := (verdict idx tcs name).1;
     detail_matched_tests := (verdict idx tcs name).2 |}.

End WithLower.
End CoverageSpec.

(** ** Sample data: the scenarios of the test suite *)

Module Examples.
Import CoverageAnalyzer.

Definition changed_method (pkg cls mtd : string) : row :=
  <[K_pkg := u pkg]> (<[K_cls := u cls]> (<[K_mtd := u mtd]> ∅)).

Definition create_user : row := changed_method "com.example.user" "UserService" "createUser".
Definition delete_user : row := changed_method "com.example.user" "UserService" "deleteUser".

Definition mapping : list MappingEntry :=
  [ mkMappingEntry (u "com.example.user") (u "UserService") (u "createUser") (u "创建用户");
    mkMappingEntry (u "com.example.user") (u "UserService") (u "updateUser") (u "更新用户信息") ].


Definition tests : list TestCase :=
  [ mkTestCase (u "TC001") (u "创建用户") (u "1. 输入用户名和邮箱 2. 点击创建按钮 3. 检查返回结果")
               (u "用户创建成功，返回用户ID");
    mkTestCase (u "TC002") (u "更新用户信息") (u "1. 输入用户ID 2. 修改用户名 3. 点击更新按钮")
               (u "用户信息更新成功") ].

Definition mapping_row (pkg cls mtd desc : string) : row :=
  <[K_pkg_cn := u pkg]> (<[K_cls_cn := u cls]> (<[K_mtd_cn := u mtd]>
    (<[K_desc_cn := u desc]> ∅))).

Definition test_row (id func steps expected : string) : row :=
  <[K_id_cn := u id]> (<[K_func_cn := u func]> (<[K_steps_cn := u steps]>
    (<[K_exp_cn := u expected]> ∅))).

(** A complete test-case row. *)
Definition row_complete : row :=
  test_row "TC001" "创建用户" "1. 输入用户名和邮箱 2. 点击创建按钮" "用户创建成功".

(** A test-case row with an id and no function. *)
Definition row_id_only : row := test_row "TC009" "" "1. 打开页面" "显示成功".

(** A method whose description is a list of capitalised keywords, and a
    test case whose function names two of them in lower case. *)
Definition login_method : row := changed_method "com.example.auth" "AuthService" "login".

Definition login_mapping : list MappingEntry :=
  [ mkMappingEntry (u "com.example.auth") (u "AuthService") (u "login")
                   (u "Login,Logout,Reset,Delete") ].

Definition login_tests : list TestCase :=
  [ mkTestCase (u "TC010") (u "user login and logout page")
               (u "1. open the page 2. log in 3. log out") (u "the user is logged out") ].

(** A complete mapping row whose description is blank. *)
Definition row_blank_description : row :=
  mapping_row "com.example.user" "UserService" "deleteUser" "  ".

End Examples.

(** ** The statements that the code does not satisfy as they are worded *)

Module AsStated.
Import CoverageAnalyzer CoverageSpec.

(** The fuzzy match whose clause (c) takes the keywords of the
    description as it is written, and looks for them in the lower-cased
    function text. *)
Definition fuzzy_on_written_keywords (lower : str -> str)
                                     (description function_text : str) : Prop :=
  let d := lower description in
  let f := lower function_text in
  is_substring d f
  \/ is_substring f d
  \/ (Z.max 1 (Z.of_nat (length (tokenize description)) / 2)
      <= keyword_hits (tokenize description) f)%Z.

(** A changed method with a mapped description is marked covered iff
    that match holds for the function text of some test case. *)
Definition covered_iff_fuzzy_on_written_keywords
    (lower : str -> str) (changed : list row) (mapping : list MappingEntry)
    (tests : list TestCase) (i : nat) (m : row) : Prop :=
  changed !! i = Some m ->
  get (build_index mapping) (method_full_name m) [] <> [] ->
  let description := get (build_index mapping) (method_full_name m) [] in
  let r := analyze_coverage lower changed mapping tests in
  let some_test_matches :=
    exists tc, In tc tests
               /\ fuzzy_on_written_keywords lower description (test_function tc) in
  (exists det,
      coverage_details r !! i = Some det
      /\ (detail_is_covered det = true <-> some_test_matches))
  /\ (In (method_full_name m) (covered_methods r) <-> some_test_matches).

(** A changed method without mapping entry gets a detail record whose
    description is the empty string. *)
Definition unmapped_detail_has_empty_description
    (lower : str -> str) (changed : list row) (mapping : list MappingEntry)
    (tests : list TestCase) (i : nat) (m : row) : Prop :=
  changed !! i = Some m ->
  (forall e, In e mapping -> full_qualified_name e <> method_full_name m) ->
  exists det,
    coverage_details (analyze_coverage lower changed mapping tests) !! i = Some det
    /\ detail_is_covered det = false
    /\ detail_description det = []
    /\ detail_matched_tests det = [].

(** A row with an id or a function yields a test case; a row with
    neither is dropped. *)
Definition test_rows_dropped_only_when_both_empty (rows : list row) : Prop :=
  forall r, In r rows ->
    (field r K_id_cn K_id <> [] \/ field r K_func_cn K_func <> [] ->
     In (test_case_of r) (parse_test_cases rows))
    /\ (field r K_id_cn K_id = [] /\ field r K_func_cn K_func = [] ->
        ~ In (test_case_of r) (parse_test_cases rows)).

End AsStated.

(** ** The change detector, as the specification words it *)

Module AstSpec.
Import AstParser.

(** Does the identity key of [m] occur among those of the history
    methods? *)
Definition in_history (history_methods : list MethodInfo) (m : MethodInfo) : bool :=
  existsb (fun h => bool_decide (signature h = signature m)) history_methods.

(** Two versions of a class, as [javalang] would parse them: the second
    adds [deleteUser] and gives [updateUser] one more parameter. *)
Definition method (name : string) (params : list string) : Member :=
  MethodDeclaration (u name) [u "public"] (Some (u "User")) (map u params).

Definition version1 : CompilationUnit :=
  mkCompilationUnit (Some (u "com.example.user"))
    [ mkTypeDeclaration (Some (u "UserService"))
        (MemberList
           [ method "createUser" ["String"; "String"]%string;
             method "updateUser" ["Long"]%string ]) ].

Definition version2 : CompilationUnit :=
  mkCompilationUnit (Some (u "com.example.user"))
    [ mkTypeDeclaration (Some (u "UserService"))
        (MemberList
           [ method "createUser" ["String"; "String"]%string;
             method "updateUser" ["Long"; "String"]%string;
             method "deleteUser" ["Long"]%string ]) ].

(** A stand-in for the parser on the two sample sources ["v1"] and
    ["v2"]. *)
Definition sample_parse (source_code : str) : ParseOutcome :=
  if bool_decide (source_code = u "v2") then Parsed version2
  else if bool_decide (source_code = u "v1") then Parsed version1
  else JavaSyntaxError (u "unexpected input").

End AstSpec.

(** ** The summary of a diff, as the specification words it *)

Module DiffSpec.
Import DiffAnalyzer.






(** A result with 12 added lines and 3 removed lines. *)
Definition sample_diff : DiffResult :=
  {| package_path := u "com.example.user";
     added_lines := map (fun n => u "line " ++ str_of_int n ++ [10%N])
                        [1; 2; 3; 4; 5; 6; 7; 8; 9; 10; 11; 12];
     removed_lines := [u "old a"; u "old b"; u "old c"];
     changed_lines := [] |}.

Definition sample_result : AnalysisResult :=
  {| diffs := [sample_diff]; total_added := 12; total_removed := 3; error := None |}.

End DiffSpec.

(** ** Notions used to reason about [SequenceMatcher] *)

Module DifflibSpec.

(** The positions of [x] in [l], counted from [k], in increasing order. *)
Fixpoint positions_from (k : nat) (l : list str) (x : str) : list nat :=
  match l with
  | [] => []
  | y :: l' =>
      if decide (y = x) then k :: positions_from (S k) l' x
      else positions_from (S k) l' x
  end.

(** The line at position [j] of [l] is in the index [b2j] of [l], that
    is, it is not a popular line. *)
Definition indexed_at (l : list str) (j : nat) : bool :=
  match l !! j with
  | Some x => bool_decide (is_Some (Difflib.b2j l !! x))
  | None => false
  end.

(** [run l k]: the number of consecutive indexed lines of [l] that end
    just before position [k]. *)
Fixpoint run (l : list str) (k : nat) : nat :=
  match k with
  | O => 0
  | S k' => if indexed_at l k' then S (run l k') else 0
  end.

(** The state of [find_longest_match] on [(l, l)] after the rows before
    [k]: the lengths recorded in [j2len] are bounded by the runs, the
    entry of the diagonal is the run, and the best match lies on the
    diagonal and is at least as long as every run seen so far. *)
Definition rows_invariant (l : list str) (k : nat)
                          (st : gmap nat nat * Difflib.Match) : Prop :=
  let '(j2len, (besti, bestj, bestsize)) := st in
  (forall j v, j2len !! j = Some v ->
               (v <= run l k /\ v <= run l (S j))%nat)
  /\ (forall k', k = S k' -> default 0%nat (j2len !! k') = run l k)
  /\ besti = bestj
  /\ (besti + bestsize <= k)%nat
  /\ (forall k', (k' <= k)%nat -> (run l k' <= bestsize)%nat).

(** The same within row [k], after the positions [done]. *)
Definition row_invariant (l : list str) (k : nat) (done : list nat)
                         (st : gmap nat nat * Difflib.Match) : Prop :=
  let '(newj2len, (besti, bestj, bestsize)) := st in
  (forall j v, newj2len !! j = Some v ->
               (v <= run l (S k) /\ v <= run l (S j))%nat)
  /\ (In k done -> newj2len !! k = Some (run l (S k))
                   /\ (run l (S k) <= bestsize)%nat)
  /\ besti = bestj
  /\ (besti + bestsize <= S k)%nat
  /\ (forall k', (k' <= k)%nat -> (run l k' <= bestsize)%nat).

End DifflibSpec.

(** ** Notions used to show that [SequenceMatcher] comes to an end *)

Module DifflibTermination.

(** A queue entry [(alo, ahi, blo, bhi)] is well formed. *)
Definition range_ok (r : Difflib.Range) : Prop :=
  let '(alo, ahi, blo, bhi) := r in (alo <= ahi)%nat /\ (blo <= bhi)%nat.

(** The number of turns of the [while queue] loop that a range can
    cost at most. *)
Definition range_weight (r : Difflib.Range) : nat :=
  let '(alo, ahi, blo, bhi) := r in (2 * (ahi - alo) + 1)%nat.

Definition queue_weight (queue : list Difflib.Range) : nat :=
  fold_right (fun r w => (range_weight r + w)%nat) 0%nat queue.

(** The state of [find_longest_match] before row [i]: the lengths in
    [j2len] and the best match fit in the two ranges. *)
Definition within_ranges (alo blo bhi i : nat)
                         (st : gmap nat nat * Difflib.Match) : Prop :=
  let '(j2len, (besti, bestj, bestsize)) := st in
  (forall j v, j2len !! j = Some v -> (v <= i - alo /\ v <= S j - blo)%nat)
  /\ (alo <= besti)%nat /\ (blo <= bestj)%nat
  /\ (besti + bestsize <= i)%nat /\ (bestj + bestsize <= bhi)%nat.

End DifflibTermination.

(** ** Further notions used to state properties *)

Module Notions.

(** [s] neither begins nor ends with white space. *)
Definition no_outer_space (s : str) : Prop :=
  (forall c t, s = c :: t -> isspace c = false)
  /\ (forall c t, s = t ++ [c] -> isspace c = false).

End Notions.

(** ** The records that the parser layer builds, declaration by declaration *)

Module AstNotions.
Import AstParser.

(** The record of one member of the type [class_name]: methods and
    constructors have one, the other members have none. *)
Definition info_of (package_name class_name : str) (member : Member)
  : option MethodInfo :=
  match member with
  | MethodDeclaration name mods ret params =>
      Some (mkMethodInfo package_name class_name name mods ret params)
  | ConstructorDeclaration name mods params =>
      Some (mkMethodInfo package_name class_name name mods None params)
  | OtherMember => None
  end.

(** The records of one type declaration: those of the members of a
    class, an interface or an annotation type, in the order of the body;
    none for an enum. *)
Definition methods_of_type (package_name : str) (type_decl : TypeDeclaration)
  : list MethodInfo :=
  match type_name type_decl, body type_decl with
  | Some class_name, MemberList members =>
      omap (info_of package_name class_name) members
  | _, _ => []
  end.

(** A compilation unit with a class and an enum that declares a
    constructor and a method, and a parser that knows it as ["e1"]. *)
Definition unit_with_enum : CompilationUnit :=
  mkCompilationUnit (Some (u "com.example.order"))
    [ mkTypeDeclaration (Some (u "OrderService"))
        (MemberList
           [ ConstructorDeclaration (u "OrderService") [u "public"] [];
             OtherMember;
             MethodDeclaration (u "cancel") [u "public"] None [u "Long"] ]);
      mkTypeDeclaration (Some (u "OrderState"))
        (EnumBody
           [ ConstructorDeclaration (u "OrderState") [] [u "int"];
             MethodDeclaration (u "isFinal") [u "public"] (Some (u "boolean")) [] ]) ].

Definition enum_parse (source_code : str) : ParseOutcome :=
  if bool_decide (source_code = u "e1") then Parsed unit_with_enum
  else JavaSyntaxError (u "unexpected input").

(** The first version of the sample class with other modifiers and
    return types, and a parser that knows it as ["v1r"]. *)
Definition version1_retyped : CompilationUnit :=
  mkCompilationUnit (Some (u "com.example.user"))
    [ mkTypeDeclaration (Some (u "UserService"))
        (MemberList
           [ MethodDeclaration (u "createUser") [u "private"] None
                               [u "String"; u "String"];
             MethodDeclaration (u "updateUser") [u "public"; u "static"]
                               (Some (u "boolean")) [u "Long"] ]) ].

Definition retyped_parse (source_code : str) : ParseOutcome :=
  if bool_decide (source_code = u "v1r") then Parsed version1_retyped
  else AstSpec.sample_parse source_code.

(** A source that the sample parser rejects, and a blank one. *)
Definition broken_source : str := Eval vm_compute in u "class {".
Definition blank_source : str := Eval vm_compute in u "  ".

End AstNotions.

(** ** Step text *)

Module ScoringNotions.

(** A code point that carries no step text: white space, or one of the
    two semicolons that separate steps. *)
Definition is_blank_or_semicolon (c : char) : bool :=
  isspace c || (c =? 59)%N || (c =? 65307)%N.

(** A test-case row whose steps are two semicolons and a blank. *)
Definition row_semicolons : row := Examples.test_row "TC007" "登录" "; ;" "登录成功".

End ScoringNotions.

(** ** The kinds of lines of a unified diff, as [compute_diff] tells them apart *)

Module DiffNotions.
Import DiffAnalyzer.

(** The first test of the loop: a file header or a hunk header. *)
Definition is_header (line : str) : bool :=
  startswith line PLUS3 || startswith line MINUS3 || startswith line AT2.

(** The second and the third test, reached when the tests before fail. *)
Definition is_added (line : str) : bool :=
  negb (is_header line) && startswith line PLUS.

Definition is_removed (line : str) : bool :=
  negb (is_header line) && negb (startswith line PLUS) && startswith line MINUS.

(** A line that the loop appends to [changed_lines]. *)
Definition is_kept (line : str) : bool :=
  is_header line || startswith line PLUS || startswith line MINUS.

(** A two-line Java source. *)
Definition two_lines : str := Eval vm_compute in u "package com.example.user;
++counter;".

End DiffNotions.

(** ** Documents of code changes *)

Module CodeChangesNotions.
Import CodeChanges.

(** The value under "data" lets [parse_code_changes] run into a
    [TypeError]: it is no container at all, or it is a string or a list
    in which both field names are found, and which is then indexed by a
    string. *)
Definition breaks_lookup (v : value) : Prop :=
  match v with
  | JDict _ => False
  | JStr t => contains t K_current = true /\ contains t K_history = true
  | JList l =>
      existsb (equals_str K_current) l = true
      /\ existsb (equals_str K_history) l = true
  | JNull | JBool _ | JInt _ | JFloat _ => True
  end.

(** What [parse_code_changes] does once the inner value is chosen. *)
Definition read_fields (inner : value) : (list value * list value) + exn :=
  match contains_key inner K_current with
  | None => inr TypeError
  | Some false => inr (ValueError FIELDS_MISSING)
  | Some true =>
      match contains_key inner K_history with
      | None => inr TypeError
      | Some false => inr (ValueError FIELDS_MISSING)
      | Some true =>
          match subscript inner K_current with
          | inr e => inr e
          | inl current =>
              match subscript inner K_history with
              | inr e => inr e
              | inl history =>
                  match current, history with
                  | JList c, JList h => inl (c, h)
                  | _, _ => inr (ValueError NOT_ARRAYS)
                  end
              end
          end
      end
  end.

(** An element of the arrays that is a string, and the text that the
    loop of [analyze_code_changes] compares at a position: the element
    there, the empty text past the end of the array. *)
Definition is_text (v : value) : bool :=
  match v with
  | JStr _ => true
  | _ => false
  end.

Definition text_at (l : list value) (i : nat) : str :=
  match l !! i with
  | Some (JStr s) => s
  | _ => []
  end.

(** A reader that returns the document
    [{"current": ["v2"], "history": ["v1"]}], and one that returns
    [{"data": null}]. *)
Definition two_versions : gmap str value :=
  <[K_current := JList [JStr (u "v2")]]> (<[K_history := JList [JStr (u "v1")]]> ∅).

Definition loads_two_versions (json_content : str) : value + str :=
  inl (JDict two_versions).

Definition loads_null_data (json_content : str) : value + str :=
  inl (JDict (<[K_data := JNull]> ∅)).

(** A reader that returns [{"current": ["v2", 7], "history": ["v1"]}]:
    the second entry of "current" is a number. *)
Definition loads_number_entry (json_content : str) : value + str :=
  inl (JDict (<[K_current := JList [JStr (u "v2"); JInt 7]]>
                (<[K_history := JList [JStr (u "v1")]]> ∅))).

End CodeChangesNotions.
(* ===================================================================== *)
(** * Properties *)
(* ===================================================================== *)

(** ** Loops that append to a list or count *)

Section Loops.
Context {A B : Type}.

Lemma fold_left_snoc_map (f : A -> B) (l : list A) (init : list B) :
  fold_left (fun acc x => acc ++ [f x]) l init = init ++ map f l.
Proof.
  revert init. induction l as [|x l IH]; intros init; simpl.
  - by rewrite app_nil_r.
  - rewrite IH. by rewrite <- app_assoc.
Qed.

Lemma fold_left_snoc_filter_map (p : A -> bool) (f : A -> B) (l : list A) (init : list B) :
  fold_left (fun acc x => if p x then acc ++ [f x] else acc) l init
  = init ++ map f (List.filter p l).
Proof.
  revert init. induction l as [|x l IH]; intros init; simpl.
  - by rewrite app_nil_r.
  - rewrite IH. destruct (p x); simpl; [by rewrite <- app_assoc | done].
Qed.

Lemma fold_left_count (p : A -> bool) (l : list A) (n : Z) :
  fold_left (fun k x => if p x then k + 1 else k) l n
  = n + Z.of_nat (length (List.filter p l)).
Proof.
  revert n. induction l as [|x l IH]; intros n; simpl; [lia|].
  rewrite IH. destruct (p x); simpl; lia.
Qed.

Lemma fold_left_ext (f g : B -> A -> B) (l : list A) (init : B) :
  (forall acc x, f acc x = g acc x) ->
  fold_left f l init = fold_left g l init.
Proof.
  intros H. revert init. induction l as [|x l IH]; intros init; simpl; [done|].
  by rewrite H, IH.
Qed.
End Loops.

(** ** The loops of the coverage analyzer *)

Module CoverageFacts.
Import CoverageAnalyzer CoverageSpec.

Lemma parse_mapping_data_filter rows :
  parse_mapping_data rows = map mapping_entry_of (List.filter mapping_row_complete rows).
Proof.
  unfold parse_mapping_data.
  rewrite <- (app_nil_l (map _ _)).
  rewrite <- fold_left_snoc_filter_map. reflexivity.
Qed.

Lemma parse_test_cases_filter rows :
  parse_test_cases rows = map test_case_of (List.filter test_row_complete rows).
Proof.
  unfold parse_test_cases.
  rewrite <- (app_nil_l (map _ _)).
  rewrite <- fold_left_snoc_filter_map. reflexivity.
Qed.

Lemma truthy_true (s : str) : truthy s = true <-> s <> [].
Proof. destruct s; simpl; split; congruence. Qed.

Lemma truthy_false (s : str) : truthy s = false <-> s = [].
Proof. destruct s; simpl; split; congruence. Qed.

Section WithLower.
Variable lower : str -> str.

(** What the inner loop computes. *)
Lemma scan_tests_spec d tcs :
  scan_tests lower d tcs
  = (existsb (matches lower d) tcs,
     map test_id (List.filter (matches lower d) tcs)).
Proof.
  unfold scan_tests.
  assert (H : forall tcs b ids,
             fold_left (fun st tc => if matches lower d tc
                                     then (true, st.2 ++ [test_id tc]) else st)
                       tcs (b, ids)
             = (b || existsb (matches lower d) tcs,
                ids ++ map test_id (List.filter (matches lower d) tcs))).
  { clear tcs. induction tcs as [|tc tcs IH]; intros b ids; simpl.
    - by rewrite orb_false_r, app_nil_r.
    - destruct (matches lower d tc); simpl; rewrite IH; simpl.
      + by rewrite orb_true_r, <- app_assoc.
      + done. }
  apply H.
Qed.

Lemma step_verdict idx tcs st m :
  step lower idx tcs st m
  = let name := method_full_name m in
    {| covered := if is_covered lower idx tcs name
                  then covered st ++ [name] else covered st;
       uncovered := if is_covered lower idx tcs name
                    then uncovered st else uncovered st ++ [name];
       details := details st ++ [detail_of lower idx tcs name] |}.
Proof.
  unfold step, is_covered, detail_of, verdict. simpl.
  destruct (truthy (get idx (method_full_name m) [])).
  - destruct (scan_tests lower _ tcs) as [b ids]. reflexivity.
  - reflexivity.
Qed.

Lemma step_fold idx tcs changed st :
  let names := map method_full_name changed in
  fold_left (step lower idx tcs) changed st
  = {| covered := covered st ++ List.filter (is_covered lower idx tcs) names;
       uncovered := uncovered st
                      ++ List.filter (fun n => negb (is_covered lower idx tcs n)) names;
       details := details st ++ map (detail_of lower idx tcs) names |}.
Proof.
  revert st. induction changed as [|m changed IH]; intros st; simpl.
  - destruct st; simpl. by rewrite !app_nil_r.
  - rewrite IH, step_verdict. simpl.
    destruct (is_covered lower idx tcs (method_full_name m)); simpl;
      rewrite <- ?app_assoc; reflexivity.
Qed.

End WithLower.
End CoverageFacts.

(** ** Properties of the coverage analyzer *)

Module CoverageClaims.
Import CoverageAnalyzer CoverageSpec CoverageFacts.

(** *** The mapping index *)

Lemma build_index_snoc l e :
  build_index (l ++ [e]) = <[full_qualified_name e := description e]> (build_index l).
Proof. unfold build_index. by rewrite fold_left_app. Qed.

Lemma build_index_None l k :
  build_index l !! k = None <-> forall e, In e l -> full_qualified_name e <> k.
Proof.
  induction l as [|e l IH] using rev_ind.
  - split; [intros _ e [] | intros _; apply lookup_empty].
  - rewrite build_index_snoc. split.
    + intros H e' Hin. apply lookup_insert_None in H as [H1 H2].
      apply in_app_or in Hin as [Hin | [<- | []]]; [by apply IH | done].
    + intros H. apply lookup_insert_None. split.
      * apply IH. intros e' Hin. apply H, in_or_app. by left.
      * apply H, in_or_app. right. by left.
Qed.

Section WithLower.
Variable lower : str -> str.

(** The result on a non-empty list, in closed form. *)
Lemma analyze_coverage_nonempty changed mapping tests :
  changed <> [] ->
  let idx := build_index mapping in
  let names := map method_full_name changed in
  let cov := List.filter (is_covered lower idx tests) names in
  analyze_coverage lower changed mapping tests
  = {| total_changed_methods := Z.of_nat (length changed);
       covered_methods := cov;
       uncovered_methods := List.filter (fun n => negb (is_covered lower idx tests n)) names;
       coverage_rate :=
         F64.round (F64.truediv (Z.of_nat (length cov)) (Z.of_nat (length changed))) 4;
       coverage_details := map (detail_of lower idx tests) names;
       error := None |}.
Proof.
  intros Hne. destruct changed as [|m changed]; [done|].
  unfold analyze_coverage. rewrite step_fold. cbn [covered uncovered details app].
  replace (0 <? Z.of_nat (length (m :: changed))) with true
    by (symmetry; apply Z.ltb_lt; simpl; lia).
  reflexivity.
Qed.

Lemma verdict_blank (idx : gmap str str) tests name :
  get idx name [] = [] -> verdict lower idx tests name = (false, []).
Proof. intros H. unfold verdict. cbv zeta. rewrite H. reflexivity. Qed.

End WithLower.


(** *** Empty list of changed methods *)

(** C2.  With an empty list of changed methods, [analyze_coverage]
    returns the error "没有检测到代码改动" (no code changes detected) and
    no coverage data: no covered or uncovered method, no detail record
    and a total of 0; the result is not a success result (its rate field
    keeps the default 0.0 of the dataclass). *)
Theorem analyze_coverage_no_changes :
  forall (lower : str -> str) (mapping : list MappingEntry) (tests : list TestCase),
    let r := analyze_coverage lower [] mapping tests in
    error r = Some (u "没有检测到代码改动")
    /\ error r <> None
    /\ covered_methods r = []
    /\ uncovered_methods r = []
    /\ coverage_details r = []
    /\ total_changed_methods r = 0
    /\ coverage_rate r = 0%Q.
Proof.
  intros lower mapping tests r. subst r. unfold analyze_coverage.
  repeat split; try reflexivity. discriminate.
Qed.

(** *** Methods without description *)

Lemma lookup_names (changed : list row) i m :
  changed !! i = Some m ->
  map method_full_name changed !! i = Some (method_full_name m).
Proof. intros H. change (map method_full_name changed) with (method_full_name <$> changed).
       by rewrite list_lookup_fmap, H. Qed.

Lemma blank_description_uncovered lower changed mapping tests i m :
  changed !! i = Some m ->
  get (build_index mapping) (method_full_name m) [] = [] ->
  let r := analyze_coverage lower changed mapping tests in
  let name := method_full_name m in
  coverage_details r !! i
    = Some {| detail_method := name; detail_description := NO_DESCRIPTION;
              detail_is_covered := false; detail_matched_tests := [] |}
  /\ In name (uncovered_methods r)
  /\ ~ In name (covered_methods r).
Proof.
  intros Hi Hget r name. subst r name.
  assert (Hne : changed <> []) by (intros ->; discriminate).
  rewrite (analyze_coverage_nonempty lower changed mapping tests Hne).
  cbn [coverage_details uncovered_methods covered_methods].
  assert (Hin : In (method_full_name m) (map method_full_name changed)).
  { apply in_map. apply list_elem_of_In. eapply list_elem_of_lookup_2; eauto. }
  assert (Hcov : is_covered lower (build_index mapping) tests (method_full_name m) = false).
  { unfold is_covered. by rewrite verdict_blank. }
  split; [|split].
  - change (map (detail_of lower (build_index mapping) tests) (map method_full_name changed))
      with (detail_of lower (build_index mapping) tests <$> (map method_full_name changed)).
    rewrite list_lookup_fmap, (lookup_names _ _ _ Hi).
    cbn [fmap option_fmap option_map]. f_equal.
    unfold detail_of. rewrite (verdict_blank lower _ tests _ Hget).
    cbv zeta. rewrite Hget. reflexivity.
  - apply filter_In. split; [done|]. by rewrite Hcov.
  - intros H. apply filter_In in H as [_ H]. congruence.
Qed.

(** C6, as amended.  For a changed method whose qualified name has no
    mapping entry, the looked-up description is the empty string, the
    detail record of the method has [is_covered = False], the
    placeholder description "无映射描述" and no matched test, and the
    qualified name is in [uncovered_methods]. *)
Theorem unmapped_method_uncovered :
  forall (lower : str -> str) (changed : list row) (mapping : list MappingEntry)
         (tests : list TestCase) (i : nat) (m : row),
    changed !! i = Some m ->
    (forall e, In e mapping -> full_qualified_name e <> method_full_name m) ->
    let r := analyze_coverage lower changed mapping tests in
    get (build_index mapping) (method_full_name m) [] = []
    /\ (exists det,
          coverage_details r !! i = Some det
          /\ detail_method det = method_full_name m
          /\ detail_is_covered det = false
          /\ detail_description det = u "无映射描述"
          /\ detail_matched_tests det = [])
    /\ In (method_full_name m) (uncovered_methods r).
Proof.
  intros lower changed mapping tests i m Hi Hno r.
  assert (Hget : get (build_index mapping) (method_full_name m) [] = []).
  { unfold get. apply build_index_None in Hno. by rewrite Hno. }
  destruct (blank_description_uncovered lower changed mapping tests i m Hi Hget)
    as (Hd & Hu & _).
  split; [done|]. split; [|done].
  eexists. split; [exact Hd|]. by repeat split.
Qed.

Lemma unmapped_method_uncovered_witness :
  let r := analyze_coverage lower_ascii [Examples.create_user; Examples.delete_user]
                            Examples.mapping Examples.tests in
  get (build_index Examples.mapping) (method_full_name Examples.delete_user) [] = []
  /\ (exists det,
        coverage_details r !! 1%nat = Some det
        /\ detail_method det = method_full_name Examples.delete_user
        /\ detail_is_covered det = false
        /\ detail_description det = u "无映射描述"
        /\ detail_matched_tests det = [])
  /\ In (method_full_name Examples.delete_user) (uncovered_methods r).
Proof.
  apply (unmapped_method_uncovered lower_ascii
           [Examples.create_user; Examples.delete_user]
           Examples.mapping Examples.tests 1 Examples.delete_user).
  - reflexivity.
  - intros e He. vm_compute in He. vm_compute.
    destruct He as [<- | [<- | []]]; discriminate.
Defined.

(** C6 as worded fails: the description stored in the detail record of
    an unmapped method is the placeholder, not the empty string. *)
Lemma unmapped_detail_description_is_placeholder :
  ~ AsStated.unmapped_detail_has_empty_description
      lower_ascii [Examples.create_user; Examples.delete_user]
      Examples.mapping Examples.tests 1 Examples.delete_user.
Proof.
  intros H. destruct H as (det & Hd & _ & Hdesc & _).
  - reflexivity.
  - intros e He. vm_compute in He. vm_compute.
    destruct He as [<- | [<- | []]]; discriminate.
  - vm_compute in Hd. injection Hd as <-. discriminate Hdesc.
Qed.

(** *** The fuzzy match *)

Lemma startswith_spec s pre :
  startswith s pre = true <-> exists post, s = pre ++ post.
Proof.
  revert s. induction pre as [|p pre IH]; intros s; simpl.
  - destruct s; (split; [intros _; eexists; reflexivity | intros _; reflexivity]).
  - destruct s as [|c s]; simpl.
    + split; [done | intros (post & H); discriminate].
    + rewrite andb_true_iff, N.eqb_eq, IH. split.
      * intros (-> & post & ->). by exists post.
      * intros (post & H). injection H as -> ->. eauto.
Qed.

Lemma contains_spec hay needle :
  contains hay needle = true <-> is_substring needle hay.
Proof.
  unfold is_substring. induction hay as [|c hay IH]; cbn [contains].
  - rewrite orb_false_r, startswith_spec. split.
    + intros (post & ->). by exists [], post.
    + intros (pre & post & H). destruct pre; simpl in H.
      * by exists post.
      * discriminate H.
  - rewrite orb_true_iff, startswith_spec, IH. split.
    + intros [(post & ->) | (pre & post & ->)].
      * by exists [], post.
      * by exists (c :: pre), post.
    + intros (pre & post & H). destruct pre as [|c' pre]; simpl in H.
      * left. by exists post.
      * right. injection H as -> ->. by exists pre, post.
Qed.

Lemma split_run_map sep sep' (g : char -> char) cur s :
  (forall c, sep (g c) = sep' c) ->
  (forall c, sep' c = false -> g c = c) ->
  split_run sep cur (map g s) = split_run sep' cur s.
Proof.
  intros Hsep Hid. revert cur. induction s as [|c s IH]; intros cur; simpl; [done|].
  rewrite Hsep. destruct (sep' c) eqn:Hc.
  - by rewrite !IH.
  - by rewrite (Hid c Hc), IH.
Qed.

(** The three replacements followed by [split()] tokenize on the four
    kinds of separators. *)
Lemma keywords_of_tokenize desc : keywords_of desc = tokenize desc.
Proof.
  unfold keywords_of, tokenize, split, replace. rewrite !map_map.
  apply split_run_map.
  - intros c. unfold is_separator, COMMA, FULLWIDTH_COMMA, SLASH, SPACE.
    destruct (c =? 44)%N eqn:E1; [apply N.eqb_eq in E1; by subst|].
    destruct (c =? 65292)%N eqn:E2; [apply N.eqb_eq in E2; by subst|].
    destruct (c =? 47)%N eqn:E3; [apply N.eqb_eq in E3; by subst|].
    reflexivity.
  - intros c. unfold is_separator, COMMA, FULLWIDTH_COMMA, SLASH, SPACE.
    destruct (c =? 44)%N; [done|]. destruct (c =? 65292)%N; [done|].
    destruct (c =? 47)%N; done.
Qed.

Lemma match_count_hits keywords text :
  match_count keywords text = keyword_hits keywords text.
Proof. unfold match_count, keyword_hits. by rewrite fold_left_count. Qed.

Lemma _fuzzy_match_spec desc test_func :
  _fuzzy_match desc test_func = true
  <-> Z.max 1 (Z.of_nat (length (tokenize desc)) / 2) <= keyword_hits (tokenize desc) test_func.
Proof.
  unfold _fuzzy_match. rewrite keywords_of_tokenize, match_count_hits.
  destruct (tokenize desc) as [|kw kws] eqn:Hk.
  - unfold keyword_hits. simpl. split; [done | lia].
  - apply Z.leb_le.
Qed.

Lemma matches_fuzzy (lower : str -> str) description tc :
  matches lower (lower description) tc = true
  <-> fuzzy lower description (test_function tc).
Proof.
  unfold matches, fuzzy. cbv zeta.
  rewrite !orb_true_iff, !contains_spec, _fuzzy_match_spec. tauto.
Qed.

Lemma is_covered_fuzzy (lower : str -> str) (idx : gmap str str) tests name :
  get idx name [] <> [] ->
  is_covered lower idx tests name = true
  <-> exists tc, In tc tests /\ fuzzy lower (get idx name []) (test_function tc).
Proof.
  intros Hd. unfold is_covered, verdict. cbv zeta.
  apply truthy_true in Hd. rewrite Hd, scan_tests_spec. simpl.
  rewrite existsb_exists. split; intros (tc & Hin & H); exists tc;
    (split; [done|]); by apply matches_fuzzy.
Qed.

(** C1, as amended.  For a changed method whose mapped description is
    not empty, the method is marked covered (in its detail record and by
    membership in [covered_methods]) iff the description fuzzy-matches
    the function text of some test case; the fuzzy match succeeds iff (a) the
    lower-cased description is a substring of the lower-cased function
    text, or (b) the reverse containment holds, or (c) tokenizing the
    lower-cased description on [,], [，], [/] and white space yields
    keywords of which at least [max(1, floor(k/2))] are substrings of the
    lower-cased function text.  The source evaluates the three checks in
    that order. *)
Theorem covered_iff_description_fuzzy_matches_a_test :
  forall (lower : str -> str) (changed : list row) (mapping : list MappingEntry)
         (tests : list TestCase) (i : nat) (m : row),
    changed !! i = Some m ->
    get (build_index mapping) (method_full_name m) [] <> [] ->
    let description := get (build_index mapping) (method_full_name m) [] in
    let r := analyze_coverage lower changed mapping tests in
    let some_test_matches :=
      exists tc, In tc tests /\ fuzzy lower description (test_function tc) in
    (exists det,
        coverage_details r !! i = Some det
        /\ detail_method det = method_full_name m
        /\ detail_description det = description
        /\ (detail_is_covered det = true <-> some_test_matches)
        /\ detail_matched_tests det
           = map test_id (List.filter (matches lower (lower description)) tests))
    /\ (In (method_full_name m) (covered_methods r) <-> some_test_matches)
    /\ (In (method_full_name m) (uncovered_methods r) <-> ~ some_test_matches)
    /\ (forall tc, matches lower (lower description) tc = true
                   <-> fuzzy lower description (test_function tc))
    /\ (forall tc,
          matches lower (lower description) tc
          = let func_lower := lower (test_function tc) in
            if contains func_lower (lower description) then true
            else if contains (lower description) func_lower then true
            else _fuzzy_match (lower description) func_lower)
    /\ (forall hay needle, contains hay needle = true <-> is_substring needle hay)
    /\ (forall desc, keywords_of desc = tokenize desc).
Proof.
  intros lower changed mapping tests i m Hi Hd description r some.
  subst description r some.
  assert (Hne : changed <> []) by (intros ->; discriminate).
  rewrite (analyze_coverage_nonempty lower changed mapping tests Hne).
  cbn [coverage_details uncovered_methods covered_methods].
  assert (Hin : In (method_full_name m) (map method_full_name changed)).
  { apply in_map. apply list_elem_of_In. eapply list_elem_of_lookup_2; eauto. }
  pose proof (is_covered_fuzzy lower (build_index mapping) tests _ Hd) as Hcov.
  split; [|split; [|split; [|split; [|split; [|split]]]]].
  - exists (detail_of lower (build_index mapping) tests (method_full_name m)).
    split; [|split; [|split; [|split]]].
    + change (map (detail_of lower (build_index mapping) tests) (map method_full_name changed))
        with (detail_of lower (build_index mapping) tests <$> (map method_full_name changed)).
      by rewrite list_lookup_fmap, (lookup_names _ _ _ Hi).
    + reflexivity.
    + unfold detail_of. cbn [detail_description]. apply truthy_true in Hd. by rewrite Hd.
    + exact Hcov.
    + unfold detail_of, verdict. cbn [detail_matched_tests].
      apply truthy_true in Hd. by rewrite Hd, scan_tests_spec.
  - rewrite filter_In, Hcov. tauto.
  - rewrite filter_In, negb_true_iff, <- not_true_iff_false, Hcov. tauto.
  - intros tc. apply matches_fuzzy.
  - intros tc. unfold matches. cbv zeta.
    destruct (contains _ _); [done|]. destruct (contains _ _); done.
  - apply contains_spec.
  - apply keywords_of_tokenize.
Qed.

Lemma covered_iff_description_fuzzy_matches_a_test_witness :
  let r := analyze_coverage lower_ascii [Examples.create_user; Examples.delete_user]
                            Examples.mapping Examples.tests in
  In (method_full_name Examples.create_user) (covered_methods r)
  <-> exists tc, In tc Examples.tests
                 /\ fuzzy lower_ascii (u "创建用户") (test_function tc).
Proof.
  pose proof (covered_iff_description_fuzzy_matches_a_test lower_ascii
                [Examples.create_user; Examples.delete_user]
                Examples.mapping Examples.tests 0 Examples.create_user) as H.
  destruct H as (_ & Hc & _).
  - reflexivity.
  - vm_compute. discriminate.
  - exact Hc.
Defined.

(** C1 as worded fails: with the keywords of the description as it is
    written, none of "Login", "Logout", "Reset", "Delete" occurs in the
    lower-cased function text "user login and logout page", and neither
    text contains the other; the code takes the keywords of the
    lower-cased description, finds two of the four, and marks the
    method covered. *)
Lemma written_keywords_miss_lowercase_text :
  ~ AsStated.covered_iff_fuzzy_on_written_keywords
      lower_ascii [Examples.login_method] Examples.login_mapping Examples.login_tests
      0 Examples.login_method.
Proof.
  unfold AsStated.covered_iff_fuzzy_on_written_keywords. intros H.
  destruct H as [_ [Hcovered _]].
  - reflexivity.
  - vm_compute. discriminate.
  - destruct Hcovered as (tc & Htc & Hf).
    + vm_compute. left. reflexivity.
    + destruct Htc as [<- | []].
      destruct Hf as [Ha | [Hb | Hc]].
      * apply contains_spec in Ha. vm_compute in Ha. discriminate.
      * apply contains_spec in Hb. vm_compute in Hb. discriminate.
      * vm_compute in Hc. apply Hc. reflexivity.
Qed.

(** The run of the code on these data. *)
Example login_method_is_covered :
  let r := analyze_coverage lower_ascii [Examples.login_method] Examples.login_mapping
                            Examples.login_tests in
  covered_methods r = [u "com.example.auth.AuthService.login"]
  /\ map detail_matched_tests (coverage_details r) = [[u "TC010"]]
  /\ keywords_of (lower_ascii (u "Login,Logout,Reset,Delete"))
     = [u "login"; u "logout"; u "reset"; u "delete"]
  /\ tokenize (u "Login,Logout,Reset,Delete")
     = [u "Login"; u "Logout"; u "Reset"; u "Delete"].
Proof. vm_compute. by repeat split. Qed.

(** *** The rows kept by the two table parsers *)

Lemma in_parse_mapping_data rows e :
  In e (parse_mapping_data rows)
  <-> exists r, In r rows /\ mapping_row_complete r = true /\ e = mapping_entry_of r.
Proof.
  rewrite parse_mapping_data_filter, in_map_iff. split.
  - intros (r & <- & Hr). apply filter_In in Hr as [? ?]. eauto.
  - intros (r & Hin & Hc & ->). exists r. split; [done|]. by apply filter_In.
Qed.

Lemma in_parse_test_cases rows tc :
  In tc (parse_test_cases rows)
  <-> exists r, In r rows /\ test_row_complete r = true /\ tc = test_case_of r.
Proof.
  rewrite parse_test_cases_filter, in_map_iff. split.
  - intros (r & <- & Hr). apply filter_In in Hr as [? ?]. eauto.
  - intros (r & Hin & Hc & ->). exists r. split; [done|]. by apply filter_In.
Qed.

Lemma mapping_row_complete_iff r :
  mapping_row_complete r = true
  <-> field r K_pkg_cn K_pkg <> [] /\ field r K_cls_cn K_cls <> []
      /\ field r K_mtd_cn K_mtd <> [].
Proof.
  unfold mapping_row_complete. rewrite !andb_true_iff, !truthy_true. tauto.
Qed.

Lemma test_row_complete_iff r :
  test_row_complete r = true
  <-> field r K_id_cn K_id <> [] /\ field r K_func_cn K_func <> [].
Proof.
  unfold test_row_complete. rewrite !andb_true_iff, !truthy_true. tauto.
Qed.

(** A field is read under the Chinese header when the row has it, and
    under the English header otherwise. *)
Lemma field_chinese (r : row) (cn en v : str) :
  r !! cn = Some v -> field r cn en = strip v.
Proof. intros H. unfold field, get. by rewrite H. Qed.

Lemma field_english (r : row) (cn en : str) :
  r !! cn = None -> field r cn en = strip (default [] (r !! en)).
Proof. intros H. unfold field, get. by rewrite H. Qed.

(** C8, as amended.  [parse_test_cases] keeps, in order, exactly the
    rows whose id and whose function are both non-empty after trimming;
    a row that lacks either of the two is dropped.  Under either naming
    scheme: a field is the trimmed cell under its Chinese header when the
    row has that header, and under its English header otherwise. *)
Theorem parse_test_cases_keeps_rows_with_id_and_function :
  forall (rows : list row),
    parse_test_cases rows = map test_case_of (List.filter test_row_complete rows)
    /\ (forall r, In r rows ->
          (In (test_case_of r) (parse_test_cases rows)
           <-> field r K_id_cn K_id <> [] /\ field r K_func_cn K_func <> []))
    /\ (forall (r : row) (cn en v : str),
          r !! cn = Some v -> field r cn en = strip v)
    /\ (forall (r : row) (cn en : str),
          r !! cn = None -> field r cn en = strip (default [] (r !! en))).
Proof.
  intros rows. split; [apply parse_test_cases_filter|].
  split; [|split; [apply field_chinese | apply field_english]].
  intros r Hin. rewrite in_parse_test_cases. split.
  - intros (r' & _ & Hc & He). apply test_row_complete_iff in Hc.
    unfold test_case_of in He. injection He as -> -> _ _. exact Hc.
  - intros Hc. exists r. by rewrite test_row_complete_iff.
Qed.

Lemma parse_test_cases_keeps_rows_with_id_and_function_witness :
  let rows := [Examples.row_complete; Examples.row_id_only] in
  parse_test_cases rows = [test_case_of Examples.row_complete]
  /\ In (test_case_of Examples.row_complete) (parse_test_cases rows)
  /\ ~ In (test_case_of Examples.row_id_only) (parse_test_cases rows).
Proof.
  intros rows.
  destruct (parse_test_cases_keeps_rows_with_id_and_function rows) as (Heq & Hiff & _).
  split; [rewrite Heq; vm_compute; reflexivity|]. split.
  - apply Hiff; [by left|]. vm_compute. split; discriminate.
  - intros Hin. apply Hiff in Hin as [_ Hf]; [|right; by left].
    apply Hf. vm_compute. reflexivity.
Defined.

(** C8 as worded fails: a row with an id and an empty function is
    dropped, although it does not lack both. *)
Lemma row_with_id_only_is_dropped :
  ~ AsStated.test_rows_dropped_only_when_both_empty [Examples.row_id_only].
Proof.
  intros H. destruct (H Examples.row_id_only) as [Hkeep _]; [by left|].
  assert (Hin : In (test_case_of Examples.row_id_only)
                   (parse_test_cases [Examples.row_id_only])).
  { apply Hkeep. left. vm_compute. discriminate. }
  vm_compute in Hin. exact Hin.
Qed.

(** C10.  [parse_mapping_data] keeps, in order, exactly the rows whose
    package, class and method are all non-empty after trimming (a field
    being the trimmed cell under its Chinese header when the row has that
    header, and under its English header otherwise); the description
    plays no part, so an entry with an empty description is kept.  A
    changed method that the index maps to the empty description is never
    judged covered by [analyze_coverage]. *)
Theorem parse_mapping_data_keeps_complete_rows :
  forall (lower : str -> str) (rows : list row) (changed : list row)
         (mapping : list MappingEntry) (tests : list TestCase) (i : nat) (m : row),
    parse_mapping_data rows = map mapping_entry_of (List.filter mapping_row_complete rows)
    /\ (forall r, In r rows ->
          (In (mapping_entry_of r) (parse_mapping_data rows)
           <-> field r K_pkg_cn K_pkg <> [] /\ field r K_cls_cn K_cls <> []
               /\ field r K_mtd_cn K_mtd <> []))
    /\ (forall (r : row) (cn en v : str),
          r !! cn = Some v -> field r cn en = strip v)
    /\ (forall (r : row) (cn en : str),
          r !! cn = None -> field r cn en = strip (default [] (r !! en)))
    /\ (changed !! i = Some m ->
        build_index mapping !! method_full_name m = Some [] ->
        let r := analyze_coverage lower changed mapping tests in
        (exists det, coverage_details r !! i = Some det
                     /\ detail_method det = method_full_name m
                     /\ detail_is_covered det = false)
        /\ In (method_full_name m) (uncovered_methods r)
        /\ ~ In (method_full_name m) (covered_methods r)).
Proof.
  intros lower rows changed mapping tests i m.
  split; [apply parse_mapping_data_filter|]. split.
  - intros r Hin. rewrite in_parse_mapping_data. split.
    + intros (r' & _ & Hc & He). apply mapping_row_complete_iff in Hc.
      unfold mapping_entry_of in He. injection He as -> -> -> _. exact Hc.
    + intros Hc. exists r. by rewrite mapping_row_complete_iff.
  - split; [apply field_chinese|]. split; [apply field_english|].
    intros Hi Hidx r.
    assert (Hget : get (build_index mapping) (method_full_name m) [] = []).
    { unfold get. by rewrite Hidx. }
    destruct (blank_description_uncovered lower changed mapping tests i m Hi Hget)
      as (Hd & Hu & Hc).
    split; [|by split]. eexists. split; [exact Hd|]. by split.
Qed.

Lemma parse_mapping_data_keeps_complete_rows_witness :
  let rows := [Examples.row_blank_description] in
  let mapping := parse_mapping_data rows in
  let changed := [Examples.delete_user] in
  let r := analyze_coverage lower_ascii changed mapping Examples.tests in
  In (mapping_entry_of Examples.row_blank_description) mapping
  /\ description (mapping_entry_of Examples.row_blank_description) = []
  /\ In (method_full_name Examples.delete_user) (uncovered_methods r)
  /\ ~ In (method_full_name Examples.delete_user) (covered_methods r).
Proof.
  intros rows mapping changed r.
  destruct (parse_mapping_data_keeps_complete_rows lower_ascii rows changed mapping
              Examples.tests 0 Examples.delete_user) as (_ & Hkeep & _ & _ & Hcov).
  split; [|split].
  - apply Hkeep; [by left|]. vm_compute. repeat split; discriminate.
  - vm_compute. reflexivity.
  - destruct Hcov as (_ & Hu & Hc); [reflexivity | vm_compute; reflexivity |].
    split; assumption.
Defined.

End CoverageClaims.

(** ** Properties of the change detector *)

Module AstClaims.
Import AstParser AstSpec.

Lemma elem_of_signatures_of hm s :
  s ∈ signatures_of hm <-> exists h, In h hm /\ signature h = s.
Proof.
  unfold signatures_of.
  induction hm as [|h hm IH] using rev_ind.
  - simpl. split; [set_solver | intros (h & [] & _)].
  - rewrite fold_left_app. simpl. rewrite elem_of_union, elem_of_singleton, IH.
    split.
    + intros [(h' & Hin & Hs) | ->].
      * exists h'. split; [apply in_or_app; by left | done].
      * exists h. split; [apply in_or_app; right; by left | done].
    + intros (h' & Hin & Hs). apply in_app_or in Hin as [Hin | [-> | []]].
      * left. eauto.
      * by right.
Qed.

Lemma in_history_true hm m :
  in_history hm m = true <-> exists h, In h hm /\ signature h = signature m.
Proof.
  unfold in_history. rewrite existsb_exists.
  split; intros (h & Hin & Hs); exists h; split; try done.
  - by apply bool_decide_eq_true in Hs.
  - by apply bool_decide_eq_true.
Qed.

Lemma changed_among_filter cm hm :
  changed_among cm hm = List.filter (fun m => negb (in_history hm m)) cm.
Proof.
  unfold changed_among.
  transitivity
    (fold_left (fun changed m => if negb (in_history hm m)
                                 then changed ++ [id m] else changed) cm []).
  - apply fold_left_ext. intros changed m.
    destruct (decide (signature m ∈ signatures_of hm)) as [Hin | Hnin].
    + apply elem_of_signatures_of, in_history_true in Hin. by rewrite Hin.
    + destruct (in_history hm m) eqn:Hh; [|done].
      exfalso. apply Hnin, elem_of_signatures_of, in_history_true, Hh.
  - rewrite fold_left_snoc_filter_map, map_id. reflexivity.
Qed.

Lemma filter_sublist {A : Type} (p : A -> bool) (l : list A) :
  sublist (List.filter p l) l.
Proof.
  induction l as [|x l IH]; simpl; [constructor|].
  destruct (p x); by constructor.
Qed.

(** C4.  [extract_changed_methods] returns the methods of the current
    list whose identity key [package.class.method(paramTypes)] is the
    key of no history method, in their original order: the result is
    the current list filtered by that test, hence a sub-list of it, and
    no method of the result has the key of a history method. *)
Theorem extract_changed_methods_filters_by_identity_key :
  forall (javalang : option (str -> ParseOutcome)) (current_code history_code : str),
    let current_methods := extract_methods_from_code javalang current_code in
    let history_methods := extract_methods_from_code javalang history_code in
    let changed := extract_changed_methods javalang current_code history_code in
    (forall cm hm : list MethodInfo,
        changed_among cm hm = List.filter (fun m => negb (in_history hm m)) cm)
    /\ changed = List.filter (fun m => negb (in_history history_methods m)) current_methods
    /\ sublist changed current_methods
    /\ (forall m, In m changed <->
                  In m current_methods
                  /\ forall h, In h history_methods -> signature h <> signature m)
    /\ (forall m h, In m changed -> In h history_methods -> signature m <> signature h).
Proof.
  intros javalang current_code history_code cm hm changed.
  assert (Hc : changed = List.filter (fun m => negb (in_history hm m)) cm).
  { subst changed. unfold extract_changed_methods. apply changed_among_filter. }
  assert (Hin : forall m, In m changed <->
                  In m cm /\ forall h, In h hm -> signature h <> signature m).
  { intros m. rewrite Hc, filter_In, negb_true_iff.
    rewrite <- not_true_iff_false, in_history_true. split.
    - intros [H1 H2]. split; [done|]. intros h Hh Hs. apply H2. eauto.
    - intros [H1 H2]. split; [done|]. intros (h & Hh & Hs). by apply (H2 h). }
  split; [apply changed_among_filter|]. split; [exact Hc|]. split.
  - rewrite Hc. apply filter_sublist.
  - split; [exact Hin|]. intros m h Hm Hh Hs. apply Hin in Hm as [_ Hm].
    by apply (Hm h).
Qed.

Lemma extract_changed_methods_filters_by_identity_key_witness :
  let changed := extract_changed_methods (Some sample_parse) (u "v2") (u "v1") in
  map signature changed
  = [ u "com.example.user.UserService.updateUser(Long,String)";
      u "com.example.user.UserService.deleteUser(Long)" ]
  /\ sublist changed (extract_methods_from_code (Some sample_parse) (u "v2"))
  /\ (forall m h, In m changed ->
                  In h (extract_methods_from_code (Some sample_parse) (u "v1")) ->
                  signature m <> signature h).
Proof.
  pose proof (extract_changed_methods_filters_by_identity_key
                (Some sample_parse) (u "v2") (u "v1")) as H.
  destruct H as (_ & _ & Hsub & _ & Hdisj).
  split; [vm_compute; reflexivity|]. split; [exact Hsub | exact Hdisj].
Defined.

End AstClaims.

(** ** Properties of the diff summary *)

Module DiffSummaryClaims.
Import DiffAnalyzer DiffSpec.









(** The summary of the sample: 12 added lines give 10 printed lines and
    "... 还有 2 行"; 3 removed lines are printed in full. *)
Example format_diff_summary_sample :
  format_diff_summary sample_result
  = u "共检测到 1 个代码文件变更
总新增 12 行，总删除 3 行

### 文件 1: com.example.user
  新增 12 行, 删除 3 行
  新增内容:
    + line 1
    + line 2
    + line 3
    + line 4
    + line 5
    + line 6
    + line 7
    + line 8
    + line 9
    + line 10
    ... 还有 2 行
  删除内容:
    - old a
    - old b
    - old c
".
Proof. vm_compute. reflexivity. Qed.

End DiffSummaryClaims.

(** ** Bounds on binary64 rounding *)

Module F64Facts.
Import F64.
Local Open Scope Q_scope.

(** *** Rounding to an integer *)

Lemma rne_cases x : rne x = Qfloor x \/ (rne x = (Qfloor x + 1)%Z /\ inject_Z (Qfloor x) < x).
Proof.
  unfold rne. destruct (Qcompare_spec (x - inject_Z (Qfloor x)) (1 # 2)) as [H|H|H].
  - destruct (Z.even (Qfloor x)); [by left|]. right. split; [done|].
    apply (Qplus_lt_l _ _ (- inject_Z (Qfloor x))). rewrite Qplus_opp_r.
    unfold Qminus in H. rewrite H. reflexivity.
  - by left.
  - right. split; [done|].
    apply (Qplus_lt_l _ _ (- inject_Z (Qfloor x))). rewrite Qplus_opp_r.
    eapply Qlt_trans; [|exact H]. reflexivity.
Qed.

Lemma rne_le (x : Q) (b : Z) : x <= inject_Z b -> (rne x <= b)%Z.
Proof.
  intros H. pose proof (Qfloor_le x) as Hf.
  assert (Hfb : (Qfloor x <= b)%Z).
  { rewrite Zle_Qle. eapply Qle_trans; eauto. }
  destruct (rne_cases x) as [-> | [-> Hlt]]; [done|].
  assert (inject_Z (Qfloor x) < inject_Z b) as Hs by (eapply Qlt_le_trans; eauto).
  rewrite <- Zlt_Qlt in Hs. lia.
Qed.

Lemma rne_ge (x : Q) (b : Z) : inject_Z b <= x -> (b <= rne x)%Z.
Proof.
  intros H. assert (Hfb : (b <= Qfloor x)%Z).
  { rewrite <- (Qfloor_Z b). by apply Qfloor_resp_le. }
  destruct (rne_cases x) as [-> | [-> _]]; lia.
Qed.

(** *** Powers of two *)

Lemma pow2_nonneg (e : Z) : (0 <= e)%Z -> pow2 e = inject_Z (2 ^ e).
Proof. destruct e; [reflexivity | reflexivity | lia]. Qed.

Lemma pow2_pos (e : Z) : 0 < pow2 e.
Proof.
  destruct e as [|p|p]; unfold pow2; [reflexivity | | reflexivity].
  change (Z.pow_pos 2 p) with (2 ^ Z.pos p)%Z.
  change 0 with (inject_Z 0). rewrite <- Zlt_Qlt. lia.
Qed.

(** For [e <= 0], multiplying by [pow2 e] is dividing by the integer
    [2 ^ (- e)]. *)
Lemma pow2_nonpos (e : Z) : (e <= 0)%Z -> pow2 e * inject_Z (2 ^ (- e)) == 1.
Proof.
  destruct e as [|p|p]; [reflexivity | lia | intros _].
  unfold pow2. change (- Z.neg p)%Z with (Z.pos p).
  unfold Qeq, Qmult, inject_Z. cbn [Qnum Qden].
  rewrite Pos2Z.inj_mul, Pos2Z.inj_pow. lia.
Qed.

(** *** The exponent *)

Lemma ilog2_lt (x : Q) (n : Z) :
  (0 <= n)%Z -> 0 < x -> x < inject_Z (2 ^ n) -> (ilog2 x < n)%Z.
Proof.
  intros Hn Hpos Hlt. destruct x as [p q]. unfold ilog2. cbn [Qnum Qden].
  assert (Hp : (0 < p)%Z) by (unfold Qlt in Hpos; simpl in Hpos; lia).
  assert (Hpq : (p < 2 ^ n * Zpos q)%Z) by (unfold Qlt in Hlt; simpl in Hlt; lia).
  pose proof (Z.log2_nonneg (Zpos q)) as Hlq0.
  assert (Hq : (Zpos q < 2 ^ (Z.log2 (Zpos q) + 1))%Z).
  { apply Z.log2_lt_pow2; lia. }
  assert (Hd : (Z.log2 p < n + Z.log2 (Zpos q) + 1)%Z).
  { apply Z.log2_lt_pow2; [lia|].
    replace (n + Z.log2 (Zpos q) + 1)%Z with (n + (Z.log2 (Zpos q) + 1))%Z by lia.
    rewrite Z.pow_add_r by lia.
    assert (0 < 2 ^ n)%Z by (apply Z.pow_pos_nonneg; lia). nia. }
  destruct (Qle_bool _ _) eqn:Hb; [|lia].
  apply Qle_bool_iff in Hb.
  destruct (Z.eq_dec (Z.log2 p - Z.log2 (Zpos q))%Z n) as [He|]; [|lia].
  exfalso. rewrite He, (pow2_nonneg n Hn) in Hb.
  apply (Qlt_irrefl (p # q)). eapply Qlt_le_trans; eauto.
Qed.

Lemma ulp_exp_nonpos (x : Q) :
  0 < x -> x < inject_Z (2 ^ 53) -> (ulp_exp x <= 0)%Z.
Proof.
  intros H0 H1. pose proof (ilog2_lt x 53 ltac:(lia) H0 H1).
  unfold ulp_exp, prec, emin. lia.
Qed.

(** *** Rounding to binary64 *)

Lemma rnd_pos_nonneg (x : Q) : 0 <= x -> 0 <= rnd_pos x.
Proof.
  intros H. unfold rnd_pos. rewrite Qred_correct.
  apply Qmult_le_0_compat; [|apply Qlt_le_weak, pow2_pos].
  change 0 with (inject_Z 0). rewrite <- Zle_Qle. apply rne_ge. simpl.
  apply Qle_shift_div_l; [apply pow2_pos|]. by rewrite Qmult_0_l.
Qed.

(** A value below an integer less than 2^53 is not rounded above it. *)
Lemma rnd_pos_le_int (x : Q) (B : Z) :
  0 < x -> (B < 2 ^ 53)%Z -> x <= inject_Z B -> rnd_pos x <= inject_Z B.
Proof.
  intros H0 HB Hx.
  assert (He : (ulp_exp x <= 0)%Z).
  { apply ulp_exp_nonpos; [done|]. eapply Qle_lt_trans; [exact Hx|].
    by rewrite <- Zlt_Qlt. }
  unfold rnd_pos. rewrite Qred_correct.
  set (e := ulp_exp x) in *. pose proof (pow2_nonpos e He) as Hinv.
  pose proof (pow2_pos e) as Hp.
  assert (Hs : (0 < 2 ^ (- e))%Z) by (apply Z.pow_pos_nonneg; lia).
  assert (Hk : (rne (x / pow2 e) <= B * 2 ^ (- e))%Z).
  { apply rne_le. apply Qle_shift_div_r; [done|].
    rewrite inject_Z_mult, <- Qmult_assoc, (Qmult_comm (inject_Z (2 ^ (- e)))), Hinv.
    by rewrite Qmult_1_r. }
  apply Qle_trans with (inject_Z (B * 2 ^ (- e)) * pow2 e).
  - apply Qmult_le_compat_r; [by rewrite <- Zle_Qle | by apply Qlt_le_weak].
  - rewrite inject_Z_mult, <- Qmult_assoc, (Qmult_comm (inject_Z (2 ^ (- e)))), Hinv.
    rewrite Qmult_1_r. apply Qle_refl.
Qed.

Lemma Qnum_sign (x : Q) :
  match Qnum x with
  | Z0 => x == 0
  | Zpos _ => 0 < x
  | Zneg _ => x < 0
  end.
Proof. destruct x as [[|p|p] q]; unfold Qeq, Qlt; simpl; lia. Qed.

Lemma rnd_nonneg (x : Q) : 0 <= x -> 0 <= rnd x.
Proof.
  intros H. unfold rnd. pose proof (Qnum_sign x) as Hs.
  destruct (Qnum x); [apply Qle_refl | by apply rnd_pos_nonneg |].
  exfalso. apply (Qlt_irrefl 0). eapply Qle_lt_trans; eauto.
Qed.

Lemma rnd_le_int (x : Q) (B : Z) :
  (0 <= B < 2 ^ 53)%Z -> x <= inject_Z B -> rnd x <= inject_Z B.
Proof.
  intros [HB0 HB] Hx. unfold rnd. pose proof (Qnum_sign x) as Hs.
  destruct (Qnum x).
  - change 0 with (inject_Z 0). by rewrite <- Zle_Qle.
  - by apply rnd_pos_le_int.
  - rewrite Qred_correct. apply Qle_trans with 0.
    + apply (Qopp_le_compat 0). apply rnd_pos_nonneg.
      apply (Qopp_le_compat x 0). by apply Qlt_le_weak.
    + change 0 with (inject_Z 0). by rewrite <- Zle_Qle.
Qed.

Lemma rnd_zero (x : Q) : x == 0 -> rnd x = 0.
Proof.
  intros H. unfold rnd. destruct x as [[|p|p] q]; [reflexivity | |];
    unfold Qeq in H; simpl in H; lia.
Qed.

(** *** [round] *)

Lemma pow10_pos (n : nat) : 0 < inject_Z (10 ^ Z.of_nat n).
Proof. change 0 with (inject_Z 0). rewrite <- Zlt_Qlt. apply Z.pow_pos_nonneg; lia. Qed.

Lemma round_nonneg (x : Q) (nd : nat) : 0 <= x -> 0 <= round x nd.
Proof.
  intros H. unfold round. apply rnd_nonneg.
  apply Qle_shift_div_l; [apply pow10_pos|]. rewrite Qmult_0_l.
  change 0 with (inject_Z 0). rewrite <- Zle_Qle. apply rne_ge. simpl.
  apply Qmult_le_0_compat; [done | apply Qlt_le_weak, pow10_pos].
Qed.

Lemma round_le_int (x : Q) (nd : nat) (B : Z) :
  (0 <= B < 2 ^ 53)%Z -> x <= inject_Z B -> round x nd <= inject_Z B.
Proof.
  intros HB Hx. unfold round. apply rnd_le_int; [done|].
  apply Qle_shift_div_r; [apply pow10_pos|].
  rewrite <- inject_Z_mult, <- Zle_Qle. apply rne_le.
  rewrite inject_Z_mult. apply Qmult_le_compat_r; [done|].
  apply Qlt_le_weak, pow10_pos.
Qed.

Lemma round_zero (x : Q) (nd : nat) : x == 0 -> round x nd = 0.
Proof.
  intros H. unfold round. apply rnd_zero.
  assert (Hk : rne (x * inject_Z (10 ^ Z.of_nat nd)) = 0%Z).
  { assert (Hz : x * inject_Z (10 ^ Z.of_nat nd) == 0) by (rewrite H; apply Qmult_0_l).
    apply Z.le_antisymm.
    - apply rne_le. rewrite Hz. apply Qle_refl.
    - apply rne_ge. rewrite Hz. apply Qle_refl. }
  rewrite Hk. unfold Qdiv. apply Qmult_0_l.
Qed.

(** *** The quotient of two integers *)

Lemma truediv_unit_interval (c t : Z) :
  (0 <= c <= t)%Z -> (0 < t)%Z -> 0 <= truediv c t <= 1.
Proof.
  intros Hc Ht. unfold truediv.
  assert (Hpos : 0 < inject_Z t) by (change 0 with (inject_Z 0); by rewrite <- Zlt_Qlt).
  split.
  - apply rnd_nonneg. apply Qle_shift_div_l; [done|]. rewrite Qmult_0_l.
    change 0 with (inject_Z 0). rewrite <- Zle_Qle. lia.
  - change 1 with (inject_Z 1). apply rnd_le_int; [lia|].
    apply Qle_shift_div_r; [done|]. rewrite Qmult_1_l, <- Zle_Qle. lia.
Qed.

Lemma truediv_zero (t : Z) : truediv 0 t = 0.
Proof. unfold truediv. apply rnd_zero. unfold Qdiv. apply Qmult_0_l. Qed.

(** *** [min] and [max] *)


(** *** Sanity of the model: rounding moves by at most half a unit *)

Lemma rne_nearest (x : Q) :
  - (1 # 2) <= inject_Z (rne x) - x <= 1 # 2.
Proof.
  pose proof (Qfloor_le x) as Hlo. pose proof (Qlt_floor x) as Hhi.
  rewrite inject_Z_plus in Hhi. change (inject_Z 1) with 1 in Hhi.
  unfold rne. destruct (Qcompare_spec (x - inject_Z (Qfloor x)) (1 # 2)) as [H|H|H].
  - destruct (Z.even (Qfloor x)).
    + split; lra.
    + rewrite inject_Z_plus. change (inject_Z 1) with 1. split; lra.
  - split; lra.
  - rewrite inject_Z_plus. change (inject_Z 1) with 1. split; lra.
Qed.

(** [rnd_pos x] is a multiple of the unit in the last place of [x], at
    most half a unit away from [x]. *)
Lemma rnd_pos_nearest (x : Q) :
  let ulp := pow2 (ulp_exp x) in
  (exists m : Z, rnd_pos x == inject_Z m * ulp)
  /\ - (1 # 2) * ulp <= rnd_pos x - x <= (1 # 2) * ulp.
Proof.
  intros ulp. unfold rnd_pos. fold ulp.
  split; [eexists; apply Qred_correct|]. rewrite Qred_correct.
  pose proof (pow2_pos (ulp_exp x)) as Hp. fold ulp in Hp.
  pose proof (rne_nearest (x / ulp)) as [H1 H2].
  assert (E : inject_Z (rne (x / ulp)) * ulp - x
              == (inject_Z (rne (x / ulp)) - x / ulp) * ulp) by (field; lra).
  rewrite E. split.
  - apply Qmult_le_compat_r; [exact H1 | lra].
  - apply Qmult_le_compat_r; [exact H2 | lra].
Qed.

(** The binary64 number nearest to one tenth, and a rounding that goes
    down because the binary64 number written [2.675] lies below the
    decimal 2.675. *)
Example rnd_one_tenth :
  rnd (1 # 10) = 3602879701896397 # 36028797018963968.
Proof. vm_compute. reflexivity. Qed.

Example round_2_675 :
  round (rnd (2675 # 1000)) 2 = rnd (267 # 100).
Proof. vm_compute. reflexivity. Qed.

End F64Facts.

(** ** The partition and the rate of a coverage result *)

Module CoverageRateClaims.
Import CoverageAnalyzer CoverageSpec CoverageFacts CoverageClaims.

Lemma filter_partition_permutation {A : Type} (p : A -> bool) (l : list A) :
  Permutation (List.filter p l ++ List.filter (fun x => negb (p x)) l) l.
Proof.
  induction l as [|x l IH]; simpl; [constructor|].
  destruct (p x); simpl.
  - by constructor.
  - symmetry. etransitivity; [|apply Permutation_middle]. constructor. by symmetry.
Qed.

(** C3.  For a non-empty list of changed methods: [covered_methods]
    followed by [uncovered_methods] is a rearrangement of the qualified
    names of the changed methods, no name is in both lists,
    [total_changed_methods] is the number of changed methods, and
    [coverage_rate] is [len(covered_methods) / total_changed_methods]
    rounded to 4 decimal places, a number between 0 and 1. *)
Theorem coverage_result_partitions_changed_methods :
  forall (lower : str -> str) (changed : list row) (mapping : list MappingEntry)
         (tests : list TestCase),
    changed <> [] ->
    let r := analyze_coverage lower changed mapping tests in
    let names := map method_full_name changed in
    Permutation (covered_methods r ++ uncovered_methods r) names
    /\ (forall n, In n names <-> In n (covered_methods r) \/ In n (uncovered_methods r))
    /\ (forall n, ~ (In n (covered_methods r) /\ In n (uncovered_methods r)))
    /\ total_changed_methods r = Z.of_nat (length changed)
    /\ coverage_rate r
       = F64.round (F64.truediv (Z.of_nat (length (covered_methods r)))
                                (total_changed_methods r)) 4
    /\ (0 <= coverage_rate r <= 1)%Q
    /\ (exists k : Z,
          (0 <= k <= 10000)%Z
          /\ coverage_rate r = F64.rnd (inject_Z k / inject_Z (10 ^ 4)))
    /\ error r = None.
Proof.
  intros lower changed mapping tests Hne r names. subst r names.
  rewrite (analyze_coverage_nonempty lower changed mapping tests Hne).
  cbn [covered_methods uncovered_methods total_changed_methods coverage_rate error].
  set (names := map method_full_name changed).
  set (p := is_covered lower (build_index mapping) tests).
  pose proof (filter_partition_permutation p names) as Hperm.
  assert (Hlen : (length (List.filter p names) <= length changed)%nat).
  { etransitivity; [apply List.filter_length_le|]. subst names. by rewrite length_map. }
  assert (Hpos : (0 < length changed)%nat) by (destruct changed; [done | simpl; lia]).
  pose proof (F64Facts.truediv_unit_interval
                (Z.of_nat (length (List.filter p names)))
                (Z.of_nat (length changed)) ltac:(lia) ltac:(lia)) as [H0 H1].
  split; [exact Hperm|]. split; [|split; [|split; [|split; [|split; [|split]]]]].
  - intros n. rewrite <- in_app_iff. split; intros H.
    + eapply Permutation_in; [symmetry; exact Hperm | exact H].
    + eapply Permutation_in; [exact Hperm | exact H].
  - intros n [Hc Hu]. apply filter_In in Hc as [_ Hc]. apply filter_In in Hu as [_ Hu].
    rewrite Hc in Hu. discriminate.
  - reflexivity.
  - reflexivity.
  - split.
    + by apply F64Facts.round_nonneg.
    + change 1%Q with (inject_Z 1). apply F64Facts.round_le_int; [lia | exact H1].
  - eexists. split; [|reflexivity]. split.
    + apply F64Facts.rne_ge. change (inject_Z 0) with 0%Q.
      apply Qmult_le_0_compat; [exact H0 | done].
    + apply F64Facts.rne_le.
      change (inject_Z 10000) with (1 * inject_Z (10 ^ Z.of_nat 4))%Q.
      apply Qmult_le_compat_r; [exact H1 | done].
  - reflexivity.
Qed.

Lemma coverage_result_partitions_changed_methods_witness :
  let r := analyze_coverage lower_ascii [Examples.create_user; Examples.delete_user]
                            Examples.mapping Examples.tests in
  covered_methods r = [u "com.example.user.UserService.createUser"]
  /\ uncovered_methods r = [u "com.example.user.UserService.deleteUser"]
  /\ coverage_rate r = (1 # 2)%Q
  /\ (0 <= coverage_rate r <= 1)%Q.
Proof.
  pose proof (coverage_result_partitions_changed_methods lower_ascii
                [Examples.create_user; Examples.delete_user]
                Examples.mapping Examples.tests ltac:(discriminate)) as H.
  destruct H as (_ & _ & _ & _ & _ & Hr & _ & _).
  split; [vm_compute; reflexivity|]. split; [vm_compute; reflexivity|].
  split; [vm_compute; reflexivity|]. exact Hr.
Defined.

(** One covered method out of 160: the quotient 0.00625 is not a binary64
    number, the nearest one lies above it, and the rate is 0.0063. *)
Example coverage_rate_one_of_160 :
  F64.round (F64.truediv 1 160) 4 = F64.rnd (63 # 10000).
Proof. vm_compute. reflexivity. Qed.

End CoverageRateClaims.

(** ** Properties of the scoring model *)

Module ScoringClaims.
Import ScoringModel.
Local Open Scope Q_scope.

Lemma geb_true (x y : Q) : F64.geb x y = true <-> y <= x.
Proof. apply Qle_bool_iff. Qed.

Lemma geb_false (x y : Q) : F64.geb x y = false <-> x < y.
Proof.
  unfold F64.geb. rewrite <- not_true_iff_false, Qle_bool_iff. split.
  - apply Qnot_le_lt.
  - intros H1 H2. apply (Qlt_irrefl x). eapply Qlt_le_trans; eauto.
Qed.

(** The grade thresholds. *)
Lemma _get_grade_thresholds (s : Q) :
  (_get_grade s = u "A" <-> 90 <= s)
  /\ (_get_grade s = u "B" <-> 80 <= s /\ s < 90)
  /\ (_get_grade s = u "C" <-> 60 <= s /\ s < 80)
  /\ (_get_grade s = u "D" <-> 40 <= s /\ s < 60)
  /\ (_get_grade s = u "F" <-> s < 40).
Proof.
  unfold _get_grade.
  destruct (F64.geb s 90) eqn:H90; [apply geb_true in H90 | apply geb_false in H90];
  [|destruct (F64.geb s 80) eqn:H80; [apply geb_true in H80 | apply geb_false in H80];
    [|destruct (F64.geb s 60) eqn:H60; [apply geb_true in H60 | apply geb_false in H60];
      [|destruct (F64.geb s 40) eqn:H40;
        [apply geb_true in H40 | apply geb_false in H40]]]];
  repeat split; intros; try discriminate; try assumption; try reflexivity;
    try (exfalso; lra); try lra.
Qed.





End ScoringClaims.

(** ** Identical sequences give an empty diff *)

Module DifflibFacts.
Import Difflib DifflibSpec.

(** *** The index of the lines *)

Lemma elem_of_positions_from k l x j :
  In j (positions_from k l x) <-> (k <= j)%nat /\ l !! (j - k)%nat = Some x.
Proof.
  revert k. induction l as [|y l IH]; intros k; simpl.
  - split; [done | intros [_ H]; discriminate].
  - destruct (decide (y = x)) as [->|Hne]; simpl; rewrite ?IH.
    + split.
      * intros [<- | [Hle Hl]].
        -- split; [lia|]. by rewrite Nat.sub_diag.
        -- split; [lia|]. replace (j - k)%nat with (S (j - S k)) by lia. done.
      * intros [Hle Hl]. destruct (decide (j = k)) as [->|]; [by left|]. right.
        split; [lia|]. replace (j - k)%nat with (S (j - S k)) in Hl by lia. done.
    + split.
      * intros [Hle Hl]. split; [lia|].
        replace (j - k)%nat with (S (j - S k)) by lia. done.
      * intros [Hle Hl]. destruct (decide (j = k)) as [->|].
        -- rewrite Nat.sub_diag in Hl. simpl in Hl. congruence.
        -- split; [lia|]. replace (j - k)%nat with (S (j - S k)) in Hl by lia. done.
Qed.

(** The positions are listed in increasing order: whatever follows a
    position in the list is larger. *)
Lemma positions_from_sorted k l x done j todo :
  positions_from k l x = done ++ j :: todo ->
  (forall i, In i done -> (i < j)%nat) /\ (forall i, In i todo -> (j < i)%nat).
Proof.
  revert k done. induction l as [|y l IH]; intros k done; simpl.
  - intros H. by destruct done.
  - destruct (decide (y = x)) as [->|Hne]; [|apply IH].
    destruct done as [|d done]; simpl; intros H; injection H as <- H.
    + split; [intros i []|]. intros i Hi. rewrite <- H in Hi.
      apply elem_of_positions_from in Hi. lia.
    + destruct (IH _ _ H) as [H1 H2]. split; [|done].
      intros i [<- | Hi]; [|by apply H1].
      assert (Hj : In j (positions_from (S k) l x)).
      { rewrite H. apply in_or_app. right. by left. }
      apply elem_of_positions_from in Hj. lia.
Qed.

Lemma index_fold_lookup (l : list str) (k : nat) (m : gmap str (list nat)) (x : str) :
  fold_left (fun b2j '(i, elt) => <[elt := default [] (b2j !! elt) ++ [i]]> b2j)
            (combine (seq k (length l)) l) m !! x
  = match positions_from k l x with
    | [] => m !! x
    | ps => Some (default [] (m !! x) ++ ps)
    end.
Proof.
  revert k m. induction l as [|y l IH]; intros k m; simpl; [done|].
  rewrite IH. destruct (decide (y = x)) as [->|Hne].
  - rewrite lookup_insert_eq. simpl.
    destruct (positions_from (S k) l x); by rewrite <- ?app_assoc.
  - by rewrite lookup_insert_ne.
Qed.

Lemma index_b_lookup (l : list str) (x : str) :
  index_b l !! x = match positions_from 0 l x with
                   | [] => None
                   | ps => Some ps
                   end.
Proof.
  unfold index_b. rewrite index_fold_lookup, lookup_empty. reflexivity.
Qed.

(** An entry of [b2j] lists all the positions of its line. *)
Lemma b2j_lookup (l : list str) (x : str) (js : list nat) :
  b2j l !! x = Some js -> js = positions_from 0 l x.
Proof.
  unfold b2j. intros H.
  assert (Hi : index_b l !! x = Some js).
  { destruct (200 <=? length l)%nat; [|done].
    apply map_lookup_filter_Some in H. tauto. }
  rewrite index_b_lookup in Hi. destruct (positions_from 0 l x); congruence.
Qed.

(** *** Runs of indexed lines *)

Lemma run_le l k : (run l k <= k)%nat.
Proof. induction k as [|k IH]; simpl; [lia|]. destruct (indexed_at l k); lia. Qed.

Lemma run_S_indexed l k : indexed_at l k = true -> run l (S k) = S (run l k).
Proof. intros H. simpl. by rewrite H. Qed.

Lemma run_S_popular l k : indexed_at l k = false -> run l (S k) = 0%nat.
Proof. intros H. simpl. by rewrite H. Qed.

Lemma indexed_at_true l j x js :
  l !! j = Some x -> b2j l !! x = Some js -> indexed_at l j = true.
Proof.
  intros Hj Hx. unfold indexed_at. rewrite Hj. apply bool_decide_eq_true.
  by rewrite Hx.
Qed.

Lemma indexed_at_false l j x :
  l !! j = Some x -> b2j l !! x = None -> indexed_at l j = false.
Proof.
  intros Hj Hx. unfold indexed_at. rewrite Hj. apply bool_decide_eq_false.
  rewrite Hx. by intros [? ?].
Qed.

(** *** One row of [find_longest_match] on two copies of [l] *)

Section Row.
Variable l : list str.
Variable k : nat.
Variable x : str.
Variable js : list nat.
Variable j2len : gmap nat nat.
Variable best0 : Match.
Hypothesis Hk : l !! k = Some x.
Hypothesis Hjs : b2j l !! x = Some js.
Hypothesis Hrows : rows_invariant l k (j2len, best0).

Lemma js_positions j : In j js <-> l !! j = Some x.
Proof.
  rewrite (b2j_lookup l x js Hjs), elem_of_positions_from, Nat.sub_0_r.
  split; [tauto | intros H; split; [lia | done]].
Qed.

Lemma previous_length_bounds j :
  In j js ->
  let prev := match j with
              | O => 0%nat
              | S j' => default 0%nat (j2len !! j')
              end in
  (prev + 1 <= run l (S k) /\ prev + 1 <= run l (S j))%nat
  /\ (j = k -> (prev + 1)%nat = run l (S k)).
Proof.
  intros Hj prev. apply js_positions in Hj.
  rewrite (run_S_indexed l k (indexed_at_true l k x js Hk Hjs)).
  rewrite (run_S_indexed l j (indexed_at_true l j x js Hj Hjs)).
  destruct best0 as [[bi bj] bs]. destruct Hrows as (H1 & H2 & _).
  subst prev. destruct j as [|j'].
  - split; [simpl; lia|]. intros <-. simpl. lia.
  - split.
    + destruct (j2len !! j') as [w|] eqn:Hw; cbn [from_option id]; [|lia].
      destruct (H1 j' w Hw). lia.
    + intros <-. rewrite (H2 j' eq_refl). lia.
Qed.

Lemma scan_row_invariant todo :
  forall done newj2len best,
    js = done ++ todo ->
    row_invariant l k done (newj2len, best) ->
    row_invariant l k js (scan_row k 0 (length l) j2len todo newj2len best).
Proof.
  induction todo as [|j todo IH]; intros done newj2len best Hsplit Hinv.
  - simpl. by rewrite Hsplit, app_nil_r.
  - assert (Hj : In j js) by (rewrite Hsplit; apply in_or_app; right; by left).
    pose proof (previous_length_bounds j Hj) as [[Hv1 Hv2] Hv3].
    assert (Hlt : (j < length l)%nat).
    { apply js_positions in Hj. by apply lookup_lt_Some in Hj. }
    cbn [scan_row].
    replace (j <? 0)%nat with false by (symmetry; apply Nat.ltb_ge; lia).
    replace (length l <=? j)%nat with false by (symmetry; apply Nat.leb_gt; lia).
    cbv zeta.
    set (v := (match j with
               | O => 0
               | S j' => default 0 (j2len !! j')
               end + 1)%nat) in *.
    apply (IH (done ++ [j])); [by rewrite <- app_assoc|].
    destruct best as [[bi bj] bs]. destruct Hinv as (N1 & N2 & N3 & N4 & N5).
    assert (Hsorted := positions_from_sorted 0 l x done j todo).
    rewrite <- (b2j_lookup l x js Hjs) in Hsorted.
    destruct (Hsorted Hsplit) as [Hbefore Hafter].
    assert (Hupd : (bs < v)%nat -> j = k).
    { intros Hbs. destruct (Nat.lt_trichotomy j k) as [Hjk | [Hjk | Hjk]]; [|done|].
      - pose proof (N5 (S j) ltac:(lia)). lia.
      - assert (Hkd : In k done).
        { assert (Hkin : In k js) by (by apply js_positions).
          rewrite Hsplit in Hkin. apply in_app_or in Hkin as [? | [? | Hk']]; [done | lia |].
          apply Hafter in Hk'. lia. }
        destruct (N2 Hkd) as [_ ?]. lia. }
    cbn [snd]. destruct (bs <? v)%nat eqn:Hcmp.
    + apply Nat.ltb_lt in Hcmp. specialize (Hupd Hcmp).
      pose proof (run_le l (S k)). pose proof (Hv3 Hupd) as Hvk.
      split; [|split; [|split; [|split]]].
      * intros j1 w. rewrite lookup_insert. case_decide as Hjk.
        -- intros [= <-]. subst j1. lia.
        -- apply N1.
      * intros _. rewrite Hupd, lookup_insert_eq, Hvk. split; [done | lia].
      * by rewrite Hupd.
      * lia.
      * intros k' Hk'. specialize (N5 k' Hk'). lia.
    + apply Nat.ltb_ge in Hcmp.
      split; [|split; [|split; [|split]]]; try done.
      * intros j1 w. rewrite lookup_insert. case_decide as Hjk.
        -- intros [= <-]. subst j1. lia.
        -- apply N1.
      * intros Hin. apply in_app_or in Hin as [Hin | [Hjk | []]].
        -- destruct (N2 Hin) as [Hl ?]. split; [|done]. rewrite lookup_insert.
           case_decide as Hjk; [|done]. f_equal. by apply Hv3.
        -- rewrite Hjk at 1. rewrite lookup_insert_eq, (Hv3 Hjk). split; [done|].
           rewrite <- (Hv3 Hjk). lia.
Qed.

End Row.


(** *** All the rows *)

Lemma row_step_invariant l k st :
  (k < length l)%nat ->
  rows_invariant l k st ->
  rows_invariant l (S k) (row_step l l 0 (length l) st k).
Proof.
  intros Hlt Hinv. unfold row_step.
  destruct (lookup_lt_is_Some_2 l k Hlt) as [x Hx]. rewrite Hx.
  destruct st as [j2len [[bi bj] bs]]. cbn [fst snd].
  destruct (b2j l !! x) as [js|] eqn:Hjs; cbn [from_option id].
  - pose proof (scan_row_invariant l k x js j2len (bi, bj, bs) Hx Hjs Hinv js [] ∅
                  (bi, bj, bs) eq_refl) as Hrow.
    destruct Hinv as (I1 & I2 & I3 & I4 & I5).
    destruct (scan_row k 0 (length l) j2len js ∅ (bi, bj, bs))
      as [newj2len [[bi' bj'] bs']].
    destruct Hrow as (N1 & N2 & N3 & N4 & N5).
    { split; [intros j v; by rewrite lookup_empty|].
      split; [intros []|]. split; [done|]. split; [lia | exact I5]. }
    assert (Hin : In k js) by (by apply (js_positions l x js Hjs)).
    destruct (N2 Hin) as [Hd Hb].
    split; [exact N1|]. split; [|split; [done|split; [done|]]].
    + intros k' [= <-]. by rewrite Hd.
    + intros k' Hk'. destruct (decide (k' = S k)) as [->|]; [done|].
      apply N5. lia.
  - destruct Hinv as (I1 & I2 & I3 & I4 & I5).
    pose proof (run_S_popular l k (indexed_at_false l k x Hx Hjs)) as Hrun.
    cbn [scan_row].
    split; [|split; [|split; [done|split; [lia|]]]].
    + intros j v. by rewrite lookup_empty.
    + intros k' [= <-]. by rewrite lookup_empty, Hrun.
    + intros k' Hk'. destruct (decide (k' = S k)) as [->|]; [lia|].
      apply I5. lia.
Qed.

Lemma rows_invariant_fold l k :
  (k <= length l)%nat ->
  rows_invariant l k
    (fold_left (row_step l l 0 (length l)) (seq 0 k) (∅, (0, 0, 0)%nat)).
Proof.
  induction k as [|k IH]; intros Hk.
  - simpl. split; [|split; [|split; [done|split; [done|]]]].
    + intros j v. by rewrite lookup_empty.
    + intros k' [=].
    + intros k' Hk'. replace k' with 0%nat by lia. done.
  - rewrite seq_S, fold_left_app. cbn [fold_left Nat.add].
    apply row_step_invariant; [lia|]. apply IH. lia.
Qed.

(** *** The two extensions along the diagonal *)

Lemma extend_left_diagonal (l : list str) (i size : nat) :
  extend_left l l 0 0 i i size = (0, 0, i + size)%nat.
Proof.
  revert size. induction i as [|i IH]; intros size; [done|].
  cbn [extend_left]. rewrite bool_decide_eq_true_2 by done.
  replace (0 <? S i)%nat with true by (symmetry; apply Nat.ltb_lt; lia).
  cbn [andb]. rewrite IH. f_equal. lia.
Qed.

Lemma extend_right_diagonal (l : list str) (turns size : nat) :
  (size + turns = length l)%nat ->
  extend_right l l turns (length l) (length l) 0 0 size = length l.
Proof.
  revert size. induction turns as [|turns IH]; intros size Hlen.
  - simpl. lia.
  - cbn [extend_right]. rewrite bool_decide_eq_true_2 by done.
    replace (0 + size <? length l)%nat with true by (symmetry; apply Nat.ltb_lt; lia).
    cbn [andb]. apply IH. lia.
Qed.

(** On two copies of a sequence, the longest match is the whole
    sequence. *)
Lemma find_longest_match_identical (l : list str) :
  find_longest_match l l 0 (length l) 0 (length l) = (0, 0, length l)%nat.
Proof.
  unfold find_longest_match. rewrite Nat.sub_0_r.
  pose proof (rows_invariant_fold l (length l) (Nat.le_refl _)) as Hinv.
  destruct (fold_left _ _ _) as [j2len [[bi bj] bs]].
  destruct Hinv as (_ & _ & <- & Hle & _). cbn [snd].
  rewrite extend_left_diagonal.
  rewrite extend_right_diagonal; [reflexivity | lia].
Qed.

(** *** From the longest match to the diff *)

Lemma blocks_loop_identical (l : list str) :
  blocks_loop l l (2 * length l + 1) [(0, length l, 0, length l)%nat] []
  = Some (if (length l =? 0)%nat then [] else [(0, 0, length l)%nat]).
Proof.
  replace (2 * length l + 1)%nat with (S (2 * length l)) by lia.
  cbn [blocks_loop]. rewrite find_longest_match_identical.
  destruct (length l =? 0)%nat eqn:Hn.
  - by destruct (2 * length l)%nat.
  - rewrite Nat.ltb_irrefl. cbn [andb Nat.add].
    rewrite Nat.ltb_irrefl. cbn [andb app].
    by destruct (2 * length l)%nat.
Qed.

Lemma get_matching_blocks_identical (l : list str) :
  get_matching_blocks l l
  = Some (if (length l =? 0)%nat then [(0, 0, 0)%nat]
          else [(0, 0, length l); (length l, length l, 0)]%nat).
Proof.
  unfold get_matching_blocks. rewrite blocks_loop_identical.
  destruct (length l =? 0)%nat eqn:Hn.
  - apply Nat.eqb_eq in Hn. rewrite Hn. reflexivity.
  - cbn [sort_blocks fold_right insert_block fold_left merge_step Nat.add Nat.eqb andb].
    rewrite Hn. reflexivity.
Qed.

Lemma get_opcodes_identical (l : list str) :
  get_opcodes l l
  = Some (if (length l =? 0)%nat then []
          else [(Equal, 0, length l, 0, length l)%nat]).
Proof.
  unfold get_opcodes. rewrite get_matching_blocks_identical.
  generalize (length l) as n. intros [|n]; [reflexivity|].
  cbn [Nat.eqb fold_left]. unfold opcode_step.
  rewrite !Nat.ltb_irrefl. cbn [andb Nat.add Nat.eqb app snd]. reflexivity.
Qed.

Lemma get_grouped_opcodes_identical (l : list str) :
  get_grouped_opcodes l l 3 = Some [].
Proof.
  unfold get_grouped_opcodes. rewrite get_opcodes_identical.
  generalize (length l) as n. intros [|n]; [reflexivity|].
  cbn [Nat.eqb trim_first trim_last fold_left]. unfold group_step.
  cbn [is_equal andb app].
  replace (3 + 3 <? _)%nat with false; [reflexivity|].
  symmetry. apply Nat.ltb_ge. lia.
Qed.

(** The unified diff of a sequence of lines with itself has no line. *)
Lemma unified_diff_identical (l : list str) (fromfile tofile : str) :
  unified_diff l l fromfile tofile = Some [].
Proof. unfold unified_diff. by rewrite get_grouped_opcodes_identical. Qed.

End DifflibFacts.

(** ** Properties of [compute_diff] *)

Module DiffClaims.
Import DiffAnalyzer.

(** C7.  For every text [x], [compute_diff(x, x)] returns a result whose
    [added_lines] and [removed_lines] are empty ([changed_lines] is empty
    as well): [difflib] finds the whole sequence of lines as one matching
    block and [unified_diff] yields no line. *)
Theorem compute_diff_identical_is_empty :
  forall (x : str),
    exists r : DiffResult,
      compute_diff x x = Some r
      /\ added_lines r = []
      /\ removed_lines r = []
      /\ changed_lines r = []
      /\ package_path r = extract_package_path x.
Proof.
  intros x. unfold compute_diff.
  rewrite DifflibFacts.unified_diff_identical. cbn [fold_left].
  eexists. split; [reflexivity|]. by repeat split.
Qed.

(** The scenario of the test suite. *)
Example compute_diff_identical_sample :
  compute_diff (u "package com.example;
public class A {}") (u "package com.example;
public class A {}")
  = Some {| package_path := u "com.example";
            added_lines := []; removed_lines := []; changed_lines := [] |}.
Proof. vm_compute. reflexivity. Qed.

(** A changed line, for comparison: one line removed, one added. *)
Example compute_diff_modified_sample :
  compute_diff (u "package com.example;
new line
") (u "package com.example;
old line
")
  = Some {| package_path := u "com.example";
            added_lines := [u "new line
"];
            removed_lines := [u "old line
"];
            changed_lines := [u "--- history"; u "+++ current"; u "@@ -1,2 +1,2 @@";
                              u "-old line
"; u "+new line
"] |}.
Proof. vm_compute. reflexivity. Qed.

End DiffClaims.

(** ** [SequenceMatcher] comes to an end *)

Module DifflibTotal.
Import Difflib DifflibTermination.

Section Ranges.
Variables a b : list str.
Variables alo blo bhi : nat.
Hypothesis Hb : (blo <= bhi)%nat.

Lemma scan_row_within i j2len js :
  (alo <= i)%nat ->
  (forall j v, j2len !! j = Some v -> (v <= i - alo /\ v <= S j - blo)%nat) ->
  forall newj2len best,
    within_ranges alo blo bhi (S i) (newj2len, best) ->
    within_ranges alo blo bhi (S i) (scan_row i blo bhi j2len js newj2len best).
Proof.
  intros Hi Hj2. induction js as [|j js IH]; intros newj2len best Hinv; [done|].
  cbn [scan_row].
  destruct (j <? blo)%nat eqn:Hlo; [by apply IH|].
  destruct (bhi <=? j)%nat eqn:Hhi; [done|].
  apply Nat.ltb_ge in Hlo. apply Nat.leb_gt in Hhi. cbv zeta.
  set (v := (match j with
             | O => 0
             | S j' => default 0 (j2len !! j')
             end + 1)%nat).
  assert (Hv : (v <= S i - alo /\ v <= S j - blo)%nat).
  { subst v. destruct j as [|j']; [lia|].
    destruct (j2len !! j') as [w|] eqn:Hw; cbn [from_option id]; [|lia].
    destruct (Hj2 j' w Hw). lia. }
  apply IH. destruct best as [[bi bj] bs].
  destruct Hinv as (N1 & N2 & N3 & N4 & N5).
  assert (Hnew : forall j1 w, <[j := v]> newj2len !! j1 = Some w ->
                              (w <= S i - alo /\ w <= S j1 - blo)%nat).
  { intros j1 w. rewrite lookup_insert. case_decide as Hjk.
    - intros [= <-]. subst j1. exact Hv.
    - apply N1. }
  cbn [snd]. destruct (bs <? v)%nat.
  - split; [exact Hnew|]. lia.
  - split; [exact Hnew|]. done.
Qed.

Lemma row_step_within i st :
  (alo <= i)%nat ->
  within_ranges alo blo bhi i st ->
  within_ranges alo blo bhi (S i) (row_step a b blo bhi st i).
Proof.
  intros Hi Hinv. destruct st as [j2len [[bi bj] bs]].
  destruct Hinv as (I1 & I2 & I3 & I4 & I5).
  unfold row_step. destruct (a !! i) as [x|]; cbn [fst snd].
  - apply scan_row_within; [done | exact I1 |].
    split; [intros j v; by rewrite lookup_empty|]. lia.
  - split; [|lia]. intros j v Hv. destruct (I1 j v Hv). lia.
Qed.

Lemma rows_within n :
  within_ranges alo blo bhi (alo + n)
    (fold_left (row_step a b blo bhi) (seq alo n) (∅, (alo, blo, 0)%nat)).
Proof.
  induction n as [|n IH].
  - simpl. split; [intros j v; by rewrite lookup_empty|]. lia.
  - rewrite seq_S, fold_left_app. cbn [fold_left].
    replace (alo + S n)%nat with (S (alo + n)) by lia.
    apply row_step_within; [lia | exact IH].
Qed.

Lemma extend_left_within besti bestj bestsize :
  (alo <= besti)%nat -> (blo <= bestj)%nat ->
  let '(i, j, k) := extend_left a b alo blo besti bestj bestsize in
  (alo <= i)%nat /\ (blo <= j)%nat
  /\ (i + k = besti + bestsize)%nat /\ (j + k = bestj + bestsize)%nat.
Proof.
  revert bestj bestsize. induction besti as [|i' IH]; intros bestj bestsize Hi Hj.
  - simpl. lia.
  - cbn [extend_left]. destruct bestj as [|j']; [lia|].
    destruct (_ && _) eqn:Hc; [|lia].
    apply andb_prop in Hc as [Hc _]. apply andb_prop in Hc as [Hc1 Hc2].
    apply Nat.ltb_lt in Hc1. apply Nat.ltb_lt in Hc2.
    specialize (IH j' (S bestsize) ltac:(lia) ltac:(lia)).
    destruct (extend_left a b alo blo i' j' (S bestsize)) as [[i j] k]. lia.
Qed.

Lemma extend_right_within turns ahi besti bestj bestsize :
  (besti + bestsize <= ahi)%nat -> (bestj + bestsize <= bhi)%nat ->
  let k := extend_right a b turns ahi bhi besti bestj bestsize in
  (bestsize <= k)%nat /\ (besti + k <= ahi)%nat /\ (bestj + k <= bhi)%nat.
Proof.
  revert bestsize. induction turns as [|turns IH]; intros bestsize Hi Hj.
  - simpl. lia.
  - cbn [extend_right]. destruct (_ && _) eqn:Hc; [|lia].
    apply andb_prop in Hc as [Hc _]. apply andb_prop in Hc as [Hc1 Hc2].
    apply Nat.ltb_lt in Hc1. apply Nat.ltb_lt in Hc2.
    specialize (IH (S bestsize) ltac:(lia) ltac:(lia)). cbv zeta in IH. lia.
Qed.

(** The match found lies within the two ranges. *)
Lemma find_longest_match_within ahi :
  (alo <= ahi)%nat ->
  let '(i, j, k) := find_longest_match a b alo ahi blo bhi in
  (alo <= i)%nat /\ (blo <= j)%nat /\ (i + k <= ahi)%nat /\ (j + k <= bhi)%nat.
Proof.
  intros Ha. unfold find_longest_match.
  pose proof (rows_within (ahi - alo)) as Hinv.
  replace (alo + (ahi - alo))%nat with ahi in Hinv by lia.
  destruct (fold_left _ _ _) as [j2len [[bi bj] bs]].
  destruct Hinv as (_ & I2 & I3 & I4 & I5). cbn [snd].
  pose proof (extend_left_within bi bj bs I2 I3) as Hl.
  destruct (extend_left a b alo blo bi bj bs) as [[i j] k].
  destruct Hl as (L1 & L2 & L3 & L4).
  pose proof (extend_right_within (ahi - (i + k)) ahi i j k ltac:(lia) ltac:(lia)) as Hr.
  cbv zeta in Hr. lia.
Qed.

End Ranges.

Lemma blocks_loop_ends (a b : list str) (turns : nat) :
  forall queue blocks,
    Forall range_ok queue ->
    (queue_weight queue <= turns)%nat ->
    is_Some (blocks_loop a b turns queue blocks).
Proof.
  induction turns as [|turns IH]; intros queue blocks Hok Hw.
  - destruct queue as [|[[[alo ahi] blo] bhi] queue]; [by eexists|].
    simpl in Hw. lia.
  - destruct queue as [|[[[alo ahi] blo] bhi] queue]; [by eexists|].
    apply Forall_cons in Hok as [[Ha Hb] Hok].
    cbn [blocks_loop]. cbn [queue_weight fold_right range_weight] in Hw.
    fold (queue_weight queue) in Hw.
    pose proof (find_longest_match_within a b alo blo bhi Hb ahi Ha) as Hm.
    destruct (find_longest_match a b alo ahi blo bhi) as [[i j] k].
    destruct Hm as (M1 & M2 & M3 & M4).
    destruct (k =? 0)%nat eqn:Hk; [apply IH; [done | lia]|].
    apply Nat.eqb_neq in Hk.
    destruct ((alo <? i)%nat && (blo <? j)%nat);
      destruct ((i + k <? ahi)%nat && (j + k <? bhi)%nat);
      apply IH; repeat (apply Forall_cons; split); try done;
      cbn [queue_weight fold_right range_weight]; fold (queue_weight queue);
      try (split; lia); lia.
Qed.

Lemma get_matching_blocks_ends (a b : list str) : is_Some (get_matching_blocks a b).
Proof.
  unfold get_matching_blocks.
  destruct (blocks_loop_ends a b (2 * length a + 1)
              [(0, length a, 0, length b)%nat] []) as [blocks ->].
  - apply Forall_cons. split; [split; lia | constructor].
  - simpl. lia.
  - destruct (fold_left _ _ _) as [[[i1 j1] k1] non_adjacent]. by eexists.
Qed.

Lemma unified_diff_ends (a b : list str) (fromfile tofile : str) :
  is_Some (unified_diff a b fromfile tofile).
Proof.
  unfold unified_diff, get_grouped_opcodes, get_opcodes.
  destruct (get_matching_blocks_ends a b) as [blocks ->].
  destruct (fold_left (group_step 3) _ _) as [group yielded].
  repeat case_match; by eexists.
Qed.

(** [compute_diff] returns a result for every pair of texts. *)
Lemma compute_diff_ends (current_code history_code : str) :
  is_Some (DiffAnalyzer.compute_diff current_code history_code).
Proof.
  unfold DiffAnalyzer.compute_diff.
  destruct (unified_diff_ends (DiffAnalyzer.splitlines history_code)
              (DiffAnalyzer.splitlines current_code)
              DiffAnalyzer.HISTORY DiffAnalyzer.CURRENT) as [diff ->].
  destruct (fold_left DiffAnalyzer.classify diff ([], [], [])) as [[added removed] changed].
  by eexists.
Qed.

End DifflibTotal.

(** ** Order properties of binary64 rounding *)

Module F64Order.
Import F64 F64Facts.
Local Open Scope Q_scope.

(** *** Powers of two and the exponent of a binade *)

Lemma pow2_Qpower (e : Z) : pow2 e == 2 ^ e.
Proof.
  destruct e as [|p|p]; [reflexivity| |].
  - unfold pow2. change (Z.pow_pos 2 p) with (2 ^ Z.pos p)%Z.
    rewrite Zpower_Qpower by lia. reflexivity.
  - unfold pow2. change (Z.neg p) with (- Z.pos p)%Z. rewrite Qpower_opp.
    rewrite <- (Zpower_Qpower 2 (Z.pos p)) by lia.
    rewrite <- Pos2Z.inj_pow. reflexivity.
Qed.

Lemma pow2_add (a b : Z) : pow2 (a + b) == pow2 a * pow2 b.
Proof. rewrite !pow2_Qpower. apply Qpower_plus. discriminate. Qed.

Lemma pow2_le (a b : Z) : (a <= b)%Z -> pow2 a <= pow2 b.
Proof. intros H. rewrite !pow2_Qpower. apply Qpower_le_compat_l; [done | discriminate]. Qed.

Lemma pow2_lt_inv (a b : Z) : pow2 a < pow2 b -> (a < b)%Z.
Proof. rewrite !pow2_Qpower. intros H. eapply Qpower_lt_compat_l_inv; [exact H | reflexivity]. Qed.


Lemma Qmake_div (p : Z) (q : positive) : p # q == inject_Z p / inject_Z (Z.pos q).
Proof. apply Qmake_Qdiv. Qed.

Lemma log2_bounds (n : Z) :
  (0 < n)%Z -> inject_Z (2 ^ Z.log2 n) <= inject_Z n /\ inject_Z n < 2 * inject_Z (2 ^ Z.log2 n).
Proof.
  intros H. pose proof (Z.log2_spec n H) as [H1 H2].
  split; [by rewrite <- Zle_Qle|].
  change 2 with (inject_Z 2). rewrite <- inject_Z_mult, <- Zlt_Qlt.
  replace (Z.succ (Z.log2 n)) with (1 + Z.log2 n)%Z in H2 by lia.
  rewrite Z.pow_add_r in H2; [lia | lia | apply Z.log2_nonneg].
Qed.

Lemma Qdiv_lt_cross (a b c d : Q) :
  0 < b -> 0 < d -> a * d < c * b -> a / b < c / d.
Proof.
  intros Hb Hd H. apply Qlt_shift_div_r; [done|].
  assert (E : c / d * b == c * b / d) by (field; lra). rewrite E.
  apply Qlt_shift_div_l; [done|]. exact H.
Qed.

Lemma Qdiv_le_cross (a b c d : Q) :
  0 < b -> 0 < d -> a * d <= c * b -> a / b <= c / d.
Proof.
  intros Hb Hd H. apply Qle_shift_div_r; [done|].
  assert (E : c / d * b == c * b / d) by (field; lra). rewrite E.
  apply Qle_shift_div_l; [done|]. exact H.
Qed.

(** [ilog2 x] is the exponent of the binade of [x]. *)
Lemma ilog2_spec (x : Q) : 0 < x -> pow2 (ilog2 x) <= x /\ x < pow2 (ilog2 x + 1).
Proof.
  intros Hpos. destruct x as [p q].
  assert (Hp : (0 < p)%Z) by (unfold Qlt in Hpos; simpl in Hpos; lia).
  unfold ilog2. cbn [Qnum Qden].
  set (lp := Z.log2 p). set (lq := Z.log2 (Z.pos q)).
  destruct (log2_bounds p Hp) as [Hp1 Hp2]. fold lp in Hp1, Hp2.
  destruct (log2_bounds (Z.pos q) ltac:(lia)) as [Hq1 Hq2]. fold lq in Hq1, Hq2.
  assert (Hlp : (0 <= lp)%Z) by apply Z.log2_nonneg.
  assert (Hlq : (0 <= lq)%Z) by apply Z.log2_nonneg.
  rewrite <- (pow2_nonneg lp Hlp) in Hp1, Hp2.
  rewrite <- (pow2_nonneg lq Hlq) in Hq1, Hq2.
  pose proof (pow2_pos lp) as HA. pose proof (pow2_pos lq) as HB.
  assert (HQ : 0 < inject_Z (Z.pos q)) by (apply (Qlt_le_trans _ (pow2 lq)); assumption).
  assert (HP : 0 < inject_Z p) by (apply (Qlt_le_trans _ (pow2 lp)); assumption).
  assert (Hd : forall k : Z, pow2 (lp - lq + k) == pow2 lp * pow2 k / pow2 lq).
  { intros k. replace (lp - lq + k)%Z with (lp + k + - lq)%Z by lia.
    rewrite !pow2_add. rewrite (pow2_Qpower (- lq)), Qpower_opp, <- pow2_Qpower.
    reflexivity. }
  pose proof (Qmake_div p q) as Hx.
  destruct (Qle_bool _ _) eqn:Hb.
  - apply Qle_bool_iff in Hb. split; [exact Hb|].
    rewrite Hd, Hx. change (pow2 1) with 2.
    apply Qdiv_lt_cross; [done | done | nra].
  - assert (Hlt : p # q < pow2 (lp - lq)).
    { apply Qnot_le_lt. intros H. apply Qle_bool_iff in H. congruence. }
    split.
    + replace (lp - lq - 1)%Z with (lp - lq + -1)%Z by lia. rewrite Hd, Hx.
      change (pow2 (-1)) with (1 # 2).
      apply Qdiv_le_cross; [done | done | nra].
    + replace (lp - lq - 1 + 1)%Z with (lp - lq)%Z by lia. exact Hlt.
Qed.

Lemma ilog2_ge (x : Q) (n : Z) : 0 < x -> pow2 n <= x -> (n <= ilog2 x)%Z.
Proof.
  intros Hpos H. destruct (ilog2_spec x Hpos) as [_ Hhi].
  assert (Hlt : pow2 n < pow2 (ilog2 x + 1)) by (eapply Qle_lt_trans; eauto).
  apply pow2_lt_inv in Hlt. lia.
Qed.

Lemma ilog2_mono (x y : Q) : 0 < x -> x <= y -> (ilog2 x <= ilog2 y)%Z.
Proof.
  intros Hpos H. apply ilog2_ge; [lra|].
  destruct (ilog2_spec x Hpos) as [Hlo _]. lra.
Qed.

Lemma rne_mono (x y : Q) : x <= y -> (rne x <= rne y)%Z.
Proof.
  intros H. pose proof (Qfloor_resp_le _ _ H) as Hf.
  destruct (Z.eq_dec (Qfloor x) (Qfloor y)) as [E|N].
  - unfold rne. rewrite <- E.
    destruct (Qcompare_spec (x - inject_Z (Qfloor x)) (1 # 2)) as [Hx|Hx|Hx];
      destruct (Qcompare_spec (y - inject_Z (Qfloor x)) (1 # 2)) as [Hy|Hy|Hy];
      try destruct (Z.even (Qfloor x)); try lia; exfalso; lra.
  - apply Z.le_trans with (Qfloor y).
    + destruct (rne_cases x) as [-> | [-> _]]; lia.
    + apply rne_ge, Qfloor_le.
Qed.

Lemma pow2_div (a b : Z) : pow2 a / pow2 b == pow2 (a - b).
Proof.
  replace (a - b)%Z with (a + - b)%Z by lia.
  rewrite pow2_add, (pow2_Qpower (- b)), Qpower_opp, <- pow2_Qpower. reflexivity.
Qed.

Lemma rnd_pos_scaled (x : Q) :
  rnd_pos x == inject_Z (rne (x / pow2 (ulp_exp x))) * pow2 (ulp_exp x).
Proof. unfold rnd_pos. apply Qred_correct. Qed.

(** A power of two that is a multiple of the unit in the last place of
    [x] bounds the rounding of [x] as it bounds [x]. *)
Lemma rnd_pos_le_pow2 (x : Q) (k : Z) :
  (ulp_exp x <= k)%Z -> x <= pow2 k -> rnd_pos x <= pow2 k.
Proof.
  intros Hk Hx. rewrite rnd_pos_scaled. set (e := ulp_exp x) in *.
  pose proof (pow2_pos e) as He.
  assert (E : pow2 k == inject_Z (2 ^ (k - e)) * pow2 e).
  { rewrite <- pow2_nonneg by lia. rewrite <- pow2_add. by replace (k - e + e)%Z with k by lia. }
  rewrite E. apply Qmult_le_compat_r; [|lra].
  rewrite <- Zle_Qle. apply rne_le. apply Qle_shift_div_r; [done|]. by rewrite <- E.
Qed.

Lemma rnd_pos_ge_pow2 (x : Q) (k : Z) :
  (ulp_exp x <= k)%Z -> pow2 k <= x -> pow2 k <= rnd_pos x.
Proof.
  intros Hk Hx. rewrite rnd_pos_scaled. set (e := ulp_exp x) in *.
  pose proof (pow2_pos e) as He.
  assert (E : pow2 k == inject_Z (2 ^ (k - e)) * pow2 e).
  { rewrite <- pow2_nonneg by lia. rewrite <- pow2_add. by replace (k - e + e)%Z with k by lia. }
  rewrite E. apply Qmult_le_compat_r; [|lra].
  rewrite <- Zle_Qle. apply rne_ge. apply Qle_shift_div_l; [done|]. by rewrite <- E.
Qed.

Lemma rnd_pos_mono (x y : Q) : 0 < x -> x <= y -> rnd_pos x <= rnd_pos y.
Proof.
  intros Hpos H. assert (Hy : 0 < y) by lra.
  pose proof (ilog2_mono x y Hpos H) as Hl.
  destruct (ilog2_spec x Hpos) as [_ Hxhi]. destruct (ilog2_spec y Hy) as [Hylo _].
  destruct (Z.eq_dec (ulp_exp x) (ulp_exp y)) as [E|N].
  - rewrite !rnd_pos_scaled, <- E. pose proof (pow2_pos (ulp_exp x)) as He.
    apply Qmult_le_compat_r; [|lra]. rewrite <- Zle_Qle. apply rne_mono.
    apply Qle_shift_div_l; [done|].
    assert (E' : x / pow2 (ulp_exp x) * pow2 (ulp_exp x) == x) by (field; lra).
    by rewrite E'.
  - assert (Hlt : (ilog2 x < ilog2 y)%Z /\ (ulp_exp x <= ilog2 y)%Z
                  /\ (ulp_exp y <= ilog2 y)%Z).
    { unfold ulp_exp, prec, emin in *. lia. }
    destruct Hlt as (Hlt & Hex & Hey).
    apply Qle_trans with (pow2 (ilog2 y)).
    + apply rnd_pos_le_pow2; [done|].
      apply Qle_trans with (pow2 (ilog2 x + 1)); [lra | apply pow2_le; lia].
    + by apply rnd_pos_ge_pow2.
Qed.

(** Rounding to binary64 is monotone. *)
Lemma rnd_mono (x y : Q) : x <= y -> rnd x <= rnd y.
Proof.
  intros H. unfold rnd. pose proof (Qnum_sign x) as Hx. pose proof (Qnum_sign y) as Hy.
  destruct (Qnum x) eqn:Ex; destruct (Qnum y) eqn:Ey; rewrite ?Qred_correct;
    try (exfalso; lra); try lra.
  - apply rnd_pos_nonneg. lra.
  - by apply rnd_pos_mono.
  - pose proof (rnd_pos_nonneg (- x) ltac:(lra)). lra.
  - pose proof (rnd_pos_nonneg (- x) ltac:(lra)).
    pose proof (rnd_pos_nonneg y ltac:(lra)). lra.
  - pose proof (rnd_pos_mono (- y) (- x) ltac:(lra) ltac:(lra)). lra.
Qed.

(** *** Integers below 2^53 are binary64 numbers *)

Lemma rnd_pos_ge_int (x : Q) (B : Z) :
  0 < x -> x < inject_Z (2 ^ 53) -> inject_Z B <= x -> inject_Z B <= rnd_pos x.
Proof.
  intros H0 H1 Hx. pose proof (ulp_exp_nonpos x H0 H1) as He.
  rewrite rnd_pos_scaled. set (e := ulp_exp x) in *.
  pose proof (pow2_nonpos e He) as Hinv. pose proof (pow2_pos e) as Hp.
  assert (E : inject_Z B == inject_Z (B * 2 ^ (- e)) * pow2 e).
  { rewrite inject_Z_mult, <- Qmult_assoc, (Qmult_comm (inject_Z (2 ^ (- e)))), Hinv.
    by rewrite Qmult_1_r. }
  rewrite E at 1. apply Qmult_le_compat_r; [|lra].
  rewrite <- Zle_Qle. apply rne_ge. apply Qle_shift_div_l; [done|]. by rewrite <- E.
Qed.

Lemma rnd_int (n : Z) : (0 <= n < 2 ^ 53)%Z -> rnd (inject_Z n) == inject_Z n.
Proof.
  intros Hn. apply Qle_antisym.
  - apply rnd_le_int; [done | apply Qle_refl].
  - destruct (Z.eq_dec n 0%Z) as [->|Hne]; [apply Qle_refl|].
    assert (Hpos : 0 < inject_Z n) by (change 0 with (inject_Z 0); rewrite <- Zlt_Qlt; lia).
    unfold rnd. pose proof (Qnum_sign (inject_Z n)) as Hs.
    destruct (Qnum (inject_Z n)); [lra | | lra].
    apply rnd_pos_ge_int; [done | rewrite <- Zlt_Qlt; lia | apply Qle_refl].
Qed.

Lemma rnd_ge_int (x : Q) (B : Z) :
  (0 <= B < 2 ^ 53)%Z -> inject_Z B <= x -> inject_Z B <= rnd x.
Proof.
  intros HB Hx. rewrite <- (rnd_int B HB). by apply rnd_mono.
Qed.

(** *** The operations are monotone *)

Lemma add_mono (x x' y y' : Q) : x <= x' -> y <= y' -> add x y <= add x' y'.
Proof. intros. apply rnd_mono. lra. Qed.

Lemma mul_mono (x x' c : Q) : 0 <= c -> x <= x' -> mul x c <= mul x' c.
Proof. intros. apply rnd_mono. by apply Qmult_le_compat_r. Qed.

Lemma truediv_mono (c c' t : Z) : (0 < t)%Z -> (c <= c')%Z -> truediv c t <= truediv c' t.
Proof.
  intros Ht Hc. apply rnd_mono. unfold Qdiv. apply Qmult_le_compat_r.
  - by rewrite <- Zle_Qle.
  - apply Qlt_le_weak, Qinv_lt_0_compat. change 0 with (inject_Z 0). by rewrite <- Zlt_Qlt.
Qed.

Lemma round_mono (x y : Q) (nd : nat) : x <= y -> round x nd <= round y nd.
Proof.
  intros H. unfold round. pose proof (pow10_pos nd) as Hp. apply rnd_mono.
  unfold Qdiv. apply Qmult_le_compat_r.
  - rewrite <- Zle_Qle. apply rne_mono. apply Qmult_le_compat_r; [done | lra].
  - apply Qlt_le_weak, Qinv_lt_0_compat, Hp.
Qed.

Lemma round_ge_int (x : Q) (nd : nat) (B : Z) :
  (0 <= B < 2 ^ 53)%Z -> inject_Z B <= x -> inject_Z B <= round x nd.
Proof.
  intros HB Hx. unfold round. pose proof (pow10_pos nd) as Hp. apply rnd_ge_int; [done|].
  apply Qle_shift_div_l; [done|].
  rewrite <- inject_Z_mult, <- Zle_Qle. apply rne_ge.
  rewrite inject_Z_mult. apply Qmult_le_compat_r; [done | lra].
Qed.

Lemma min_mono (a y y' : Q) : y <= y' -> min a y <= min a y'.
Proof.
  intros H. unfold min.
  destruct (Qlt_le_dec y a); destruct (Qlt_le_dec y' a); lra.
Qed.

Lemma max_mono (a y y' : Q) : y <= y' -> max a y <= max a y'.
Proof.
  intros H. unfold max.
  destruct (Qlt_le_dec a y); destruct (Qlt_le_dec a y'); lra.
Qed.

Lemma min_ge (a y lo : Q) : lo <= a -> lo <= y -> lo <= min a y.
Proof. intros. unfold min. destruct (Qlt_le_dec y a); lra. Qed.

Lemma max_ge (a y lo : Q) : lo <= y -> lo <= max a y.
Proof. intros. unfold max. destruct (Qlt_le_dec a y); lra. Qed.

(** *** Equal rationals round to equal numbers *)

Lemma rnd_proper (x y : Q) : x == y -> rnd x == rnd y.
Proof. intros H. apply Qle_antisym; apply rnd_mono; rewrite H; apply Qle_refl. Qed.

Lemma round_proper (x y : Q) (nd : nat) : x == y -> round x nd == round y nd.
Proof. intros H. apply Qle_antisym; apply round_mono; rewrite H; apply Qle_refl. Qed.

Lemma truediv_same (n : Z) : (0 < n)%Z -> truediv n n == 1.
Proof.
  intros Hn. unfold truediv. change 1 with (rnd 1). apply rnd_proper.
  apply Qmult_inv_r. change 0 with (inject_Z 0). rewrite inject_Z_injective. lia.
Qed.

End F64Order.

(** ** Further properties of the coverage analyzer *)

Module CoverageExtras.
Import CoverageAnalyzer CoverageSpec CoverageFacts Notions.
Local Open Scope Z_scope.

(** *** The mapping index *)

(** X1.  In the mapping index that [analyze_coverage] builds, a
    qualified name is bound to the description of the last mapping entry
    that carries this name (a later entry overwrites an earlier one); a
    name that no entry carries is absent. *)
Theorem mapping_index_last_entry_wins :
  forall (mapping : list MappingEntry) (k : str),
    build_index mapping !! k
    = description
        <$> List.find (fun e => bool_decide (full_qualified_name e = k)) (rev mapping).
Proof.
  intros mapping k. induction mapping as [|e l IH] using rev_ind; [reflexivity|].
  rewrite CoverageClaims.build_index_snoc, rev_unit. cbn [List.find].
  case_bool_decide as Hk.
  - rewrite Hk. by rewrite lookup_insert_eq.
  - by rewrite lookup_insert_ne.
Qed.

(** *** The result lists and the detail records *)

Lemma map_detail_method (lower : str -> str) idx tests names :
  map detail_method (map (detail_of lower idx tests) names) = names.
Proof. induction names as [|n names IH]; simpl; [done | by rewrite IH]. Qed.

Lemma covered_of_details (lower : str -> str) idx tests names :
  map detail_method
      (List.filter detail_is_covered (map (detail_of lower idx tests) names))
  = List.filter (is_covered lower idx tests) names.
Proof.
  induction names as [|n names IH]; [done|]. cbn [map List.filter].
  change (detail_is_covered (detail_of lower idx tests n))
    with (is_covered lower idx tests n).
  destruct (is_covered lower idx tests n); cbn [map]; by rewrite IH.
Qed.

Lemma uncovered_of_details (lower : str -> str) idx tests names :
  map detail_method
      (List.filter (fun d => negb (detail_is_covered d))
                   (map (detail_of lower idx tests) names))
  = List.filter (fun n => negb (is_covered lower idx tests n)) names.
Proof.
  induction names as [|n names IH]; [done|]. cbn [map List.filter].
  change (detail_is_covered (detail_of lower idx tests n))
    with (is_covered lower idx tests n).
  destruct (is_covered lower idx tests n); cbn [map negb]; by rewrite IH.
Qed.

Lemma existsb_filter_nonempty {A : Type} (p : A -> bool) (l : list A) :
  existsb p l = true <-> List.filter p l <> [].
Proof.
  induction l as [|x l IH]; simpl; [split; [discriminate | congruence]|].
  destruct (p x); simpl; [split; [discriminate | done] | exact IH].
Qed.

Lemma verdict_matched (lower : str -> str) (idx : gmap str str) tests name :
  (verdict lower idx tests name).1 = true
  <-> (verdict lower idx tests name).2 <> [].
Proof.
  unfold verdict. cbv zeta. destruct (truthy (get idx name [])).
  - rewrite scan_tests_spec. cbn [fst snd]. rewrite existsb_filter_nonempty.
    destruct (List.filter _ tests); simpl; split; congruence.
  - cbn [fst snd]. split; [discriminate | congruence].
Qed.

(** X2.  The lists of the result agree with its detail records: there
    is one record per changed method, in order, carrying the method's
    qualified name; [covered_methods] and [uncovered_methods] list, in
    order, the names of the records with [is_covered] true and false;
    a record is covered exactly when its list of matched tests is not
    empty; and no record has an empty description. *)
Theorem coverage_lists_agree_with_details :
  forall (lower : str -> str) (changed : list row) (mapping : list MappingEntry)
         (tests : list TestCase),
    let r := analyze_coverage lower changed mapping tests in
    total_changed_methods r = Z.of_nat (length (coverage_details r))
    /\ map detail_method (coverage_details r) = map method_full_name changed
    /\ covered_methods r
       = map detail_method (List.filter detail_is_covered (coverage_details r))
    /\ uncovered_methods r
       = map detail_method
           (List.filter (fun d => negb (detail_is_covered d)) (coverage_details r))
    /\ (forall d, In d (coverage_details r) ->
          (detail_is_covered d = true <-> detail_matched_tests d <> [])
          /\ detail_description d <> []).
Proof.
  intros lower changed mapping tests r. subst r.
  destruct (list_eq_nil_dec changed) as [->|Hne].
  { unfold analyze_coverage, CoverageResult_error.
    cbn [total_changed_methods coverage_details covered_methods uncovered_methods
         map List.filter length].
    split; [reflexivity|]. split; [reflexivity|]. split; [reflexivity|].
    split; [reflexivity|]. intros d []. }
  rewrite (CoverageClaims.analyze_coverage_nonempty lower changed mapping tests Hne).
  cbn [total_changed_methods coverage_details covered_methods uncovered_methods].
  split; [by rewrite !length_map|].
  split; [apply map_detail_method|].
  split; [symmetry; apply covered_of_details|].
  split; [symmetry; apply uncovered_of_details|].
  intros d Hd. apply in_map_iff in Hd as (name & <- & _).
  unfold detail_of. cbn [detail_is_covered detail_matched_tests detail_description].
  split; [apply verdict_matched|].
  destruct (truthy (get (build_index mapping) name [])) eqn:Ht.
  - by apply truthy_true.
  - discriminate.
Qed.

(** *** The coverage rate *)

Lemma filter_none_all {A : Type} (p : A -> bool) (l : list A) :
  List.filter (fun x => negb (p x)) l = [] -> List.filter p l = l.
Proof.
  induction l as [|x l IH]; simpl; [done|].
  destruct (p x); simpl; [intros H; by rewrite IH | discriminate].
Qed.

(** X3.  When every changed method is covered the coverage rate is
    exactly 1.0, and when none is covered it is exactly 0.0. *)
Theorem coverage_rate_extremes :
  forall (lower : str -> str) (changed : list row) (mapping : list MappingEntry)
         (tests : list TestCase),
    let r := analyze_coverage lower changed mapping tests in
    (changed <> [] -> uncovered_methods r = [] -> (coverage_rate r == 1)%Q)
    /\ (covered_methods r = [] -> coverage_rate r = 0%Q).
Proof.
  intros lower changed mapping tests r. subst r. split.
  - intros Hne.
    rewrite (CoverageClaims.analyze_coverage_nonempty lower changed mapping tests Hne).
    cbn [uncovered_methods coverage_rate]. intros Hun.
    rewrite (filter_none_all _ _ Hun), length_map.
    assert (Hlen : 0 < Z.of_nat (length changed)) by (destruct changed; [done | simpl; lia]).
    change 1%Q with (F64.round 1 4). apply F64Order.round_proper.
    by apply F64Order.truediv_same.
  - destruct (list_eq_nil_dec changed) as [->|Hne]; [reflexivity|].
    rewrite (CoverageClaims.analyze_coverage_nonempty lower changed mapping tests Hne).
    cbn [covered_methods coverage_rate]. intros ->. cbn [length Z.of_nat].
    rewrite F64Facts.truediv_zero. by apply F64Facts.round_zero.
Qed.

Lemma coverage_rate_extremes_witness :
  (coverage_rate (analyze_coverage lower_ascii [Examples.create_user]
                                   Examples.mapping Examples.tests) == 1)%Q
  /\ coverage_rate (analyze_coverage lower_ascii [Examples.delete_user]
                                     Examples.mapping Examples.tests) = 0%Q.
Proof.
  split.
  - apply (coverage_rate_extremes lower_ascii [Examples.create_user]
             Examples.mapping Examples.tests); [discriminate | vm_compute; reflexivity].
  - apply (coverage_rate_extremes lower_ascii [Examples.delete_user]
             Examples.mapping Examples.tests). vm_compute. reflexivity.
Defined.

(** *** More test cases *)

Section WithLower.
Variable lower : str -> str.

Lemma verdict_app (idx : gmap str str) (tests1 tests2 : list TestCase) (name : str) :
  verdict lower idx (tests1 ++ tests2) name
  = ((verdict lower idx tests1 name).1 || (verdict lower idx tests2 name).1,
     (verdict lower idx tests1 name).2 ++ (verdict lower idx tests2 name).2).
Proof.
  unfold verdict. cbv zeta. destruct (truthy (get idx name [])); [|reflexivity].
  rewrite !scan_tests_spec. cbn [fst snd].
  by rewrite existsb_app, List.filter_app, map_app.
Qed.

Lemma filter_incl_impl {A : Type} (p q : A -> bool) (l : list A) :
  (forall x, p x = true -> q x = true) -> incl (List.filter p l) (List.filter q l).
Proof.
  intros H x Hx. apply filter_In in Hx as [Hin Hp]. apply filter_In. auto.
Qed.

Lemma filter_length_impl {A : Type} (p q : A -> bool) (l : list A) :
  (forall x, p x = true -> q x = true) ->
  (length (List.filter p l) <= length (List.filter q l))%nat.
Proof.
  intros H. induction l as [|x l IH]; simpl; [lia|].
  destruct (p x) eqn:Hp.
  - rewrite (H x Hp). simpl. lia.
  - destruct (q x); simpl; lia.
Qed.

End WithLower.

(** X4.  Analysing with the test cases [tests1 ++ tests2] gives, for
    every changed method, the union of the two separate analyses: the
    method is covered if it is covered by either list and its matched
    tests are those of [tests1] followed by those of [tests2].  Hence
    adding test cases never uncovers a method and never lowers the
    coverage rate. *)
Theorem analysis_of_joined_test_lists :
  forall (lower : str -> str) (changed : list row) (mapping : list MappingEntry)
         (tests1 tests2 : list TestCase),
    let r1 := analyze_coverage lower changed mapping tests1 in
    let r2 := analyze_coverage lower changed mapping tests2 in
    let r := analyze_coverage lower changed mapping (tests1 ++ tests2) in
    (forall i d, coverage_details r !! i = Some d ->
       exists d1 d2,
         coverage_details r1 !! i = Some d1
         /\ coverage_details r2 !! i = Some d2
         /\ detail_is_covered d = detail_is_covered d1 || detail_is_covered d2
         /\ detail_matched_tests d = detail_matched_tests d1 ++ detail_matched_tests d2)
    /\ incl (covered_methods r1) (covered_methods r)
    /\ incl (uncovered_methods r) (uncovered_methods r1)
    /\ (coverage_rate r1 <= coverage_rate r)%Q.
Proof.
  intros lower changed mapping tests1 tests2 r1 r2 r. subst r1 r2 r.
  destruct (list_eq_nil_dec changed) as [->|Hne].
  { unfold analyze_coverage, CoverageResult_error.
    cbn [coverage_details covered_methods uncovered_methods coverage_rate].
    split; [intros i d H; by rewrite lookup_nil in H|].
    split; [apply incl_refl|]. split; [apply incl_refl | apply Qle_refl]. }
  rewrite !(CoverageClaims.analyze_coverage_nonempty lower changed mapping _ Hne).
  cbn [coverage_details covered_methods uncovered_methods coverage_rate].
  set (idx := build_index mapping). set (names := map method_full_name changed).
  assert (Himp : forall n, is_covered lower idx tests1 n = true ->
                           is_covered lower idx (tests1 ++ tests2) n = true).
  { intros n. unfold is_covered. rewrite verdict_app. cbn [fst]. by intros ->. }
  split; [|split; [|split]].
  - intros i d Hd.
    change (map ?f names) with (f <$> names) in *.
    rewrite list_lookup_fmap in Hd. rewrite !list_lookup_fmap.
    destruct (names !! i) as [n|]; [|discriminate]. cbn in Hd. injection Hd as <-.
    eexists _, _. split; [reflexivity|]. split; [reflexivity|].
    unfold detail_of. cbn [detail_is_covered detail_matched_tests].
    rewrite verdict_app. split; reflexivity.
  - by apply filter_incl_impl.
  - apply filter_incl_impl. intros n Hn. apply negb_true_iff in Hn.
    apply negb_true_iff. destruct (is_covered lower idx tests1 n) eqn:E; [|done].
    apply Himp in E. congruence.
  - apply F64Order.round_mono, F64Order.truediv_mono.
    + destruct changed; [done | simpl; lia].
    + apply inj_le. by apply filter_length_impl.
Qed.

(** *** The parsed tables *)

Lemma lstrip_head (s : str) (c : char) (t : str) :
  lstrip s = c :: t -> isspace c = false.
Proof.
  induction s as [|a s IH]; simpl; [discriminate|].
  destruct (isspace a) eqn:Ha; [exact IH|].
  intros H. injection H as <- _. exact Ha.
Qed.

Lemma lstrip_suffix (s : str) : exists pre, s = pre ++ lstrip s.
Proof.
  induction s as [|a s [pre IH]]; simpl; [by exists []|].
  destruct (isspace a).
  - exists (a :: pre). simpl. by rewrite <- IH.
  - by exists [].
Qed.

Lemma strip_no_outer_space (s : str) : no_outer_space (strip s).
Proof.
  unfold strip, rstrip. set (v := lstrip s). split.
  - intros c t H. destruct (lstrip_suffix (rev v)) as [pre Hpre].
    apply (f_equal (@rev N)) in Hpre. rewrite rev_involutive, rev_app_distr, H in Hpre.
    apply (lstrip_head s c (t ++ rev pre)). exact Hpre.
  - intros c t H. apply (f_equal (@rev N)) in H.
    rewrite rev_involutive, rev_unit in H. by apply lstrip_head in H.
Qed.

(** X5.  Every mapping entry returned by [parse_mapping_data] has a
    non-empty package, class and method name, and every test case
    returned by [parse_test_cases] a non-empty id and function; no field
    of either begins or ends with white space. *)
Theorem parsed_fields_are_trimmed :
  forall rows : list row,
    (forall e, In e (parse_mapping_data rows) ->
       package_name e <> [] /\ class_name e <> [] /\ method_name e <> []
       /\ no_outer_space (package_name e) /\ no_outer_space (class_name e)
       /\ no_outer_space (method_name e) /\ no_outer_space (description e))
    /\ (forall tc, In tc (parse_test_cases rows) ->
       test_id tc <> [] /\ test_function tc <> []
       /\ no_outer_space (test_id tc) /\ no_outer_space (test_function tc)
       /\ no_outer_space (test_steps tc) /\ no_outer_space (expected_result tc)).
Proof.
  intros rows. split.
  - intros e He. rewrite parse_mapping_data_filter in He.
    apply in_map_iff in He as (r & <- & Hr). apply filter_In in Hr as [_ Hc].
    unfold mapping_row_complete in Hc. apply andb_true_iff in Hc as [Hc Hm].
    apply andb_true_iff in Hc as [Hp Hc].
    cbn [mapping_entry_of package_name class_name method_name description].
    rewrite <- !truthy_true. unfold field.
    repeat split; try assumption; apply strip_no_outer_space.
  - intros tc Htc. rewrite parse_test_cases_filter in Htc.
    apply in_map_iff in Htc as (r & <- & Hr). apply filter_In in Hr as [_ Hc].
    unfold test_row_complete in Hc. apply andb_true_iff in Hc as [Hi Hf].
    cbn [test_case_of test_id test_function test_steps expected_result].
    rewrite <- !truthy_true. unfold field.
    repeat split; try assumption; apply strip_no_outer_space.
Qed.

(** *** The fuzzy match on short descriptions *)

(** X6.  For a description with at most three keywords, [_fuzzy_match]
    holds as soon as one keyword occurs in the test function (the
    threshold [max(1, len(keywords) // 2)] is then 1), and it fails for a
    description without any keyword. *)
Theorem _fuzzy_match_few_keywords :
  forall desc test_func : str,
    (length (keywords_of desc) <= 3)%nat ->
    _fuzzy_match desc test_func
    = existsb (fun kw => contains test_func kw) (keywords_of desc).
Proof.
  intros desc test_func Hlen. unfold _fuzzy_match, match_count.
  destruct (keywords_of desc) as [|k1 [|k2 [|k3 [|k4 kws]]]];
    [reflexivity | | | | simpl in Hlen; lia];
    cbn [fold_left existsb length];
    repeat match goal with
           | |- context [contains test_func ?k] => destruct (contains test_func k)
           end; reflexivity.
Qed.

Lemma _fuzzy_match_few_keywords_witness :
  _fuzzy_match (u "用户,订单/退款") (u "订单列表")
  = existsb (fun kw => contains (u "订单列表") kw) (keywords_of (u "用户,订单/退款")).
Proof.
  apply (_fuzzy_match_few_keywords (u "用户,订单/退款") (u "订单列表")).
  vm_compute. lia.
Defined.

End CoverageExtras.

(** ** Further properties of the parser layer and the change detector *)

Module AstExtras.
Import AstParser AstSpec AstNotions.

Section WithJavalang.
Variable javalang : option (str -> ParseOutcome).

Lemma member_fold (pkg cls : str) (members : list Member) (init : list MethodInfo) :
  fold_left (member_info pkg cls) members init = init ++ omap (info_of pkg cls) members.
Proof.
  revert init. induction members as [|m members IH]; intros init; cbn [fold_left].
  - cbn. by rewrite app_nil_r.
  - rewrite IH. destruct m; cbn; by rewrite <- ?app_assoc.
Qed.

Lemma class_fold (pkg : str) (tds : list TypeDeclaration) (init : list ClassInfo) :
  fold_left (fun methods cls => methods ++ AstParser.methods cls)
            (fold_left (class_info pkg) tds init) []
  = fold_left (fun methods cls => methods ++ AstParser.methods cls) init []
      ++ flat_map (methods_of_type pkg) tds.
Proof.
  revert init. induction tds as [|td tds IH]; intros init; cbn [fold_left flat_map].
  - by rewrite app_nil_r.
  - rewrite IH. unfold class_info, methods_of_type, methods_of_body.
    destruct (type_name td) as [cls|]; [|reflexivity].
    rewrite fold_left_app. cbn [fold_left AstParser.methods].
    destruct (body td) as [members|declarations].
    + rewrite member_fold. cbn [app]. by rewrite <- app_assoc.
    + by rewrite app_nil_r.
Qed.

Lemma class_fold_In (pkg cls : str) (tds : list TypeDeclaration) (td : TypeDeclaration)
                    (init : list ClassInfo) :
  In td tds -> type_name td = Some cls ->
  In (mkClassInfo pkg cls (methods_of_body pkg cls (body td)))
     (fold_left (class_info pkg) tds init).
Proof.
  assert (Hkeep : forall tds init ci,
             In ci init -> In ci (fold_left (class_info pkg) tds init)).
  { clear. induction tds as [|td tds IH]; intros init ci Hci; [exact Hci|].
    cbn [fold_left]. apply IH. unfold class_info.
    destruct (type_name td); [|exact Hci]. apply in_or_app. by left. }
  revert init. induction tds as [|td' tds IH]; intros init Hin Hname; [destruct Hin|].
  cbn [fold_left]. destruct Hin as [->|Hin]; [|by apply IH].
  apply Hkeep. unfold class_info. rewrite Hname. apply in_or_app. right. by left.
Qed.

Lemma methods_of_failure (source_code : str) :
  errors (parse_java_code javalang source_code) <> [] ->
  extract_methods_from_code javalang source_code = [].
Proof.
  unfold extract_methods_from_code, parse_java_code.
  destruct javalang as [javalang_parse|]; [|reflexivity].
  destruct (negb (truthy source_code) || negb (truthy (strip source_code)));
    [reflexivity|].
  destruct (javalang_parse source_code); [|reflexivity | reflexivity].
  cbn [errors]. congruence.
Qed.

(** The ways in which [parse_java_code] fails. *)
Lemma parse_failure_cases (source_code : str) :
  let r := parse_java_code javalang source_code in
  (errors r = [] \/ classes r = [])
  /\ (length (errors r) <= 1)%nat
  /\ (errors r <> [] <->
        javalang = None \/ strip source_code = []
        \/ exists javalang_parse e,
             javalang = Some javalang_parse
             /\ (javalang_parse source_code = JavaSyntaxError e
                 \/ javalang_parse source_code = OtherException e)).
Proof.
  unfold parse_java_code. destruct javalang as [javalang_parse|].
  2:{ cbn. split; [by right|]. split; [lia|]. split; [by left | discriminate]. }
  destruct (truthy source_code) eqn:Hs.
  2:{ apply CoverageFacts.truthy_false in Hs. subst source_code. cbn.
      split; [by right|]. split; [lia|]. split; [by right; left | discriminate]. }
  destruct (truthy (strip source_code)) eqn:Ht.
  2:{ apply CoverageFacts.truthy_false in Ht. cbn [negb orb classes errors length].
      split; [by right|]. split; [lia|]. split; [by right; left | discriminate]. }
  apply CoverageFacts.truthy_true in Ht. cbn [negb orb].
  destruct (javalang_parse source_code) as [tree|e|e] eqn:Hp; cbn [classes errors length].
  - split; [by left|]. split; [lia|]. split; [done|].
    intros [H | [H | (p & e & Hj & [H | H])]]; try done;
      injection Hj as <-; congruence.
  - split; [by right|]. split; [lia|]. split; [|discriminate].
    intros _. right. right. exists javalang_parse, e. split; [done | by left].
  - split; [by right|]. split; [lia|]. split; [|discriminate].
    intros _. right. right. exists javalang_parse, e. split; [done | by right].
Qed.

End WithJavalang.

(** X7.  [parse_java_code] fails all or nothing: its result never has
    both classes and errors, and never more than one error.  It has an
    error exactly when the library [javalang] is missing, when the
    source is empty or white space only, or when the parser raises; in
    each of these cases [extract_methods_from_code] returns no method.
    The missing library is reported first, "javalang库未安装", for a blank
    source too; with the library, a blank source gives "源代码为空" and
    is not handed to the parser. *)
Theorem parse_java_code_failures :
  forall (javalang : option (str -> ParseOutcome)) (source_code : str),
    let r := parse_java_code javalang source_code in
    (errors r = [] \/ classes r = [])
    /\ (length (errors r) <= 1)%nat
    /\ (errors r <> [] <->
          javalang = None \/ strip source_code = []
          \/ exists javalang_parse e,
               javalang = Some javalang_parse
               /\ (javalang_parse source_code = JavaSyntaxError e
                   \/ javalang_parse source_code = OtherException e))
    /\ (errors r <> [] -> extract_methods_from_code javalang source_code = [])
    /\ (javalang = None -> r = mkParseResult [] [u "javalang库未安装"])
    /\ (javalang <> None -> strip source_code = [] ->
        r = mkParseResult [] [u "源代码为空"]).
Proof.
  intros javalang source_code r.
  destruct (parse_failure_cases javalang source_code) as (H1 & H2 & H3).
  split; [exact H1|]. split; [exact H2|]. split; [exact H3|].
  split; [apply methods_of_failure|]. subst r. unfold parse_java_code. split.
  - by intros ->.
  - intros Hj Hblank. destruct javalang as [javalang_parse|]; [|done].
    rewrite Hblank. cbn [truthy negb]. by rewrite orb_true_r.
Qed.

Lemma parse_java_code_failures_witness :
  parse_java_code (Some sample_parse) blank_source = mkParseResult [] [u "源代码为空"]
  /\ parse_java_code None blank_source = mkParseResult [] [u "javalang库未安装"]
  /\ extract_methods_from_code (Some sample_parse) broken_source = [].
Proof.
  split; [|split].
  - apply (parse_java_code_failures (Some sample_parse) blank_source);
      [discriminate | vm_compute; reflexivity].
  - by apply (parse_java_code_failures None blank_source).
  - apply (parse_java_code_failures (Some sample_parse) broken_source).
    vm_compute. discriminate.
Defined.

(** X8.  For a non-blank source that [javalang] parses,
    [extract_methods_from_code] returns, in declaration order, one record
    per method or constructor declaration found in the member list of
    each named class, interface or annotation type; a constructor gets
    the return type [None]; every record carries the package of the
    compilation unit (the empty string when there is none) and the name
    of its type.  The methods and constructors that an enum declares are
    not returned: the loop over the body of an enum meets no member, and
    the class record of the enum has an empty method list. *)
Theorem extract_methods_from_code_of_tree :
  forall (javalang_parse : str -> ParseOutcome) (source_code : str)
         (tree : CompilationUnit),
    strip source_code <> [] ->
    javalang_parse source_code = Parsed tree ->
    let pkg := default [] (package tree) in
    let ms := extract_methods_from_code (Some javalang_parse) source_code in
    ms = flat_map (methods_of_type pkg) (types tree)
    /\ (forall m, In m ms ->
          package_name m = pkg
          /\ exists td members member,
               In td (types tree) /\ type_name td = Some (class_name m)
               /\ body td = MemberList members
               /\ In member members
               /\ info_of pkg (class_name m) member = Some m)
    /\ (forall td declarations,
          In td (types tree) -> body td = EnumBody declarations ->
          methods_of_type pkg td = [])
    /\ (forall td cls declarations,
          In td (types tree) -> type_name td = Some cls ->
          body td = EnumBody declarations ->
          In (mkClassInfo pkg cls [])
             (classes (parse_java_code (Some javalang_parse) source_code)))
    /\ ((forall td, In td (types tree) -> exists declarations,
                      body td = EnumBody declarations) ->
        ms = []).
Proof.
  intros javalang_parse source_code tree Hne Hparse pkg ms.
  assert (Hs : source_code <> []) by (intros ->; by apply Hne).
  assert (Hclasses : classes (parse_java_code (Some javalang_parse) source_code)
                     = fold_left (class_info pkg) (types tree) []).
  { unfold parse_java_code.
    apply CoverageFacts.truthy_true in Hs, Hne. by rewrite Hs, Hne, Hparse. }
  assert (Heq : ms = flat_map (methods_of_type pkg) (types tree)).
  { subst ms. unfold extract_methods_from_code. rewrite Hclasses.
    apply (class_fold pkg (types tree) []). }
  assert (Henum : forall td declarations,
             body td = EnumBody declarations -> methods_of_type pkg td = []).
  { intros td declarations Hbody. unfold methods_of_type. rewrite Hbody.
    by destruct (type_name td). }
  split; [exact Heq|]. split; [|split; [|split]].
  - rewrite Heq. intros m Hm.
    apply in_flat_map in Hm as (td & Htd & Hm). unfold methods_of_type in Hm.
    destruct (type_name td) as [cls|] eqn:Hname; [|destruct Hm].
    destruct (body td) as [members|declarations] eqn:Hbody; [|destruct Hm].
    apply list_elem_of_In, list_elem_of_omap in Hm as (member & Hmem & Hinfo).
    apply list_elem_of_In in Hmem.
    assert (Hc : package_name m = pkg /\ class_name m = cls).
    { destruct member; cbn in Hinfo; [| |discriminate]; by injection Hinfo as <-. }
    destruct Hc as [Hp Hc]. split; [exact Hp|].
    exists td, members, member. rewrite Hc. auto.
  - intros td declarations _ Hbody. by eapply Henum.
  - intros td cls declarations Htd Hname Hbody. rewrite Hclasses.
    pose proof (class_fold_In pkg cls (types tree) td [] Htd Hname) as Hin.
    by rewrite Hbody in Hin.
  - rewrite Heq. clear Heq Hclasses Hparse. generalize (types tree).
    intros tds. induction tds as [|td tds IH]; intros Hall; [reflexivity|].
    cbn [flat_map]. destruct (Hall td ltac:(by left)) as [declarations Hbody].
    rewrite (Henum td declarations Hbody). apply IH.
    intros td' Htd'. apply Hall. by right.
Qed.

Lemma extract_methods_from_code_of_tree_witness :
  extract_methods_from_code (Some enum_parse) (u "e1")
  = [ mkMethodInfo (u "com.example.order") (u "OrderService") (u "OrderService")
                   [u "public"] None [];
      mkMethodInfo (u "com.example.order") (u "OrderService") (u "cancel")
                   [u "public"] None [u "Long"] ]
  /\ In (mkClassInfo (u "com.example.order") (u "OrderState") [])
        (classes (parse_java_code (Some enum_parse) (u "e1"))).
Proof.
  destruct (extract_methods_from_code_of_tree enum_parse (u "e1") unit_with_enum)
    as (H & _ & _ & Henum & _).
  - vm_compute. discriminate.
  - vm_compute. reflexivity.
  - split.
    + rewrite H. vm_compute. reflexivity.
    + apply (Henum (mkTypeDeclaration (Some (u "OrderState"))
                      (EnumBody
                         [ ConstructorDeclaration (u "OrderState") [] [u "int"];
                           MethodDeclaration (u "isFinal") [u "public"]
                                             (Some (u "boolean")) [] ]))
                   (u "OrderState")
                   [ ConstructorDeclaration (u "OrderState") [] [u "int"];
                     MethodDeclaration (u "isFinal") [u "public"]
                                       (Some (u "boolean")) [] ]).
      * right. left. reflexivity.
      * reflexivity.
      * reflexivity.
Defined.

Lemma filter_none {A : Type} (p : A -> bool) (l : list A) :
  (forall x, In x l -> p x = false) -> List.filter p l = [].
Proof.
  induction l as [|x l IH]; intros H; cbn [List.filter]; [done|].
  rewrite (H x) by (by left). apply IH. intros y Hy. apply H. by right.
Qed.

Lemma same_source_unchanged (javalang : option (str -> ParseOutcome)) (source_code : str) :
  extract_changed_methods javalang source_code source_code = [].
Proof.
  unfold extract_changed_methods. rewrite AstClaims.changed_among_filter.
  set (ms := extract_methods_from_code javalang source_code).
  apply filter_none. intros m Hm. apply negb_false_iff.
  apply AstClaims.in_history_true. eauto.
Qed.

(** X9.  Comparing a source with itself reports no changed method,
    whatever the parser makes of the source. *)
Theorem extract_changed_methods_same_source :
  forall (javalang : option (str -> ParseOutcome)) (source_code : str),
    extract_changed_methods javalang source_code source_code = [].
Proof. exact same_source_unchanged. Qed.

(** X10.  A history source that does not parse (or is blank) hides no
    method: every method of the current source is then reported as
    changed.  A current source that does not parse yields no changed
    method at all. *)
Theorem extract_changed_methods_unparsable :
  forall (javalang : option (str -> ParseOutcome)) (current_code history_code : str),
    (errors (parse_java_code javalang history_code) <> [] ->
     extract_changed_methods javalang current_code history_code
     = extract_methods_from_code javalang current_code)
    /\ (errors (parse_java_code javalang current_code) <> [] ->
        extract_changed_methods javalang current_code history_code = []).
Proof.
  intros javalang current_code history_code. unfold extract_changed_methods.
  split; intros H; rewrite (methods_of_failure javalang _ H).
  - rewrite AstClaims.changed_among_filter. cbn [in_history existsb negb].
    induction (extract_methods_from_code javalang current_code) as [|m ms IH];
      [done|]. cbn [List.filter]. by rewrite IH.
  - reflexivity.
Qed.

Lemma extract_changed_methods_unparsable_witness :
  extract_changed_methods (Some sample_parse) (u "v2") broken_source
  = extract_methods_from_code (Some sample_parse) (u "v2")
  /\ extract_changed_methods (Some sample_parse) broken_source (u "v1") = [].
Proof.
  split.
  - apply (extract_changed_methods_unparsable (Some sample_parse) (u "v2") broken_source).
    vm_compute. discriminate.
  - apply (extract_changed_methods_unparsable (Some sample_parse) broken_source (u "v1")).
    vm_compute. discriminate.
Defined.

(** X11.  An edit that keeps the package, class, name and parameter
    types of every method is not reported: when each method of the
    current source has a history method with the same four, whatever
    their modifiers and return types (and their bodies, which are not
    read at all), no method is returned as changed. *)
Theorem signature_preserving_edit_is_not_reported :
  forall (javalang : option (str -> ParseOutcome)) (current_code history_code : str),
    (forall m, In m (extract_methods_from_code javalang current_code) ->
       exists h,
         In h (extract_methods_from_code javalang history_code)
         /\ package_name h = package_name m /\ class_name h = class_name m
         /\ method_name h = method_name m /\ parameters h = parameters m) ->
    extract_changed_methods javalang current_code history_code = [].
Proof.
  intros javalang current_code history_code H.
  unfold extract_changed_methods. rewrite AstClaims.changed_among_filter.
  apply filter_none. intros m Hm. apply negb_false_iff.
  apply AstClaims.in_history_true.
  destruct (H m Hm) as (h & Hh & Hp & Hc & Hn & Hps).
  exists h. split; [exact Hh|]. unfold signature. by rewrite Hp, Hc, Hn, Hps.
Qed.

Lemma signature_preserving_edit_is_not_reported_witness :
  extract_changed_methods (Some retyped_parse) (u "v1r") (u "v1") = [].
Proof.
  apply (signature_preserving_edit_is_not_reported (Some retyped_parse) (u "v1r") (u "v1")).
  intros m Hm. vm_compute in Hm. destruct Hm as [<- | [<- | []]].
  - exists (mkMethodInfo (u "com.example.user") (u "UserService") (u "createUser")
                         [u "public"] (Some (u "User")) [u "String"; u "String"]).
    split; [vm_compute; left; reflexivity|]. repeat split; reflexivity.
  - exists (mkMethodInfo (u "com.example.user") (u "UserService") (u "updateUser")
                         [u "public"] (Some (u "User")) [u "Long"]).
    split; [vm_compute; right; left; reflexivity|]. repeat split; reflexivity.
Defined.

End AstExtras.

(** ** Further properties of the scoring model *)

Module ScoringExtras.
Import ScoringModel F64Facts F64Order.
Local Open Scope Q_scope.

(** A comparison of two numbers that are given in full. *)
Ltac compare_numbers := apply Qle_bool_iff; vm_compute; reflexivity.

(** *** score_coverage *)

Lemma raw_coverage_range (total covered : Z) :
  (0 <= total)%Z -> (0 <= covered)%Z ->
  let raw := if (total =? 0)%Z then 100
             else F64.min 100 (F64.mul (F64.truediv covered total) 100) in
  0 <= raw <= 100.
Proof.
  intros Ht Hc raw. subst raw. destruct (total =? 0)%Z eqn:E; [split; compare_numbers|].
  apply Z.eqb_neq in E.
  assert (Hrate : 0 <= F64.truediv covered total).
  { apply rnd_nonneg. apply Qle_shift_div_l.
    - change 0 with (inject_Z 0). rewrite <- Zlt_Qlt. lia.
    - rewrite Qmult_0_l. change 0 with (inject_Z 0). by rewrite <- Zle_Qle. }
  assert (Hmul : 0 <= F64.mul (F64.truediv covered total) 100).
  { apply rnd_nonneg. apply Qmult_le_0_compat; [done | compare_numbers]. }
  split.
  - apply min_ge; [compare_numbers | done].
  - unfold F64.min. destruct (Qlt_le_dec _ 100); lra.
Qed.

(** X12.  For counts that are not negative, the coverage dimension has
    a score between 0 and 100 and a weighted score between 0 and 40.  It
    is exactly 100 (weighted 40) when there is no changed method, and
    also whenever the covered count reaches or exceeds the number of
    changed methods: a surplus is clamped. *)
Theorem score_coverage_range :
  forall total covered : Z,
    (0 <= total)%Z -> (0 <= covered)%Z ->
    let d := score_coverage total covered in
    0 <= score d <= 100
    /\ 0 <= weighted_score d <= 40
    /\ ((total <= covered)%Z -> score d = 100 /\ weighted_score d = 40).
Proof.
  intros total covered Ht Hc d. subst d.
  cbv beta zeta delta [score_coverage score weighted_score] iota.
  pose proof (raw_coverage_range total covered Ht Hc) as Hraw. cbv zeta in Hraw.
  assert (HW : 0 <= W_coverage) by compare_numbers.
  split; [|split].
  - set (raw := if (total =? 0)%Z then _ else _) in *. split.
    + apply round_nonneg, Hraw.
    + change 100 with (inject_Z 100). apply round_le_int; [lia | apply Hraw].
  - set (raw := if (total =? 0)%Z then _ else _) in *. split.
    + apply round_nonneg, rnd_nonneg. apply Qmult_le_0_compat; [apply Hraw | done].
    + apply Qle_trans with (F64.round (F64.mul 100 W_coverage) 2); [|compare_numbers].
      apply round_mono, mul_mono; [done | apply Hraw].
  - intros Hle. destruct (total =? 0)%Z eqn:E; [split; vm_compute; reflexivity|].
    apply Z.eqb_neq in E.
    assert (Hrate : 1 <= F64.truediv covered total).
    { rewrite <- (truediv_same total) by lia. apply truediv_mono; lia. }
    assert (Hmul : 100 <= F64.mul (F64.truediv covered total) 100).
    { change 100 with (inject_Z 100) at 1. apply rnd_ge_int; [lia|].
      change (inject_Z 100) with 100. lra. }
    unfold F64.min. destruct (Qlt_le_dec _ 100) as [Hlt|_]; [exfalso; lra|].
    split; vm_compute; reflexivity.
Qed.

Lemma score_coverage_range_witness :
  let d := score_coverage 3 5 in
  0 <= score d <= 100 /\ 0 <= weighted_score d <= 40
  /\ score d = 100 /\ weighted_score d = 40.
Proof.
  destruct (score_coverage_range 3 5) as (H1 & H2 & H3); [lia | lia|].
  split; [exact H1|]. split; [exact H2|]. apply H3. lia.
Defined.

(** *** The per-case scores *)

Lemma completeness_case_values (tc : row) :
  In (completeness_case tc) [0; 30; 40; 55; 60; 70; 85; 100].
Proof.
  unfold completeness_case. cbv zeta.
  destruct (truthy _); [|by left].
  destruct (3 <=? _)%Z; [|destruct (2 <=? _)%Z; [|destruct (1 <=? _)%Z]];
    destruct (existsb _ _); vm_compute; auto 10.
Qed.

Lemma clarity_case_values (tc : row) :
  In (clarity_case tc) [0; 40; 50; 60; 65; 75; 80; 85; 90; 100].
Proof.
  unfold clarity_case. cbv zeta.
  destruct (truthy _); [|by left].
  destruct (2 <=? _)%Z; [|destruct (1 <=? _)%Z];
    (destruct (10 <=? _)%nat; [|destruct (5 <=? _)%nat]); vm_compute; auto 12.
Qed.

Lemma completeness_case_range (tc : row) : 0 <= completeness_case tc <= 100.
Proof.
  pose proof (completeness_case_values tc) as H. cbn [In] in H.
  repeat (destruct H as [<-|H]; [split; compare_numbers|]). destruct H.
Qed.

Lemma clarity_case_range (tc : row) : 0 <= clarity_case tc <= 100.
Proof.
  pose proof (clarity_case_values tc) as H. cbn [In] in H.
  repeat (destruct H as [<-|H]; [split; compare_numbers|]). destruct H.
Qed.

Lemma completeness_case_nonempty (tc : row) :
  get tc K_steps (get tc K_steps_cn []) <> [] -> 30 <= completeness_case tc.
Proof.
  intros H. apply CoverageFacts.truthy_true in H.
  unfold completeness_case. cbv zeta. rewrite H.
  destruct (3 <=? _)%Z; [|destruct (2 <=? _)%Z; [|destruct (1 <=? _)%Z]];
    destruct (existsb _ _); compare_numbers.
Qed.

Lemma clarity_case_nonempty (tc : row) :
  get tc K_exp (get tc K_exp_cn []) <> [] -> 40 <= clarity_case tc.
Proof.
  intros H. apply CoverageFacts.truthy_true in H.
  unfold clarity_case. cbv zeta. rewrite H.
  destruct (2 <=? _)%Z; [|destruct (1 <=? _)%Z];
    (destruct (10 <=? _)%nat; [|destruct (5 <=? _)%nat]); compare_numbers.
Qed.

(** X13.  The score of one test case lies between 0 and 100 in both the
    completeness and the clarity dimension.  A case without step text
    scores 0 for completeness and a case with step text at least 30; a
    case without expected result scores 0 for clarity and a case with
    one at least 40. *)
Theorem case_scores_range :
  forall tc : row,
    let steps := get tc K_steps (get tc K_steps_cn []) in
    let expected := get tc K_exp (get tc K_exp_cn []) in
    0 <= completeness_case tc <= 100
    /\ (steps = [] -> completeness_case tc = 0)
    /\ (steps <> [] -> 30 <= completeness_case tc)
    /\ 0 <= clarity_case tc <= 100
    /\ (expected = [] -> clarity_case tc = 0)
    /\ (expected <> [] -> 40 <= clarity_case tc).
Proof.
  intros tc steps expected. subst steps expected.
  split; [apply completeness_case_range|].
  split; [intros H; unfold completeness_case; cbv zeta; by rewrite H|].
  split; [apply completeness_case_nonempty|].
  split; [apply clarity_case_range|].
  split; [intros H; unfold clarity_case; cbv zeta; by rewrite H|].
  apply clarity_case_nonempty.
Qed.

Lemma case_scores_range_witness :
  30 <= completeness_case Examples.row_complete
  /\ 40 <= clarity_case Examples.row_complete.
Proof.
  destruct (case_scores_range Examples.row_complete) as (_ & _ & H1 & _ & _ & H2).
  split; [apply H1 | apply H2]; vm_compute; discriminate.
Defined.

(** *** The averages of the per-case scores *)

Section Average.

(** The score of one case, between 0 and 100. *)
Variable case_score : row -> F64.float.
Hypothesis case_score_range : forall tc, 0 <= case_score tc <= 100.

Lemma total_nonneg (test_cases : list row) (init : Q) :
  0 <= init ->
  0 <= fold_left (fun total tc => F64.add total (case_score tc)) test_cases init.
Proof.
  revert init. induction test_cases as [|tc tcs IH]; intros init Hinit; [done|].
  cbn [fold_left]. apply IH. apply rnd_nonneg.
  pose proof (case_score_range tc). lra.
Qed.

Lemma total_bounded (test_cases : list row) (init : Q) (k : Z) :
  (0 <= k)%Z -> (100 * (k + Z.of_nat (length test_cases)) < 2 ^ 53)%Z ->
  init <= inject_Z (100 * k) ->
  fold_left (fun total tc => F64.add total (case_score tc)) test_cases init
  <= inject_Z (100 * (k + Z.of_nat (length test_cases))).
Proof.
  revert init k. induction test_cases as [|tc tcs IH]; intros init k Hk Hlen Hinit.
  - cbn [fold_left length]. by replace (k + Z.of_nat 0)%Z with k by lia.
  - cbn [fold_left]. cbn [length] in *.
    replace (k + Z.of_nat (S (length tcs)))%Z
      with ((k + 1) + Z.of_nat (length tcs))%Z in * by lia.
    apply IH; [lia | exact Hlen |].
    apply rnd_le_int; [lia|].
    replace (100 * (k + 1))%Z with (100 * k + 100)%Z by lia.
    rewrite inject_Z_plus. change (inject_Z 100) with 100.
    pose proof (case_score_range tc). lra.
Qed.

Lemma average_range (test_cases : list row) :
  test_cases <> [] -> (Z.of_nat (length test_cases) < 2 ^ 46)%Z ->
  let total := fold_left (fun total tc => F64.add total (case_score tc)) test_cases 0 in
  0 <= F64.div total (F64.of_int (Z.of_nat (length test_cases))) <= 100.
Proof.
  intros Hne Hlen total. set (n := Z.of_nat (length test_cases)) in *.
  assert (Hn : (0 < n)%Z) by (subst n; destruct test_cases; [done | simpl; lia]).
  assert (Hnq : 0 < inject_Z n) by (change 0 with (inject_Z 0); by rewrite <- Zlt_Qlt).
  assert (H0 : 0 <= total) by (by apply total_nonneg).
  assert (H1 : total <= inject_Z (100 * (0 + n))).
  { apply total_bounded; [lia | subst n; lia | apply Qle_refl]. }
  replace (100 * (0 + n))%Z with (100 * n)%Z in H1 by lia.
  rewrite inject_Z_mult in H1. change (inject_Z 100) with 100 in H1.
  unfold F64.div, F64.of_int. split.
  - apply rnd_nonneg. rewrite (rnd_int n) by lia.
    apply Qle_shift_div_l; [done|]. by rewrite Qmult_0_l.
  - change 100 with (inject_Z 100). apply rnd_le_int; [lia|].
    rewrite (rnd_int n) by lia. apply Qle_shift_div_r; [done|].
    by change (inject_Z 100) with 100.
Qed.

End Average.

(** X14.  For a list of fewer than 2^46 test cases, the completeness
    and the clarity dimension (the rounded means of the per-case scores)
    have a score between 0 and 100, and weighted scores between 0 and 30
    and between 0 and 20. *)
Theorem mean_dimension_scores_range :
  forall test_cases : list row,
    (Z.of_nat (length test_cases) < 2 ^ 46)%Z ->
    0 <= score (score_completeness test_cases) <= 100
    /\ 0 <= weighted_score (score_completeness test_cases) <= 30
    /\ 0 <= score (score_clarity test_cases) <= 100
    /\ 0 <= weighted_score (score_clarity test_cases) <= 20.
Proof.
  intros test_cases Hlen.
  destruct (list_eq_nil_dec test_cases) as [->|Hne].
  { cbn [score_completeness score_clarity score weighted_score].
    repeat split; compare_numbers. }
  pose proof (average_range completeness_case completeness_case_range
                test_cases Hne Hlen) as [Ha0 Ha1].
  pose proof (average_range clarity_case clarity_case_range
                test_cases Hne Hlen) as [Hb0 Hb1].
  cbv zeta in Ha0, Ha1, Hb0, Hb1.
  assert (HW1 : 0 <= W_completeness) by compare_numbers.
  assert (HW2 : 0 <= W_clarity) by compare_numbers.
  destruct test_cases as [|tc tcs]; [done|].
  cbv beta zeta delta [score_completeness score_clarity score weighted_score] iota.
  set (a := F64.div _ _) in *. set (b := F64.div _ _) in *.
  split; [|split; [|split]]; split.
  - by apply round_nonneg.
  - change 100 with (inject_Z 100). by apply round_le_int.
  - apply round_nonneg, rnd_nonneg. by apply Qmult_le_0_compat.
  - apply Qle_trans with (F64.round (F64.mul 100 W_completeness) 2); [|compare_numbers].
    by apply round_mono, mul_mono.
  - by apply round_nonneg.
  - change 100 with (inject_Z 100). by apply round_le_int.
  - apply round_nonneg, rnd_nonneg. by apply Qmult_le_0_compat.
  - apply Qle_trans with (F64.round (F64.mul 100 W_clarity) 2); [|compare_numbers].
    by apply round_mono, mul_mono.
Qed.

Lemma mean_dimension_scores_range_witness :
  0 <= score (score_completeness [Examples.row_complete; Examples.row_id_only]) <= 100
  /\ 0 <= score (score_clarity [Examples.row_complete; Examples.row_id_only]) <= 100.
Proof.
  destruct (mean_dimension_scores_range [Examples.row_complete; Examples.row_id_only])
    as (H1 & _ & H2 & _); [vm_compute; reflexivity|].
  split; [exact H1 | exact H2].
Defined.

(** *** score_boundary *)

Lemma boundary_range (test_cases : list row) (total_changed_methods : Z) :
  let d := score_boundary test_cases total_changed_methods in
  0 <= score d <= 100
  /\ 0 <= weighted_score d <= 10
  /\ (test_cases <> [] -> 10 <= score d /\ 1 <= weighted_score d)
  /\ (test_cases <> [] -> (total_changed_methods <= 0)%Z -> 25 <= score d).
Proof.
  intros d. subst d. destruct test_cases as [|tc tcs].
  { cbn [score_boundary score weighted_score].
    split; [split; compare_numbers|]. split; [split; compare_numbers|].
    split; intros H; by destruct H. }
  cbv beta zeta delta [score_boundary score weighted_score] iota.
  destruct (0 <? total_changed_methods)%Z eqn:Ht.
  - assert (Hpos : ~ (total_changed_methods <= 0)%Z) by (apply Z.ltb_lt in Ht; lia).
    repeat match goal with
           | |- context [if ?c then _ else _] => destruct c
           end;
      (split; [split; compare_numbers|]; split; [split; compare_numbers|];
       split; [intros _; split; compare_numbers | intros _ H; by destruct Hpos]).
  - repeat match goal with
           | |- context [if ?c then _ else _] => destruct c
           end;
      (split; [split; compare_numbers|]; split; [split; compare_numbers|];
       split; [intros _; split; compare_numbers | intros _ _; compare_numbers]).
Qed.

(** X15.  The boundary dimension has a score between 0 and 100 and a
    weighted score between 0 and 10.  As soon as there is one test case
    the score is at least 10 (weighted at least 1), and at least 25 when
    no method changed. *)
Theorem score_boundary_range :
  forall (test_cases : list row) (total_changed_methods : Z),
    let d := score_boundary test_cases total_changed_methods in
    0 <= score d <= 100
    /\ 0 <= weighted_score d <= 10
    /\ (test_cases <> [] -> 10 <= score d /\ 1 <= weighted_score d)
    /\ (test_cases <> [] -> (total_changed_methods <= 0)%Z -> 25 <= score d).
Proof. exact boundary_range. Qed.

Lemma score_boundary_range_witness :
  10 <= score (score_boundary [Examples.row_complete] 4)
  /\ 25 <= score (score_boundary [Examples.row_complete] 0).
Proof.
  split.
  - destruct (score_boundary_range [Examples.row_complete] 4) as (_ & _ & H & _).
    apply H. discriminate.
  - destruct (score_boundary_range [Examples.row_complete] 0) as (_ & _ & _ & H).
    apply H; [discriminate | lia].
Defined.

(** *** Grade and summary *)

(** X16.  Whatever the inputs, the result of [calculate_score] has the
    four dimensions "覆盖范围", "步骤完整性", "预期结果明确性" and "边界用例"
    in this order, with the weights 0.4, 0.3, 0.2 and 0.1; its grade is
    one of A, B, C, D and F, and its summary is the sentence that the
    table of [_get_summary] holds for this grade, never the empty
    default. *)
Theorem score_result_shape :
  forall (total_changed_methods covered_count : Z) (test_cases : list row),
    let r := calculate_score total_changed_methods covered_count test_cases in
    map dimension (dimensions r)
    = [u "覆盖范围"; u "步骤完整性"; u "预期结果明确性"; u "边界用例"]
    /\ map weight (dimensions r) = [W_coverage; W_completeness; W_clarity; W_boundary]
    /\ In (grade r) [u "A"; u "B"; u "C"; u "D"; u "F"]
    /\ summaries !! grade r = Some (summary r)
    /\ summary r <> [].
Proof.
  intros total_changed_methods covered_count test_cases r. subst r.
  cbv beta zeta delta [calculate_score grade summary dimensions] iota.
  set (t := F64.round _ 1). split; [|split].
  - destruct test_cases; reflexivity.
  - destruct test_cases; reflexivity.
  - unfold _get_summary, _get_grade.
    destruct (F64.geb t 90); [|destruct (F64.geb t 80);
      [|destruct (F64.geb t 60); [|destruct (F64.geb t 40)]]];
      (split; [vm_compute; auto 6 | split; [vm_compute; reflexivity | discriminate]]).
Qed.

(** *** The weighted scores are never negative *)

Lemma Qdiv_nonneg (a b : Q) : 0 <= a -> 0 <= b -> 0 <= a / b.
Proof.
  intros Ha Hb. unfold Qdiv. apply Qmult_le_0_compat; [done|].
  by apply Qinv_le_0_compat.
Qed.

Lemma mean_weighted_nonneg (case_score : row -> F64.float) (w : Q)
                           (test_cases : list row) :
  (forall tc, 0 <= case_score tc <= 100) -> 0 <= w ->
  let total := fold_left (fun total tc => F64.add total (case_score tc)) test_cases 0 in
  let avg := F64.div total (F64.of_int (Z.of_nat (length test_cases))) in
  0 <= F64.round (F64.mul avg w) 2.
Proof.
  intros Hcase Hw total avg. apply round_nonneg, rnd_nonneg.
  apply Qmult_le_0_compat; [|done]. apply rnd_nonneg, Qdiv_nonneg.
  - apply total_nonneg; [exact Hcase | apply Qle_refl].
  - apply rnd_nonneg. change 0 with (inject_Z 0). rewrite <- Zle_Qle. lia.
Qed.

Lemma completeness_weighted_nonneg (test_cases : list row) :
  0 <= weighted_score (score_completeness test_cases).
Proof.
  destruct test_cases as [|tc tcs]; [apply Qle_refl|].
  apply (mean_weighted_nonneg completeness_case W_completeness (tc :: tcs));
    [apply completeness_case_range | compare_numbers].
Qed.

Lemma clarity_weighted_nonneg (test_cases : list row) :
  0 <= weighted_score (score_clarity test_cases).
Proof.
  destruct test_cases as [|tc tcs]; [apply Qle_refl|].
  apply (mean_weighted_nonneg clarity_case W_clarity (tc :: tcs));
    [apply clarity_case_range | compare_numbers].
Qed.

Lemma add_ge_int (B : Z) (x y : Q) :
  (0 <= B < 2 ^ 53)%Z -> inject_Z B <= x -> 0 <= y -> inject_Z B <= F64.add x y.
Proof. intros HB Hx Hy. apply rnd_ge_int; [done | lra]. Qed.

Lemma score_without_changes :
  forall (covered_count : Z) (test_cases : list row),
    let r := calculate_score 0 covered_count test_cases in
    score (score_coverage 0 covered_count) = 100
    /\ 40 <= total_score r
    /\ grade r <> u "F".
Proof.
  intros covered_count test_cases r. subst r.
  assert (Hcov : score (score_coverage 0 covered_count) = 100
                 /\ weighted_score (score_coverage 0 covered_count) = 40)
    by (split; vm_compute; reflexivity).
  destruct Hcov as [Hs Hw]. split; [exact Hs|].
  cbv beta zeta delta [calculate_score grade total_score] iota.
  set (s := sum_weighted _).
  assert (Hsum : 40 <= s).
  { subst s. cbv beta zeta delta [sum_weighted fold_left] iota. rewrite Hw.
    pose proof (completeness_weighted_nonneg test_cases) as H2.
    pose proof (clarity_weighted_nonneg test_cases) as H3.
    destruct (boundary_range test_cases 0) as (_ & [H4 _] & _).
    change 40 with (inject_Z 40) at 1.
    apply add_ge_int; [lia | | exact H4]. apply add_ge_int; [lia | | exact H3].
    apply add_ge_int; [lia | | exact H2]. compare_numbers. }
  set (t := F64.round (F64.min 100 (F64.max 0 s)) 1).
  assert (Ht : 40 <= t).
  { subst t. change 40 with (inject_Z 40) at 1. apply round_ge_int; [lia|].
    apply min_ge; [compare_numbers|]. by apply max_ge. }
  split; [exact Ht|].
  destruct (ScoringClaims._get_grade_thresholds t) as (_ & _ & _ & _ & HF).
  intros Hg. apply HF in Hg. lra.
Qed.

(** X17.  When the number of changed methods is 0, the coverage
    dimension gets full marks whatever the other inputs are, so the
    total score is at least 40 and the grade is never F, even without
    any test case. *)
Theorem calculate_score_without_changes :
  forall (covered_count : Z) (test_cases : list row),
    let r := calculate_score 0 covered_count test_cases in
    score (score_coverage 0 covered_count) = 100
    /\ 40 <= total_score r
    /\ grade r <> u "F".
Proof. exact score_without_changes. Qed.

(** *** More covered methods *)

Lemma coverage_weighted_mono (total covered covered' : Z) :
  (0 <= total)%Z -> (covered <= covered')%Z ->
  weighted_score (score_coverage total covered)
  <= weighted_score (score_coverage total covered').
Proof.
  intros Ht Hc. cbv beta zeta delta [score_coverage weighted_score] iota.
  destruct (total =? 0)%Z eqn:E; [apply Qle_refl|]. apply Z.eqb_neq in E.
  apply round_mono, mul_mono; [compare_numbers|].
  apply min_mono, mul_mono; [compare_numbers|]. apply truediv_mono; lia.
Qed.

(** X18.  With the same test cases and the same number of changed
    methods, a larger covered count never gives a lower coverage score
    nor a lower total score. *)
Theorem total_score_grows_with_coverage :
  forall (total_changed_methods covered covered' : Z) (test_cases : list row),
    (0 <= total_changed_methods)%Z -> (covered <= covered')%Z ->
    weighted_score (score_coverage total_changed_methods covered)
    <= weighted_score (score_coverage total_changed_methods covered')
    /\ total_score (calculate_score total_changed_methods covered test_cases)
       <= total_score (calculate_score total_changed_methods covered' test_cases).
Proof.
  intros total_changed_methods covered covered' test_cases Ht Hc.
  pose proof (coverage_weighted_mono total_changed_methods covered covered' Ht Hc) as Hw.
  split; [exact Hw|].
  cbv beta zeta delta [calculate_score total_score sum_weighted fold_left] iota.
  apply round_mono, min_mono, max_mono.
  do 3 (apply add_mono; [|apply Qle_refl]).
  apply add_mono; [apply Qle_refl | exact Hw].
Qed.

Lemma total_score_grows_with_coverage_witness :
  total_score (calculate_score 4 1 [Examples.row_complete])
  <= total_score (calculate_score 4 3 [Examples.row_complete]).
Proof.
  apply (total_score_grows_with_coverage 4 1 3 [Examples.row_complete]); lia.
Defined.

(** *** _count_steps *)

Import ScoringNotions.
Local Open Scope Z_scope.

Lemma blank_code_points (c : char) :
  is_blank_or_semicolon c = true ->
  In c [9; 10; 11; 12; 13; 28; 29; 30; 31; 32; 59; 133; 160; 5760;
        8192; 8193; 8194; 8195; 8196; 8197; 8198; 8199; 8200; 8201; 8202;
        8232; 8233; 8239; 8287; 12288; 65307]%N.
Proof.
  unfold is_blank_or_semicolon, isspace.
  rewrite !orb_true_iff, !andb_true_iff, !N.leb_le, !N.eqb_eq.
  intros H. cbn [In]. lia.
Qed.

Lemma blank_is_no_digit (c : char) :
  is_blank_or_semicolon c = true ->
  isdecimal c = false /\ (c =? BU)%N = false.
Proof.
  intros H. apply blank_code_points in H. cbn [In] in H.
  repeat (destruct H as [<-|H]; [split; vm_compute; reflexivity|]). destruct H.
Qed.

Lemma count_numbered_nonneg (after_digit : bool) (s : str) :
  0 <= count_numbered after_digit s.
Proof.
  revert after_digit. induction s as [|c s IH]; intros after_digit; cbn [count_numbered];
    [lia|].
  destruct (isdecimal c); [apply IH|].
  destruct (after_digit && is_mark c); [specialize (IH false); lia | apply IH].
Qed.

Lemma count_labelled_nonneg (s : str) : 0 <= count_labelled s.
Proof.
  induction s as [|a s IH]; cbn [count_labelled]; [lia|].
  destruct s as [|b [|c r]]; [lia | lia |].
  destruct ((a =? BU)%N && (b =? ZHOU)%N && isdecimal c); lia.
Qed.

Lemma count_numbered_blank (s : str) :
  forallb is_blank_or_semicolon s = true -> count_numbered false s = 0.
Proof.
  induction s as [|c s IH]; cbn [forallb count_numbered]; [done|].
  intros H. apply andb_true_iff in H as [Hc Hs].
  destruct (blank_is_no_digit c Hc) as [-> _]. cbn [andb]. by apply IH.
Qed.

Lemma count_labelled_blank (s : str) :
  forallb is_blank_or_semicolon s = true -> count_labelled s = 0.
Proof.
  induction s as [|a s IH]; cbn [forallb count_labelled]; [done|].
  intros H. apply andb_true_iff in H as [Ha Hs].
  destruct (blank_is_no_digit a Ha) as [_ ->]. cbn [andb].
  destruct s as [|b [|c r]]; [done | done | by apply IH].
Qed.

Lemma lstrip_all_space (s : str) :
  forallb isspace (lstrip s) = forallb isspace s.
Proof.
  induction s as [|a s IH]; cbn [lstrip forallb]; [done|].
  destruct (isspace a) eqn:Ha; [exact IH|]. cbn [forallb]. by rewrite Ha.
Qed.

Lemma lstrip_nil (s : str) : lstrip s = [] <-> forallb isspace s = true.
Proof.
  induction s as [|a s IH]; cbn [lstrip forallb]; [done|].
  destruct (isspace a); [exact IH|]. split; discriminate.
Qed.

Lemma forallb_rev {A : Type} (p : A -> bool) (l : list A) :
  forallb p (rev l) = forallb p l.
Proof.
  induction l as [|x l IH]; [done|]. cbn [rev forallb].
  rewrite forallb_app, IH. cbn [forallb]. rewrite andb_true_r. apply andb_comm.
Qed.

Lemma strip_nil (s : str) : strip s = [] <-> forallb isspace s = true.
Proof.
  unfold strip, rstrip. rewrite <- lstrip_all_space, <- (forallb_rev _ (lstrip s)).
  rewrite <- lstrip_nil. split.
  - intros H. apply (f_equal (@rev N)) in H. by rewrite rev_involutive in H.
  - by intros ->.
Qed.

(** The pieces of [s.split(sep)] consist of white space exactly when
    [s] does, for a separator that is white space itself. *)
Lemma split_at_all_space (sep : char) (cur s : str) :
  isspace sep = true ->
  forallb (fun p => forallb isspace p) (split_at sep cur s)
  = forallb isspace cur && forallb isspace s.
Proof.
  intros Hsep. revert cur. induction s as [|c s IH]; intros cur; cbn [split_at forallb].
  - by rewrite forallb_rev.
  - destruct (c =? sep)%N eqn:E.
    + apply N.eqb_eq in E. subst c. cbn [forallb]. rewrite IH, forallb_rev, Hsep.
      by cbn [forallb andb].
    + rewrite IH. cbn [forallb]. rewrite !andb_assoc. f_equal. apply andb_comm.
Qed.

Lemma replaced_all_space (s : str) :
  forallb isspace (replace FULLWIDTH_SEMICOLON NEWLINE (replace SEMICOLON NEWLINE s))
  = forallb is_blank_or_semicolon s.
Proof.
  unfold replace. rewrite map_map. induction s as [|c s IH]; cbn [map forallb]; [done|].
  rewrite IH. f_equal. unfold is_blank_or_semicolon, SEMICOLON, FULLWIDTH_SEMICOLON, NEWLINE.
  destruct (c =? 59)%N eqn:E1.
  - cbn. by rewrite orb_true_r.
  - destruct (c =? 65307)%N eqn:E2; [by rewrite orb_true_r|].
    by rewrite !orb_false_r.
Qed.

Lemma no_piece_left (pieces : list str) :
  length (map strip (List.filter (fun p => truthy (strip p)) pieces)) = 0%nat
  <-> forallb (fun p => forallb isspace p) pieces = true.
Proof.
  rewrite length_map. induction pieces as [|p pieces IH]; cbn [List.filter forallb]; [done|].
  destruct (truthy (strip p)) eqn:Hp.
  - apply CoverageFacts.truthy_true in Hp. cbn [length]. split; [discriminate|].
    intros H. apply andb_true_iff in H as [H _]. by apply strip_nil in H.
  - apply CoverageFacts.truthy_false, strip_nil in Hp. rewrite Hp. exact IH.
Qed.

Lemma count_steps_zero_iff :
  forall steps_text : str,
    0 <= _count_steps steps_text
    /\ (_count_steps steps_text = 0
        <-> forallb is_blank_or_semicolon steps_text = true).
Proof.
  intros s. unfold _count_steps. cbv zeta.
  pose proof (count_numbered_nonneg false s) as Hn.
  pose proof (count_labelled_nonneg s) as Hl.
  set (count := Z.max (Z.max 0 (count_numbered false s)) (count_labelled s)).
  set (pieces := split_on NEWLINE _).
  assert (Hpieces : length (map strip (List.filter (fun p => truthy (strip p)) pieces))
                    = 0%nat <-> forallb is_blank_or_semicolon s = true).
  { rewrite no_piece_left. subst pieces. unfold split_on.
    rewrite split_at_all_space by reflexivity. cbn [forallb andb].
    by rewrite replaced_all_space. }
  destruct (count =? 0) eqn:E.
  - split; [lia|]. rewrite <- Hpieces. lia.
  - apply Z.eqb_neq in E. split; [lia|]. split; [lia|].
    intros Hb. exfalso. apply E. subst count.
    rewrite (count_numbered_blank s Hb), (count_labelled_blank s Hb). reflexivity.
Qed.

(** X19.  [_count_steps] never returns a negative number, and it
    returns 0 exactly for a text made of white space and semicolons
    (";" and "；") only: any other text counts as at least one step. *)
Theorem _count_steps_zero_iff_blank :
  forall steps_text : str,
    0 <= _count_steps steps_text
    /\ (_count_steps steps_text = 0
        <-> forallb is_blank_or_semicolon steps_text = true).
Proof. exact count_steps_zero_iff. Qed.

(** *** Step text without content *)

Lemma contains_head (hay : str) (c : char) (rest : str) :
  contains hay (c :: rest) = true -> In c hay.
Proof.
  intros H. apply CoverageClaims.contains_spec in H as (pre & post & ->).
  apply in_or_app. right. by left.
Qed.

Lemma blank_text_contains_no_word (steps : str) (c : char) (rest : str) :
  forallb is_blank_or_semicolon steps = true ->
  is_blank_or_semicolon c = false ->
  contains steps (c :: rest) = false.
Proof.
  intros Hb Hc. destruct (contains steps (c :: rest)) eqn:E; [|done].
  apply contains_head in E. rewrite forallb_forall in Hb.
  apply Hb in E. congruence.
Qed.

(** X20.  A test case whose step text is not empty but holds white
    space and semicolons only gets 30 points for completeness: the
    points for having a step description, none for the number of steps
    and none for an action word. *)
Theorem blank_step_text_scores_30 :
  forall tc : row,
    let steps := get tc K_steps (get tc K_steps_cn []) in
    steps <> [] ->
    forallb is_blank_or_semicolon steps = true ->
    completeness_case tc = 30%Q.
Proof.
  intros tc steps Hne Hb. subst steps. unfold completeness_case. cbv zeta.
  apply CoverageFacts.truthy_true in Hne. rewrite Hne.
  rewrite (proj2 (proj2 (count_steps_zero_iff _)) Hb).
  cbn [Z.leb Z.compare]. unfold action_words. cbn [existsb].
  rewrite !(blank_text_contains_no_word _ _ _ Hb) by reflexivity.
  cbn [orb]. vm_compute. reflexivity.
Qed.

Lemma blank_step_text_scores_30_witness :
  completeness_case row_semicolons = 30%Q.
Proof.
  apply (blank_step_text_scores_30 row_semicolons).
  - vm_compute. discriminate.
  - vm_compute. reflexivity.
Defined.

End ScoringExtras.

(** ** Further properties of the diff analyzer *)

Module DiffExtras.
Import DiffAnalyzer DiffNotions Notions.

(** *** extract_package_path *)

Lemma first_package_cases (lines : list str) :
  let p := first_package lines in
  p <> [] /\ no_outer_space p
  /\ (p = UNKNOWN
      \/ exists line,
           In line lines /\ startswith (strip line) PACKAGE_ = true
           /\ p = strip (rstrip_char SEMICOLON (skipn 8 (strip line)))).
Proof.
  induction lines as [|line lines IH]; cbn [first_package].
  - split; [discriminate|]. split; [|by left].
    change UNKNOWN with (strip UNKNOWN). apply CoverageExtras.strip_no_outer_space.
  - destruct IH as (IH1 & IH2 & IH3).
    assert (Hrest : first_package lines <> [] /\ no_outer_space (first_package lines)
                    /\ (first_package lines = UNKNOWN
                        \/ exists l, In l (line :: lines)
                             /\ startswith (strip l) PACKAGE_ = true
                             /\ first_package lines
                                = strip (rstrip_char SEMICOLON (skipn 8 (strip l))))).
    { split; [done|]. split; [done|]. destruct IH3 as [H | (l & Hl & H)]; [by left|].
      right. exists l. split; [by right | done]. }
    destruct (startswith (strip line) PACKAGE_) eqn:Hs; [|exact Hrest].
    change (length PACKAGE_) with 8%nat.
    destruct (truthy _) eqn:Ht; [|exact Hrest].
    split; [by apply CoverageFacts.truthy_true|].
    split; [apply CoverageExtras.strip_no_outer_space|].
    right. exists line. split; [by left | done].
Qed.

Lemma first_package_none (lines : list str) :
  (forall line, In line lines -> startswith (strip line) PACKAGE_ = false) ->
  first_package lines = UNKNOWN.
Proof.
  induction lines as [|line lines IH]; intros H; cbn [first_package]; [done|].
  rewrite (H line) by (by left). apply IH. intros l Hl. apply H. by right.
Qed.

(** X21.  [extract_package_path] never returns the empty string, and
    what it returns neither begins nor ends with white space: it is
    either "unknown" or what a line of the code that, once stripped,
    starts with "package " holds after this word, without the trailing
    semicolons and the surrounding white space.  It is "unknown" when
    no line starts so. *)
Theorem extract_package_path_cases :
  forall code : str,
    let p := extract_package_path code in
    p <> [] /\ no_outer_space p
    /\ (p = u "unknown"
        \/ exists line,
             In line (split_on NEWLINE code)
             /\ startswith (strip line) (u "package ") = true
             /\ p = strip (rstrip_char SEMICOLON (skipn 8 (strip line))))
    /\ ((forall line, In line (split_on NEWLINE code) ->
           startswith (strip line) (u "package ") = false) ->
        p = u "unknown").
Proof.
  intros code p. subst p. unfold extract_package_path.
  change (u "unknown") with UNKNOWN. change (u "package ") with PACKAGE_.
  destruct (first_package_cases (split_on NEWLINE code)) as (H1 & H2 & H3).
  split; [exact H1|]. split; [exact H2|]. split; [exact H3|].
  apply first_package_none.
Qed.

(** *** The three lists of a diff result *)

Lemma classify_fold (diff : list str) (added removed changed : list str) :
  fold_left classify diff (added, removed, changed)
  = (added ++ map (skipn 1) (List.filter is_added diff),
     removed ++ map (skipn 1) (List.filter is_removed diff),
     changed ++ List.filter is_kept diff).
Proof.
  revert added removed changed.
  induction diff as [|line diff IH]; intros added removed changed.
  - cbn. by rewrite !app_nil_r.
  - cbn [fold_left List.filter]. unfold classify at 2.
    unfold is_added, is_removed, is_kept, is_header.
    destruct (startswith line PLUS3 || startswith line MINUS3 || startswith line AT2).
    + rewrite IH. cbn [negb andb orb]. by rewrite <- app_assoc.
    + cbn [negb andb orb]. destruct (startswith line PLUS).
      * rewrite IH. cbn [negb andb orb map]. by rewrite <- !app_assoc.
      * cbn [negb]. destruct (startswith line MINUS).
        -- rewrite IH. cbn [map]. by rewrite <- !app_assoc.
        -- by rewrite IH.
Qed.

Lemma filter_filter_impl {A : Type} (p q : A -> bool) (l : list A) :
  (forall x, p x = true -> q x = true) ->
  List.filter p (List.filter q l) = List.filter p l.
Proof.
  intros H. induction l as [|x l IH]; cbn [List.filter]; [done|].
  destruct (q x) eqn:Hq; cbn [List.filter].
  - by rewrite IH.
  - destruct (p x) eqn:Hp; [|exact IH]. apply H in Hp. congruence.
Qed.

Lemma startswith_cons (c : char) (s : str) (p : char) (pre : str) :
  startswith (c :: s) (p :: pre) = (c =? p)%N && startswith s pre.
Proof. reflexivity. Qed.

Lemma starts_with_plus (line : str) :
  startswith line PLUS = true -> exists rest, line = 43%N :: rest.
Proof.
  destruct line as [|c rest]; [discriminate|]. unfold PLUS.
  rewrite startswith_cons. intros H. apply andb_true_iff in H as [H _].
  apply N.eqb_eq in H. subst c. by exists rest.
Qed.

Lemma starts_with_minus (line : str) :
  startswith line MINUS = true -> exists rest, line = 45%N :: rest.
Proof.
  destruct line as [|c rest]; [discriminate|]. unfold MINUS.
  rewrite startswith_cons. intros H. apply andb_true_iff in H as [H _].
  apply N.eqb_eq in H. subst c. by exists rest.
Qed.

Lemma is_added_tail (line : str) :
  is_added line = true -> startswith (skipn 1 line) (u "++") = false.
Proof.
  unfold is_added, is_header. intros H. apply andb_true_iff in H as [Hh Hp].
  apply starts_with_plus in Hp as [rest ->]. cbn [skipn].
  apply negb_true_iff, orb_false_iff in Hh as [Hh _].
  apply orb_false_iff in Hh as [Hh _]. exact Hh.
Qed.

Lemma is_removed_tail (line : str) :
  is_removed line = true -> startswith (skipn 1 line) (u "--") = false.
Proof.
  unfold is_removed, is_header. intros H. apply andb_true_iff in H as [Hh Hp].
  apply starts_with_minus in Hp as [rest ->]. cbn [skipn].
  apply andb_true_iff in Hh as [Hh _].
  apply negb_true_iff, orb_false_iff in Hh as [Hh _].
  apply orb_false_iff in Hh as [_ Hh]. exact Hh.
Qed.

Lemma kept_cases (line : str) :
  (if is_kept line then 1 else 0)%nat
  = ((if is_added line then 1 else 0) + (if is_removed line then 1 else 0)
     + (if is_header line then 1 else 0))%nat.
Proof.
  unfold is_kept, is_added, is_removed.
  destruct (is_header line), (startswith line PLUS), (startswith line MINUS); reflexivity.
Qed.

Lemma kept_partition (diff : list str) :
  length (List.filter is_kept diff)
  = (length (List.filter is_added diff) + length (List.filter is_removed diff)
     + length (List.filter is_header diff))%nat.
Proof.
  induction diff as [|line diff IH]; [done|]. cbn [List.filter].
  pose proof (kept_cases line) as H.
  destruct (is_kept line), (is_added line), (is_removed line), (is_header line);
    cbn [length]; lia.
Qed.

(** X22.  [compute_diff] returns a result for every pair of texts; its
    package path is that of the current text.  [added_lines] and
    [removed_lines] are, in order, the lines of [changed_lines] that
    start with "+" and with "-" without being headers ("+++", "---",
    "@@"), less their first character; [changed_lines] holds nothing
    else than these and the headers.  So a diff line "+++x" counts as a
    header: [added_lines] never holds a line that starts with "++", nor
    [removed_lines] one that starts with "--". *)
Theorem compute_diff_line_accounting :
  forall current_code history_code : str,
    exists r : DiffResult,
      compute_diff current_code history_code = Some r
      /\ package_path r = extract_package_path current_code
      /\ added_lines r = map (skipn 1) (List.filter is_added (changed_lines r))
      /\ removed_lines r = map (skipn 1) (List.filter is_removed (changed_lines r))
      /\ length (changed_lines r)
         = (length (added_lines r) + length (removed_lines r)
            + length (List.filter is_header (changed_lines r)))%nat
      /\ (forall l, In l (added_lines r) -> startswith l (u "++") = false)
      /\ (forall l, In l (removed_lines r) -> startswith l (u "--") = false).
Proof.
  intros current_code history_code. unfold compute_diff.
  destruct (DifflibTotal.unified_diff_ends (splitlines history_code)
              (splitlines current_code) HISTORY CURRENT) as [diff ->].
  rewrite classify_fold. cbn [app]. eexists. split; [reflexivity|].
  cbn [package_path added_lines removed_lines changed_lines].
  assert (Ha : forall l, is_added l = true -> is_kept l = true).
  { intros l. unfold is_added, is_kept. destruct (is_header l); [done|].
    cbn. by intros ->. }
  assert (Hr : forall l, is_removed l = true -> is_kept l = true).
  { intros l. unfold is_removed, is_kept. destruct (is_header l); [done|].
    cbn. destruct (startswith l PLUS); [done|]. cbn. by intros ->. }
  assert (Hh : forall l, is_header l = true -> is_kept l = true).
  { intros l. unfold is_kept. by intros ->. }
  split; [reflexivity|].
  split; [by rewrite filter_filter_impl|].
  split; [by rewrite filter_filter_impl|].
  split.
  { rewrite !length_map, (filter_filter_impl is_header is_kept) by done.
    apply kept_partition. }
  split.
  - intros l Hl. apply in_map_iff in Hl as (line & <- & Hline).
    apply filter_In in Hline as [_ Hline]. by apply is_added_tail.
  - intros l Hl. apply in_map_iff in Hl as (line & <- & Hline).
    apply filter_In in Hline as [_ Hline]. by apply is_removed_tail.
Qed.

(** *** A file that is new, and a file that is gone *)

Import Difflib.

(** With no line on the left there is nothing to match. *)
Lemma find_longest_match_nil_l (b : list str) (bhi : nat) :
  find_longest_match [] b 0 0 0 bhi = (0, 0, 0)%nat.
Proof. reflexivity. Qed.

Lemma matching_blocks_nil_l (b : list str) :
  get_matching_blocks [] b = Some [(0, length b, 0)%nat].
Proof. reflexivity. Qed.

Lemma rows_nil_r (a : list str) (rows : list nat) (st : gmap nat nat * Match) :
  (fold_left (row_step a [] 0 0) rows st).2 = st.2.
Proof.
  revert st. induction rows as [|i rows IH]; intros st; cbn [fold_left]; [done|].
  rewrite IH. unfold row_step. destruct (a !! i); [|done].
  change (b2j []) with (∅ : gmap str (list nat)). by rewrite lookup_empty.
Qed.

Lemma extend_right_nil_r (a : list str) (turns ahi : nat) :
  extend_right a [] turns ahi 0 0 0 0 = 0%nat.
Proof. destruct turns; cbn [extend_right]; [done|]. by rewrite andb_false_r. Qed.

Lemma find_longest_match_nil_r (a : list str) (ahi : nat) :
  find_longest_match a [] 0 ahi 0 0 = (0, 0, 0)%nat.
Proof.
  unfold find_longest_match. rewrite rows_nil_r. cbn [snd extend_left].
  by rewrite extend_right_nil_r.
Qed.

Lemma blocks_loop_done (a b : list str) (turns : nat) (blocks : list Match) :
  blocks_loop a b turns [] blocks = Some blocks.
Proof. by destruct turns. Qed.

Lemma matching_blocks_nil_r (a : list str) :
  get_matching_blocks a [] = Some [(length a, 0, 0)%nat].
Proof.
  unfold get_matching_blocks.
  replace (2 * length a + 1)%nat with (S (2 * length a)) by lia.
  cbn [blocks_loop]. rewrite find_longest_match_nil_r. cbn [Nat.eqb].
  rewrite blocks_loop_done. reflexivity.
Qed.

Lemma slice_all {A : Type} (l : list A) : slice l 0 (length l) = l.
Proof. unfold slice. cbn [skipn]. rewrite Nat.sub_0_r. apply firstn_all. Qed.

(** The diff of nothing against the lines [b]: one hunk that inserts
    them all. *)
Lemma unified_diff_nil_l (b : list str) (fromfile tofile : str) :
  b <> [] ->
  unified_diff [] b fromfile tofile
  = Some ((u "--- " ++ fromfile) :: (u "+++ " ++ tofile)
            :: (u "@@ -" ++ _format_range_unified 0 0 ++ u " +"
                  ++ _format_range_unified 0 (length b) ++ u " @@")
            :: map (fun line => u "+" ++ line) b).
Proof.
  intros Hb. unfold unified_diff, get_grouped_opcodes, get_opcodes.
  rewrite matching_blocks_nil_l.
  destruct b as [|l0 b']; [done|]. set (b := l0 :: b').
  change (length b) with (S (length b')).
  cbn [fold_left opcode_step Nat.ltb Nat.leb andb Nat.eqb Nat.add snd
       trim_first trim_last group_step is_equal app map concat group_lines
       List.last opcode_lines].
  change (S (length b')) with (length b).
  by rewrite slice_all, !app_nil_r.
Qed.

(** The diff of the lines [a] against nothing: one hunk that deletes
    them all. *)
Lemma unified_diff_nil_r (a : list str) (fromfile tofile : str) :
  a <> [] ->
  unified_diff a [] fromfile tofile
  = Some ((u "--- " ++ fromfile) :: (u "+++ " ++ tofile)
            :: (u "@@ -" ++ _format_range_unified 0 (length a) ++ u " +"
                  ++ _format_range_unified 0 0 ++ u " @@")
            :: map (fun line => u "-" ++ line) a).
Proof.
  intros Ha. unfold unified_diff, get_grouped_opcodes, get_opcodes.
  rewrite matching_blocks_nil_r.
  destruct a as [|l0 a']; [done|]. set (a := l0 :: a').
  change (length a) with (S (length a')).
  cbn [fold_left opcode_step Nat.ltb Nat.leb andb Nat.eqb Nat.add snd
       trim_first trim_last group_step is_equal app map concat group_lines
       List.last opcode_lines].
  change (S (length a')) with (length a).
  by rewrite slice_all, !app_nil_r.
Qed.

Lemma startswith_nil (s : str) : startswith s [] = true.
Proof. by destruct s. Qed.

Lemma plus_line_kinds (l : str) :
  is_added (u "+" ++ l) = negb (startswith l (u "++"))
  /\ is_removed (u "+" ++ l) = false.
Proof.
  change (u "+" ++ l) with (43%N :: l).
  unfold is_added, is_removed, is_header, PLUS3, MINUS3, AT2, PLUS, MINUS.
  rewrite !startswith_cons, startswith_nil.
  change (43 =? 43)%N with true. change (43 =? 45)%N with false.
  change (43 =? 64)%N with false. cbn [andb orb negb].
  rewrite !orb_false_r, !andb_true_r, !andb_false_r. done.
Qed.

Lemma minus_line_kinds (l : str) :
  is_removed (u "-" ++ l) = negb (startswith l (u "--"))
  /\ is_added (u "-" ++ l) = false.
Proof.
  change (u "-" ++ l) with (45%N :: l).
  unfold is_added, is_removed, is_header, PLUS3, MINUS3, AT2, PLUS, MINUS.
  rewrite !startswith_cons, startswith_nil.
  change (45 =? 45)%N with true. change (45 =? 43)%N with false.
  change (45 =? 64)%N with false. cbn [andb orb negb].
  rewrite !orb_false_r, !andb_true_r, !andb_false_r. done.
Qed.

Lemma plus_lines (b : list str) :
  map (skipn 1) (List.filter is_added (map (fun line => u "+" ++ line) b))
  = List.filter (fun l => negb (startswith l (u "++"))) b
  /\ List.filter is_removed (map (fun line => u "+" ++ line) b) = [].
Proof.
  induction b as [|l b [IH1 IH2]]; [done|]. cbn [map List.filter].
  destruct (plus_line_kinds l) as [-> ->].
  split; [|exact IH2]. destruct (negb _); cbn [map]; by rewrite IH1.
Qed.

Lemma minus_lines (a : list str) :
  map (skipn 1) (List.filter is_removed (map (fun line => u "-" ++ line) a))
  = List.filter (fun l => negb (startswith l (u "--"))) a
  /\ List.filter is_added (map (fun line => u "-" ++ line) a) = [].
Proof.
  induction a as [|l a [IH1 IH2]]; [done|]. cbn [map List.filter].
  destruct (minus_line_kinds l) as [-> ->].
  split; [|exact IH2]. destruct (negb _); cbn [map]; by rewrite IH1.
Qed.

(** The three header lines are neither added nor removed lines. *)
Lemma header_kinds (fromfile tofile rest : str) :
  let h1 := u "--- " ++ fromfile in
  let h2 := u "+++ " ++ tofile in
  let h3 := u "@@ -" ++ rest in
  is_added h1 = false /\ is_added h2 = false /\ is_added h3 = false
  /\ is_removed h1 = false /\ is_removed h2 = false /\ is_removed h3 = false.
Proof. repeat split; reflexivity. Qed.

(** X23.  A text compared with an empty history is reported as new:
    no removed line, and every line of the text as an added line, in
    order, except the lines that begin with "++", which the loop takes
    for file headers and does not count. *)
Theorem compute_diff_new_file :
  forall current_code : str,
    exists r : DiffResult,
      compute_diff current_code [] = Some r
      /\ package_path r = extract_package_path current_code
      /\ added_lines r
         = List.filter (fun l => negb (startswith l (u "++"))) (splitlines current_code)
      /\ removed_lines r = [].
Proof.
  intros current_code. unfold compute_diff.
  change (splitlines []) with ([] : list str).
  destruct (splitlines current_code) as [|l0 b'] eqn:Hb.
  { rewrite DifflibFacts.unified_diff_identical. cbn [fold_left].
    eexists. split; [reflexivity|]. by repeat split. }
  rewrite unified_diff_nil_l by discriminate. rewrite classify_fold.
  cbn [app]. eexists. split; [reflexivity|].
  cbn [package_path added_lines removed_lines]. split; [reflexivity|].
  set (b := l0 :: b').
  destruct (header_kinds HISTORY CURRENT
              (_format_range_unified 0 0 ++ u " +"
                 ++ _format_range_unified 0 (length b) ++ u " @@"))
    as (E1 & E2 & E3 & E4 & E5 & E6).
  cbv zeta in E1, E2, E3, E4, E5, E6.
  cbn [List.filter]. rewrite E1, E2, E3, E4, E5, E6.
  destruct (plus_lines b) as [-> ->]. done.
Qed.

(** The line "++counter;" of a new file is not among the added lines. *)
Example compute_diff_new_file_sample :
  option_map added_lines (compute_diff two_lines [])
  = Some [u "package com.example.user;
"].
Proof. vm_compute. reflexivity. Qed.

(** X24.  A text compared with an empty current version is reported as
    gone: no added line, every line of the text as a removed line, in
    order, except the lines that begin with "--"; the package path is
    "unknown", since it is read from the current text only. *)
Theorem compute_diff_deleted_file :
  forall history_code : str,
    exists r : DiffResult,
      compute_diff [] history_code = Some r
      /\ package_path r = u "unknown"
      /\ added_lines r = []
      /\ removed_lines r
         = List.filter (fun l => negb (startswith l (u "--"))) (splitlines history_code).
Proof.
  intros history_code. unfold compute_diff.
  change (splitlines []) with ([] : list str).
  change (extract_package_path []) with (u "unknown").
  destruct (splitlines history_code) as [|l0 a'] eqn:Ha.
  { rewrite DifflibFacts.unified_diff_identical. cbn [fold_left].
    eexists. split; [reflexivity|]. by repeat split. }
  rewrite unified_diff_nil_r by discriminate. rewrite classify_fold.
  cbn [app]. eexists. split; [reflexivity|].
  cbn [package_path added_lines removed_lines]. split; [reflexivity|].
  set (a := l0 :: a').
  destruct (header_kinds HISTORY CURRENT
              (_format_range_unified 0 (length a) ++ u " +"
                 ++ _format_range_unified 0 0 ++ u " @@"))
    as (E1 & E2 & E3 & E4 & E5 & E6).
  cbv zeta in E1, E2, E3, E4, E5, E6.
  cbn [List.filter]. rewrite E1, E2, E3, E4, E5, E6.
  destruct (minus_lines a) as [-> ->]. done.
Qed.

End DiffExtras.

(** ** Properties of the reader of the code-changes document *)

Module CodeChangesExtras.
Import CodeChanges CodeChangesNotions.

(** X26.  [parse_code_changes] returns the two arrays exactly when the
    text parses to an object whose inner object (the value under "data"
    when the root has this key, the root itself otherwise) is an object
    that binds "current" and "history" to arrays.  A root that has the
    key "data" is never read for its own "current" and "history". *)
Theorem parse_code_changes_accepts :
  forall (json_loads : str -> value + str) (json_content : str)
         (c h : list value),
    parse_code_changes json_loads json_content = inl (c, h)
    <-> exists d di,
          json_loads json_content = inl (JDict d)
          /\ (d !! K_data = Some (JDict di) \/ (d !! K_data = None /\ di = d))
          /\ di !! K_current = Some (JList c)
          /\ di !! K_history = Some (JList h).
Proof.
  intros json_loads json_content c h. unfold parse_code_changes. split.
  - destruct (json_loads json_content) as [[| | | | | |d]|e]; try discriminate.
    cbv zeta. intros H. exists d.
    assert (Hinner : forall di,
              match contains_key (JDict di) K_current with
              | Some true =>
                  match contains_key (JDict di) K_history with
                  | Some true =>
                      match subscript (JDict di) K_current with
                      | inl current =>
                          match subscript (JDict di) K_history with
                          | inl history =>
                              match current, history with
                              | JList c, JList h => inl (c, h)
                              | _, _ => inr (ValueError NOT_ARRAYS)
                              end
                          | inr e => inr e
                          end
                      | inr e => inr e
                      end
                  | Some false => inr (ValueError FIELDS_MISSING)
                  | None => inr TypeError
                  end
              | Some false => inr (ValueError FIELDS_MISSING)
              | None => inr TypeError
              end = inl (c, h) ->
              di !! K_current = Some (JList c) /\ di !! K_history = Some (JList h)).
    { intros di. cbn [contains_key subscript].
      destruct (di !! K_current) as [vc|]; [|by rewrite bool_decide_eq_false_2
                                                by (intros [? ?]; discriminate)].
      rewrite bool_decide_eq_true_2 by eauto.
      destruct (di !! K_history) as [vh|]; [|by rewrite bool_decide_eq_false_2
                                                by (intros [? ?]; discriminate)].
      rewrite bool_decide_eq_true_2 by eauto.
      destruct vc, vh; try discriminate. intros E. by injection E as -> ->. }
    destruct (d !! K_data) as [v|] eqn:Hd.
    + destruct v as [| | | | t | l | di]; cbn [contains_key subscript] in H;
        try discriminate.
      * destruct (contains t K_current); [|discriminate].
        destruct (contains t K_history); discriminate.
      * destruct (existsb _ l); [|discriminate].
        destruct (existsb _ l); discriminate.
      * exists di. split; [reflexivity|]. split; [by left|]. by apply Hinner.
    + exists d. split; [reflexivity|]. split; [by right|]. by apply Hinner.
  - intros (d & di & -> & Hdi & Hc & Hh). cbv zeta.
    assert (E : match d !! K_data with Some v => v | None => JDict d end = JDict di).
    { destruct Hdi as [-> | [-> ->]]; reflexivity. }
    rewrite E. cbn [contains_key subscript]. rewrite Hc, Hh.
    rewrite !bool_decide_eq_true_2 by eauto. reflexivity.
Qed.

Lemma parse_code_changes_unfold (json_loads : str -> value + str) (json_content : str) :
  parse_code_changes json_loads json_content
  = match json_loads json_content with
    | inr e => inr (ValueError (JSON_FAILED ++ e))
    | inl (JDict d) =>
        read_fields match d !! K_data with Some v => v | None => JDict d end
    | inl _ => inr (ValueError ROOT_NOT_OBJECT)
    end.
Proof.
  unfold parse_code_changes.
  destruct (json_loads json_content) as [[| | | | | |d]|e]; reflexivity.
Qed.

Lemma read_fields_dict (di : gmap str value) :
  read_fields (JDict di) <> inr TypeError
  /\ read_fields (JDict di) <> inr KeyError
  /\ read_fields (JDict di) <> inr AttributeError.
Proof.
  unfold read_fields. cbn [contains_key subscript].
  destruct (di !! K_current) as [vc|];
    [|rewrite bool_decide_eq_false_2 by (intros [? ?]; discriminate);
      by split; [|split]].
  rewrite bool_decide_eq_true_2 by eauto.
  destruct (di !! K_history) as [vh|];
    [|rewrite bool_decide_eq_false_2 by (intros [? ?]; discriminate);
      by split; [|split]].
  rewrite bool_decide_eq_true_2 by eauto.
  destruct vc, vh; by split; [|split].
Qed.

Lemma read_fields_other (v : value) :
  (read_fields v = inr TypeError <-> breaks_lookup v)
  /\ read_fields v <> inr KeyError
  /\ read_fields v <> inr AttributeError.
Proof.
  destruct v as [| | | | t | l | di]; try (split; [split; done | by split]).
  - unfold read_fields, breaks_lookup. cbn [contains_key subscript].
    destruct (contains t K_current), (contains t K_history);
      (split; [split; [try done; discriminate | by intros [? ?]] | by split]).
  - unfold read_fields, breaks_lookup. cbn [contains_key subscript].
    destruct (existsb (equals_str K_current) l), (existsb (equals_str K_history) l);
      (split; [split; [try done; discriminate | by intros [? ?]] | by split]).
  - destruct (read_fields_dict di) as [H1 H2]. split; [|exact H2].
    split; [done | intros []].
Qed.

(** X27.  [parse_code_changes] raises a [TypeError], which
    [analyze_code_changes] does not catch, exactly when the root object
    has a key "data" whose value is [null], a boolean or a number, or a
    string or an array in which both "current" and "history" are found
    (as substrings, as elements).  In every other case in which it does
    not return it raises a [ValueError]: it raises neither a [KeyError]
    nor an [AttributeError]. *)
Theorem parse_code_changes_type_error :
  forall (json_loads : str -> value + str) (json_content : str),
    (parse_code_changes json_loads json_content = inr TypeError
     <-> exists d v,
           json_loads json_content = inl (JDict d)
           /\ d !! K_data = Some v /\ breaks_lookup v)
    /\ parse_code_changes json_loads json_content <> inr KeyError
    /\ parse_code_changes json_loads json_content <> inr AttributeError.
Proof.
  intros json_loads json_content. rewrite parse_code_changes_unfold.
  destruct (json_loads json_content) as [[| | | | | |d]|e];
    try (split; [split; [discriminate | by intros (? & ? & ? & _)]
                | split; discriminate]).
  destruct (d !! K_data) as [v|] eqn:Hd.
  - destruct (read_fields_other v) as [H1 H2]. split; [|exact H2].
    rewrite H1. split.
    + intros H. by exists d, v.
    + intros (d' & v' & E & Hd' & H). injection E as <-. congruence.
  - destruct (read_fields_dict d) as [H1 H2]. split; [|exact H2].
    split; [done|]. intros (d' & v' & E & Hd' & _). injection E as <-. congruence.
Qed.

(** *** analyze_code_changes *)

Lemma pair_step_raised (current_list history_list : list value)
                       (indices : list nat) (e : exn) :
  fold_left (pair_step current_list history_list) indices (Some (inr e))
  = Some (inr e).
Proof. induction indices as [|i indices IH]; [reflexivity | exact IH]. Qed.

Lemma text_at_default (l : list value) (i : nat) :
  is_text (default (JStr []) (l !! i)) = true ->
  default (JStr []) (l !! i) = JStr (text_at l i).
Proof.
  unfold text_at. destruct (l !! i) as [v|]; [|reflexivity].
  by destruct v.
Qed.

Lemma pairs_fold (current_list history_list : list value) (indices : list nat)
                 (diffs : list DiffAnalyzer.DiffResult)
                 (total_added total_removed : Z) :
  if forallb (fun i => is_text (default (JStr []) (current_list !! i))
                       && is_text (default (JStr []) (history_list !! i)))
             indices
  then exists ds,
      fold_left (pair_step current_list history_list) indices
                (Some (inl (diffs, total_added, total_removed)))
      = Some (inl (diffs ++ ds,
                   (total_added
                    + Z.of_nat (list_sum (map (fun d => length (DiffAnalyzer.added_lines d))
                                              ds)))%Z,
                   (total_removed
                    + Z.of_nat (list_sum (map (fun d => length (DiffAnalyzer.removed_lines d))
                                              ds)))%Z))
      /\ Forall2 (fun i d =>
                    DiffAnalyzer.compute_diff (text_at current_list i)
                                              (text_at history_list i) = Some d)
                 indices ds
  else fold_left (pair_step current_list history_list) indices
                 (Some (inl (diffs, total_added, total_removed)))
       = Some (inr AttributeError).
Proof.
  revert diffs total_added total_removed.
  induction indices as [|i indices IH]; intros diffs total_added total_removed.
  - exists []. cbn. rewrite app_nil_r, !Z.add_0_r. split; [done | constructor].
  - cbn [forallb fold_left pair_step].
    destruct (is_text (default (JStr []) (current_list !! i))) eqn:Hc.
    + destruct (is_text (default (JStr []) (history_list !! i))) eqn:Hh.
      * rewrite (text_at_default _ _ Hc), (text_at_default _ _ Hh).
        cbn [compute_diff andb].
        destruct (DifflibTotal.compute_diff_ends (text_at current_list i)
                    (text_at history_list i)) as [d Hd].
        rewrite Hd.
        specialize (IH (diffs ++ [d])
                       (total_added + Z.of_nat (length (DiffAnalyzer.added_lines d)))%Z
                       (total_removed
                        + Z.of_nat (length (DiffAnalyzer.removed_lines d)))%Z).
        destruct (forallb _ indices); [|exact IH].
        destruct IH as (ds & -> & Hds).
        exists (d :: ds). split; [|by constructor].
        rewrite <- app_assoc. cbn [app map list_sum fold_right].
        by rewrite !Nat2Z.inj_add, !Z.add_assoc.
      * cbn [andb].
        replace (compute_diff (default (JStr []) (current_list !! i))
                              (default (JStr []) (history_list !! i)))
          with (Some (inr AttributeError) : option (DiffAnalyzer.DiffResult + exn)).
        { apply pair_step_raised. }
        destruct (default (JStr []) (current_list !! i)),
                 (default (JStr []) (history_list !! i)); done.
    + cbn [andb].
      replace (compute_diff (default (JStr []) (current_list !! i))
                            (default (JStr []) (history_list !! i)))
        with (Some (inr AttributeError) : option (DiffAnalyzer.DiffResult + exn)).
      { apply pair_step_raised. }
      destruct (default (JStr []) (current_list !! i)); done.
Qed.

(** The positions of the loop see every element of both arrays. *)
Lemma texts_at_positions (current_list history_list : list value) :
  forallb (fun i => is_text (default (JStr []) (current_list !! i))
                    && is_text (default (JStr []) (history_list !! i)))
          (seq 0 (Nat.max (length current_list) (length history_list)))
  = forallb is_text (current_list ++ history_list).
Proof.
  apply eq_true_iff_eq. rewrite !forallb_forall. split.
  - intros H v Hv. apply in_app_or in Hv.
    assert (Hi : exists i, (i < Nat.max (length current_list) (length history_list))%nat
                           /\ (current_list !! i = Some v \/ history_list !! i = Some v)).
    { destruct Hv as [Hv|Hv]; apply list_elem_of_In, list_elem_of_lookup in Hv;
        destruct Hv as [i Hi]; exists i; pose proof (lookup_lt_Some _ _ _ Hi);
        (split; [lia | tauto]). }
    destruct Hi as (i & Hlt & Hi).
    specialize (H i). rewrite in_seq in H. specialize (H ltac:(lia)).
    apply andb_true_iff in H as [H1 H2].
    destruct Hi as [Hi|Hi]; rewrite Hi in *; assumption.
  - intros H i _. apply andb_true_iff. split.
    + destruct (current_list !! i) as [v|] eqn:Hi; [|reflexivity].
      apply H, in_or_app. left. apply list_elem_of_In. by eapply list_elem_of_lookup_2.
    + destruct (history_list !! i) as [v|] eqn:Hi; [|reflexivity].
      apply H, in_or_app. right. apply list_elem_of_In. by eapply list_elem_of_lookup_2.
Qed.

(** X25.  [analyze_code_changes] on every document.  A [ValueError] of
    [parse_code_changes] is caught: the result carries its message, no
    diff and totals of 0.  Any other exception of [parse_code_changes]
    (the [TypeError] of X27) is not caught and leaves the function.
    When the two arrays are returned and every element of both is a
    string, the function returns a result with no error and one diff
    per position up to the longer of the two arrays, a missing entry of
    the shorter array standing for the empty text; the totals are the
    sums of the numbers of added and of removed lines of these diffs.
    When some element of the arrays is not a string, [compute_diff]
    raises an [AttributeError], which leaves the function as well. *)
Theorem analyze_code_changes_shape :
  forall (json_loads : str -> value + str) (json_content : str),
    match parse_code_changes json_loads json_content with
    | inr (ValueError msg) =>
        analyze_code_changes json_loads json_content
        = Some (inl (DiffAnalyzer.mkAnalysisResult [] 0 0 (Some msg)))
    | inr e => analyze_code_changes json_loads json_content = Some (inr e)
    | inl (current_list, history_list) =>
        if forallb is_text (current_list ++ history_list)
        then
          exists r : DiffAnalyzer.AnalysisResult,
            analyze_code_changes json_loads json_content = Some (inl r)
            /\ DiffAnalyzer.error r = None
            /\ length (DiffAnalyzer.diffs r)
               = Nat.max (length current_list) (length history_list)
            /\ (forall i d,
                  DiffAnalyzer.diffs r !! i = Some d ->
                  DiffAnalyzer.compute_diff (text_at current_list i)
                                            (text_at history_list i) = Some d)
            /\ DiffAnalyzer.total_added r
               = Z.of_nat (list_sum (map (fun d => length (DiffAnalyzer.added_lines d))
                                         (DiffAnalyzer.diffs r)))
            /\ DiffAnalyzer.total_removed r
               = Z.of_nat (list_sum (map (fun d => length (DiffAnalyzer.removed_lines d))
                                         (DiffAnalyzer.diffs r)))
        else analyze_code_changes json_loads json_content = Some (inr AttributeError)
    end.
Proof.
  intros json_loads json_content. unfold analyze_code_changes.
  destruct (parse_code_changes json_loads json_content)
    as [[current_list history_list]|[msg| | |]]; try reflexivity.
  cbv zeta.
  set (n := Nat.max (length current_list) (length history_list)).
  pose proof (pairs_fold current_list history_list (seq 0 n) [] 0 0) as H.
  subst n. rewrite texts_at_positions in H.
  destruct (forallb is_text (current_list ++ history_list)).
  - destruct H as (ds & -> & Hds).
    cbn [app]. eexists. split; [reflexivity|].
    cbn [DiffAnalyzer.error DiffAnalyzer.diffs DiffAnalyzer.total_added
         DiffAnalyzer.total_removed].
    split; [reflexivity|].
    split; [by rewrite <- (Forall2_length _ _ _ Hds), length_seq|].
    split; [|split; reflexivity].
    intros i d Hd.
    destruct (Forall2_lookup_r _ _ _ _ _ Hds Hd) as (j & Hj & Hc).
    apply lookup_seq in Hj as [-> _]. exact Hc.
  - by rewrite H.
Qed.

(** Two runs: [{"data": null}] and an array with a number in it end in
    an exception that nothing catches; two arrays of one text each give
    one diff. *)
Example analyze_code_changes_null_data :
  analyze_code_changes loads_null_data [] = Some (inr TypeError).
Proof. vm_compute. reflexivity. Qed.

Example analyze_code_changes_number_entry :
  analyze_code_changes loads_number_entry [] = Some (inr AttributeError).
Proof. vm_compute. reflexivity. Qed.

Example analyze_code_changes_two_versions :
  exists r,
    analyze_code_changes loads_two_versions [] = Some (inl r)
    /\ DiffAnalyzer.error r = None
    /\ length (DiffAnalyzer.diffs r) = 1%nat
    /\ DiffAnalyzer.total_added r = 1%Z
    /\ DiffAnalyzer.total_removed r = 1%Z.
Proof. eexists. split; [vm_compute; reflexivity|]. by vm_compute. Qed.

(** X28.  The two readers of the document agree: when
    [parse_code_changes] returns the arrays [c] and [h] for a text that
    parses to the object [d], [parse_code_changes_data] of [api/index.py]
    returns for [d] an object that binds "current" to [c] and "history"
    to [h]; the change detector is given the files that the diff was
    computed from. *)
Theorem code_changes_readers_agree :
  forall (json_loads : str -> value + str) (json_content : str)
         (d : gmap str value) (c h : list value),
    json_loads json_content = inl (JDict d) ->
    parse_code_changes json_loads json_content = inl (c, h) ->
    exists di,
      parse_code_changes_data d = JDict di
      /\ di !! K_current = Some (JList c)
      /\ di !! K_history = Some (JList h).
Proof.
  intros json_loads json_content d c h Hloads Hparse.
  rewrite parse_code_changes_unfold, Hloads in Hparse.
  unfold parse_code_changes_data. destruct (d !! K_data) as [v|].
  - destruct v as [| | | | t | l | di]; try discriminate.
    + unfold read_fields in Hparse. cbn [contains_key subscript] in Hparse.
      destruct (contains t K_current), (contains t K_history); discriminate.
    + unfold read_fields in Hparse. cbn [contains_key subscript] in Hparse.
      destruct (existsb (equals_str K_current) l),
        (existsb (equals_str K_history) l); discriminate.
    + exists di. split; [reflexivity|]. revert Hparse.
      unfold read_fields. cbn [contains_key subscript].
      destruct (di !! K_current) as [vc|];
        [|by rewrite bool_decide_eq_false_2 by (intros [? ?]; discriminate)].
      rewrite bool_decide_eq_true_2 by eauto.
      destruct (di !! K_history) as [vh|];
        [|by rewrite bool_decide_eq_false_2 by (intros [? ?]; discriminate)].
      rewrite bool_decide_eq_true_2 by eauto.
      destruct vc, vh; try discriminate. intros E. by injection E as -> ->.
  - exists d. revert Hparse. unfold read_fields. cbn [contains_key subscript].
    destruct (d !! K_current) as [vc|];
      [|by rewrite bool_decide_eq_false_2 by (intros [? ?]; discriminate)].
    rewrite !(bool_decide_eq_true_2 (is_Some (Some vc))) by eauto.
    destruct (d !! K_history) as [vh|];
      [|by rewrite bool_decide_eq_false_2 by (intros [? ?]; discriminate)].
    rewrite !(bool_decide_eq_true_2 (is_Some (Some vh))) by eauto.
    destruct vc, vh; try discriminate. intros E. by injection E as -> ->.
Qed.

Lemma code_changes_readers_agree_witness :
  exists di,
    parse_code_changes_data two_versions = JDict di
    /\ di !! K_current = Some (JList [JStr (u "v2")])
    /\ di !! K_history = Some (JList [JStr (u "v1")]).
Proof.
  apply (code_changes_readers_agree loads_two_versions [] two_versions
           [JStr (u "v2")] [JStr (u "v1")]).
  - reflexivity.
  - vm_compute. reflexivity.
Defined.

End CodeChangesExtras.

(** ** Properties of the pipeline of [api/index.py] *)

Module IndexExtras.
Import Index.

Section WithRuntime.
Variable lower : str -> str.
Variable javalang : option (str -> AstParser.ParseOutcome).

(** The changed methods of the file at position [i]. *)
Let changed_at (current history : list str) (i : nat) : list AstParser.MethodInfo :=
  AstParser.extract_changed_methods javalang
    (default [] (current !! i)) (default [] (history !! i)).

Lemma collect_fold (current history : list str) (indices : list nat) (init : list row) :
  fold_left
    (fun changed_methods i =>
       fold_left (fun changed_methods m => changed_methods ++ [method_dict m])
                 (changed_at current history i) changed_methods)
    indices init
  = init ++ flat_map (fun i => map method_dict (changed_at current history i)) indices.
Proof.
  revert init. induction indices as [|i indices IH]; intros init; cbn [fold_left flat_map].
  - by rewrite app_nil_r.
  - rewrite IH, fold_left_snoc_map. by rewrite <- app_assoc.
Qed.

Lemma collect_changed_methods_flat (current history : list str) :
  collect_changed_methods javalang current history
  = flat_map (fun i => map method_dict (changed_at current history i))
             (seq 0 (length current)).
Proof. unfold collect_changed_methods. apply (collect_fold current history _ []). Qed.

Lemma method_dict_name (m : AstParser.MethodInfo) :
  CoverageAnalyzer.method_full_name (method_dict m)
  = CoverageAnalyzer.qualified (AstParser.package_name m) (AstParser.class_name m)
                               (AstParser.method_name m).
Proof.
  unfold CoverageAnalyzer.method_full_name, method_dict, get.
  rewrite lookup_insert_eq.
  rewrite (lookup_insert_ne _ K_pkg K_cls) by discriminate. rewrite lookup_insert_eq.
  rewrite (lookup_insert_ne _ K_pkg K_mtd) by discriminate.
  rewrite (lookup_insert_ne _ K_cls K_mtd) by discriminate. rewrite lookup_insert_eq.
  reflexivity.
Qed.

Lemma flat_map_nil {A B : Type} (f : A -> list B) (l : list A) :
  (forall x, In x l -> f x = []) -> flat_map f l = [].
Proof.
  induction l as [|x l IH]; intros H; cbn [flat_map]; [done|].
  rewrite (H x) by (by left). apply IH. intros y Hy. apply H. by right.
Qed.

Lemma collect_unchanged (files : list str) :
  collect_changed_methods javalang files files = [].
Proof.
  rewrite collect_changed_methods_flat. apply flat_map_nil. intros i _.
  unfold changed_at. by rewrite AstExtras.same_source_unchanged.
Qed.

End WithRuntime.

(** X29.  When the current and the history array hold the same texts,
    no method is collected, the coverage result is the error result "没有
    检测到代码改动" with a total of 0, and the score is nevertheless
    computed: from the total 0 it gets full marks for coverage, so the
    total score is at least 40 and the grade is not F. *)
Theorem unchanged_upload_is_scored :
  forall (lower : str -> str) (javalang : option (str -> AstParser.ParseOutcome))
         (files : list str) (mapping_entries : list CoverageAnalyzer.MappingEntry)
         (test_rows : list row),
    let r := coverage_and_score lower javalang files files
                                mapping_entries test_rows in
    collect_changed_methods javalang files files = []
    /\ CoverageAnalyzer.error r.1 = Some (u "没有检测到代码改动")
    /\ CoverageAnalyzer.total_changed_methods r.1 = 0%Z
    /\ (40 <= ScoringModel.total_score r.2)%Q
    /\ ScoringModel.grade r.2 <> u "F".
Proof.
  intros lower javalang files mapping_entries test_rows r. subst r.
  unfold coverage_and_score. cbv zeta. rewrite collect_unchanged.
  cbn [fst snd].
  change (CoverageAnalyzer.analyze_coverage lower [] mapping_entries
            (CoverageAnalyzer.parse_test_cases test_rows))
    with (CoverageAnalyzer.CoverageResult_error CoverageAnalyzer.NO_CHANGES).
  cbn [CoverageAnalyzer.CoverageResult_error CoverageAnalyzer.error
       CoverageAnalyzer.total_changed_methods CoverageAnalyzer.covered_methods
       length Z.of_nat].
  split; [reflexivity|]. split; [reflexivity|]. split; [reflexivity|].
  destruct (ScoringExtras.score_without_changes 0 test_rows) as (_ & H1 & H2).
  split; [exact H1 | exact H2].
Qed.

(** X30.  The coverage result of the pipeline has one detail record per
    changed method of every current file, file after file and in the
    order of the file; the record carries the name
    "package.class.method" without the parameter types, so that two
    changed overloads of a method give two records with the same
    name.  Files that exist in the history array only are not visited. *)
Theorem pipeline_detail_records :
  forall (lower : str -> str) (javalang : option (str -> AstParser.ParseOutcome))
         (current history : list str)
         (mapping_entries : list CoverageAnalyzer.MappingEntry)
         (test_rows : list row),
    let r := coverage_and_score lower javalang current history
                                mapping_entries test_rows in
    let names :=
      flat_map
        (fun i =>
           map (fun m => CoverageAnalyzer.qualified (AstParser.package_name m)
                           (AstParser.class_name m) (AstParser.method_name m))
               (AstParser.extract_changed_methods javalang
                  (default [] (current !! i)) (default [] (history !! i))))
        (seq 0 (length current)) in
    map CoverageAnalyzer.detail_method (CoverageAnalyzer.coverage_details r.1) = names
    /\ CoverageAnalyzer.total_changed_methods r.1 = Z.of_nat (length names).
Proof.
  intros lower javalang current history mapping_entries test_rows r names.
  subst r. unfold coverage_and_score. cbv zeta. cbn [fst].
  set (changed := collect_changed_methods javalang current history).
  assert (Hnames : map CoverageAnalyzer.method_full_name changed = names).
  { subst changed names. rewrite collect_changed_methods_flat.
    rewrite flat_map_concat_map, concat_map, map_map, <- flat_map_concat_map.
    apply flat_map_ext. intros i. rewrite map_map. apply map_ext.
    intros m. apply method_dict_name. }
  destruct (list_eq_nil_dec changed) as [E|Hne].
  - rewrite E in *. cbn in Hnames. rewrite <- Hnames. by split.
  - rewrite (CoverageClaims.analyze_coverage_nonempty lower changed _ _ Hne).
    cbn [CoverageAnalyzer.coverage_details CoverageAnalyzer.total_changed_methods].
    rewrite CoverageExtras.map_detail_method, <- Hnames, length_map. by split.
Qed.

End IndexExtras.
